(** * MESH bonding engine: a shallow embedding of the Python sources

  The development follows the package layout of [mesh_network]:
  - [Py]: the Python containers the code relies on (insertion-ordered
    [dict], bounded [collections.deque]);
  - [Core]: the [MeshNode] dataclass of [core/mesh_manager.py];
  - [LinkAggregator]: [aggregation/link_aggregator.py];
  - [NodeDiscovery]: [networking/node_discovery.py];
  - [FailoverManager]: [failover/failover_manager.py];
  - [MetricsCollector]: [utils/metrics.py];
  - [MeshManager]: the control loops of [core/mesh_manager.py].

  Conventions.  Python [float]s are modelled by rationals ([Q]): exact
  ones where only comparisons and counts matter, and with the rounding of
  every operation made explicit where the value computed matters (the
  weight computation of the aggregator).  A Python exception is modelled
  by [None] (or a dedicated constructor) in the result of the function that
  raises it.  *)

From Stdlib Require Import QArith Qminmax Qabs Qround Lqa.
From stdpp Require Import gmap strings list fin_maps.

Local Open Scope string_scope.
Local Open Scope nat_scope.
Local Open Scope list_scope.

(* ===================================================================== *)
(** ** Python containers *)
(* ===================================================================== *)

Module Py.

(** A Python [dict] with [str] keys: an association list in insertion
    order.  Keys are unique in every dictionary Python can build; this
    is the invariant [wf]. *)
Section Dict.
Context {V : Type}.

Definition dict_get (d : list (string * V)) (k : string) : option V :=
  snd <$> List.find (fun kv => String.eqb (fst kv) k) d.

(** [d[k] = v]: overwrite in place when [k] is present, append at the
    end otherwise. *)
Fixpoint dict_set (d : list (string * V)) (k : string) (v : V)
  : list (string * V) :=
  match d with
  | [] => [(k, v)]
  | (k', v') :: r =>
      if String.eqb k' k then (k', v) :: r else (k', v') :: dict_set r k v
  end.

Definition dict_mem (d : list (string * V)) (k : string) : bool :=
  match dict_get d k with Some _ => true | None => false end.

(** [del d[k]] (for a key known to be present) and [d.pop(k, None)]. *)
Definition dict_del (d : list (string * V)) (k : string)
  : list (string * V) :=
  List.filter (fun kv => negb (String.eqb (fst kv) k)) d.

Definition keys (d : list (string * V)) : list string := d.*1.
Definition values (d : list (string * V)) : list V := d.*2.

Definition wf (d : list (string * V)) : Prop := NoDup (keys d).
End Dict.

Abbreviation dict V := (list (string * V)).

(** [collections.deque(maxlen=n)]: [append] on a full deque discards the
    leftmost element; [popleft] on an empty deque raises [IndexError]. *)
Record deque (A : Type) := Deque { items : list A; maxlen : nat }.
Arguments Deque {A}.
Arguments items {A}.
Arguments maxlen {A}.

Definition deque_new {A} (n : nat) : deque A := Deque [] n.

Definition deque_append {A} (q : deque A) (x : A) : deque A :=
  if Nat.eqb (maxlen q) 0 then q
  else if Nat.ltb (length (items q)) (maxlen q)
       then Deque (items q ++ [x]) (maxlen q)
       else Deque (tl (items q) ++ [x]) (maxlen q).

Definition deque_popleft {A} (q : deque A) : option (A * deque A) :=
  match items q with
  | [] => None
  | x :: r => Some (x, Deque r (maxlen q))
  end.

Definition Qsum (l : list Q) : Q := foldr Qplus 0%Q l.

(** [d.get(k, 0)] on a float map. *)
Definition get0 (d : dict Q) (k : string) : Q :=
  match dict_get d k with Some v => v | None => 0%Q end.

(** Python's [max(xs, key=f)] and [min(xs, key=f)]: the first extremal
    element wins. *)
Fixpoint py_max_by {A} (key : A -> Q) (best : A) (l : list A) : A :=
  match l with
  | [] => best
  | x :: r =>
      if negb (Qle_bool (key x) (key best)) then py_max_by key x r
      else py_max_by key best r
  end.

Fixpoint py_min_by {A} (key : A -> Q) (best : A) (l : list A) : A :=
  match l with
  | [] => best
  | x :: r =>
      if negb (Qle_bool (key best) (key x)) then py_min_by key x r
      else py_min_by key best r
  end.

(** The binary64 float nearest to a rational (round to nearest, ties to
    even), for a rational in the range of normal floats: the significand
    has 53 bits, the limits of the exponent are not modelled. *)
Definition binary64 (x : Q) : Q :=
  if Qeq_bool x 0 then 0%Q
  else
    let a := Qabs x in
    let e0 := (Z.log2 (Qnum a) - Z.log2 (Zpos (Qden a)) - 1)%Z in
    let e := if Qle_bool (Qpower 2 (e0 + 1)) a then (e0 + 1)%Z else e0 in
    let ulp := Qpower 2 (e - 52) in
    let q := (a / ulp)%Q in
    let m := Qfloor q in
    let rest := (q - inject_Z m)%Q in
    let m' :=
      if Qle_bool rest (1 # 2) then
        if Qeq_bool rest (1 # 2) then (if Z.even m then m else m + 1)%Z
        else m
      else (m + 1)%Z in
    ((if Qle_bool 0 x then 1 else -1) * inject_Z m' * ulp)%Q.

End Py.

Import Py.

(* ===================================================================== *)
(** ** core/mesh_manager.py: the node record *)
(* ===================================================================== *)

Module Core.

(** The [MeshNode] dataclass.  Python does not check the annotated field
    types: the local node holds interface names and float maps, a peer
    record holds whatever the decoded datagram carried.  The record is
    therefore parametric in the type [L] of [connections] and the type
    [M] of the three per-interface maps. *)
Record MeshNode (L M : Type) := mkMeshNode {
  node_id : string;
  ip_address : string;
  connections : L;
  bandwidth : M;
  latency : M;
  last_seen : Q;
  data_caps : M
}.
Arguments mkMeshNode {L M}.
Arguments node_id {L M}.
Arguments ip_address {L M}.
Arguments connections {L M}.
Arguments bandwidth {L M}.
Arguments latency {L M}.
Arguments last_seen {L M}.
Arguments data_caps {L M}.

(** The local node: [List[str]] and [Dict[str, float]]. *)
Definition LocalNode := MeshNode (list string) (dict Q).

End Core.

(* ===================================================================== *)
(** ** aggregation/link_aggregator.py *)
(* ===================================================================== *)

Module LinkAggregator.

Definition bytes := list Byte.byte.

(** The per-interface [connection_info] dictionary built by
    [initialize]. *)
Record ConnInfo := mkConnInfo {
  bandwidth : Q;
  latency : Q;
  data_cap : Q;
  active : bool;
  packet_count : nat;
  bytes_sent : nat
}.

Record t := mkAggregator {
  aggregation_mode : string;
  active_connections : dict ConnInfo;
  connection_weights : dict Q;
  packet_queues : dict (deque bytes);
  performance_history : dict (list (Q * Q));
  running : bool;
  max_queue_size : nat;
  rebalance_interval : nat;
  performance_window : nat
}.

(** [LinkAggregator.__init__] *)
Definition __init__ : t :=
  {| aggregation_mode := "load_balance";
     active_connections := [];
     connection_weights := [];
     packet_queues := [];
     performance_history := [];
     running := false;
     max_queue_size := 1000;
     rebalance_interval := 30;
     performance_window := 10 |}.

Definition set_weights (s : t) (w : dict Q) : t :=
  {| aggregation_mode := aggregation_mode s;
     active_connections := active_connections s;
     connection_weights := w;
     packet_queues := packet_queues s;
     performance_history := performance_history s;
     running := running s;
     max_queue_size := max_queue_size s;
     rebalance_interval := rebalance_interval s;
     performance_window := performance_window s |}.

(** The guard of [_calculate_weights]: the interface takes part in the
    normalisation. *)
Definition qualifies (c : ConnInfo) : bool :=
  active c && negb (Qle_bool (bandwidth c) 0)
           && negb (Qle_bool 1000 (latency c)).

(** [bandwidth / 100 * max(0.1, 100 / latency)] *)
Definition raw_weight (c : ConnInfo) : Q :=
  ((bandwidth c / 100) * Qmax (1 # 10) (100 / latency c))%Q.

(** The [for] loop of [_calculate_weights]; [None] is the
    [ZeroDivisionError] of [100 / latency]. *)
Fixpoint weights_loop (conns : dict ConnInfo) (total_weight : Q)
    (weights : dict Q) : option (Q * dict Q) :=
  match conns with
  | [] => Some (total_weight, weights)
  | (interface, conn_info) :: rest =>
      if negb (active conn_info) then
        weights_loop rest total_weight (dict_set weights interface 0%Q)
      else if Qle_bool (bandwidth conn_info) 0
              || Qle_bool 1000 (latency conn_info) then
        weights_loop rest total_weight (dict_set weights interface 0%Q)
      else if Qeq_bool (latency conn_info) 0 then None
      else
        let weight := raw_weight conn_info in
        weights_loop rest (total_weight + weight)%Q
                     (dict_set weights interface weight)
  end.

(** [weights[interface] /= total_weight] for every key. *)
Definition normalize (total_weight : Q) (weights : dict Q) : dict Q :=
  (fun kv => (fst kv, (snd kv / total_weight)%Q)) <$> weights.

Definition _calculate_weights (s : t) : option t :=
  match weights_loop (active_connections s) 0%Q [] with
  | None => None
  | Some (total_weight, weights) =>
      Some (set_weights s
              (if negb (Qle_bool total_weight 0)
               then normalize total_weight weights else weights))
  end.

(** *** The weight computation in floating-point arithmetic

    Every operation on Python [float]s returns the float nearest to its
    exact result, and the literal [0.1] is the float nearest to one tenth.
    [fl] is that rounding.  The functions below are the ones above with
    every operation rounded; with the identity for [fl] they are the exact
    ones. *)
Section Rounded.
Variable fl : Q -> Q.

(** [bandwidth / 100 * max(0.1, 100 / latency)], three rounded
    operations. *)
Definition raw_weight_fl (c : ConnInfo) : Q :=
  let bandwidth_weight := fl (bandwidth c / 100) in
  let latency_weight := Qmax (fl (1 # 10)) (fl (100 / latency c)) in
  fl (bandwidth_weight * latency_weight).

Fixpoint weights_loop_fl (conns : dict ConnInfo) (total_weight : Q)
    (weights : dict Q) : option (Q * dict Q) :=
  match conns with
  | [] => Some (total_weight, weights)
  | (interface, conn_info) :: rest =>
      if negb (active conn_info) then
        weights_loop_fl rest total_weight (dict_set weights interface 0%Q)
      else if Qle_bool (bandwidth conn_info) 0
              || Qle_bool 1000 (latency conn_info) then
        weights_loop_fl rest total_weight (dict_set weights interface 0%Q)
      else if Qeq_bool (latency conn_info) 0 then None
      else
        let weight := raw_weight_fl conn_info in
        weights_loop_fl rest (fl (total_weight + weight))
                        (dict_set weights interface weight)
  end.

Definition normalize_fl (total_weight : Q) (weights : dict Q) : dict Q :=
  (fun kv => (fst kv, fl (snd kv / total_weight))) <$> weights.

Definition _calculate_weights_fl (s : t) : option t :=
  match weights_loop_fl (active_connections s) 0%Q [] with
  | None => None
  | Some (total_weight, weights) =>
      Some (set_weights s
              (if negb (Qle_bool total_weight 0)
               then normalize_fl total_weight weights else weights))
  end.

(** The exact results that the computation rounds, in the order in which
    it rounds them: for every qualifying interface the three operations of
    its raw weight (and the literal) and the addition to the running total;
    then, when the total is positive, one division per entry. *)
Definition raw_weight_roundings (c : ConnInfo) : list Q :=
  [(bandwidth c / 100)%Q; (1 # 10)%Q; (100 / latency c)%Q;
   (fl (bandwidth c / 100)
    * Qmax (fl (1 # 10)) (fl (100 / latency c)))%Q].

Fixpoint loop_roundings (conns : dict ConnInfo) (total_weight : Q)
    : list Q :=
  match conns with
  | [] => []
  | (interface, conn_info) :: rest =>
      if qualifies conn_info then
        raw_weight_roundings conn_info
        ++ (total_weight + raw_weight_fl conn_info)%Q
           :: loop_roundings rest
                (fl (total_weight + raw_weight_fl conn_info))
      else loop_roundings rest total_weight
  end.

Definition roundings (s : t) : list Q :=
  loop_roundings (active_connections s) 0%Q
  ++ match weights_loop_fl (active_connections s) 0%Q [] with
     | Some (total_weight, weights) =>
         if negb (Qle_bool total_weight 0)
         then (fun kv => (snd kv / total_weight)%Q) <$> weights
         else []
     | None => []
     end.
End Rounded.

Definition set_connections (s : t) (c : dict ConnInfo) : t :=
  {| aggregation_mode := aggregation_mode s;
     active_connections := c;
     connection_weights := connection_weights s;
     packet_queues := packet_queues s;
     performance_history := performance_history s;
     running := running s;
     max_queue_size := max_queue_size s;
     rebalance_interval := rebalance_interval s;
     performance_window := performance_window s |}.

Definition set_queues (s : t) (q : dict (deque bytes)) : t :=
  {| aggregation_mode := aggregation_mode s;
     active_connections := active_connections s;
     connection_weights := connection_weights s;
     packet_queues := q;
     performance_history := performance_history s;
     running := running s;
     max_queue_size := max_queue_size s;
     rebalance_interval := rebalance_interval s;
     performance_window := performance_window s |}.

Definition set_history (s : t) (h : dict (list (Q * Q))) : t :=
  {| aggregation_mode := aggregation_mode s;
     active_connections := active_connections s;
     connection_weights := connection_weights s;
     packet_queues := packet_queues s;
     performance_history := h;
     running := running s;
     max_queue_size := max_queue_size s;
     rebalance_interval := rebalance_interval s;
     performance_window := performance_window s |}.

Definition set_mode (s : t) (m : string) : t :=
  {| aggregation_mode := m;
     active_connections := active_connections s;
     connection_weights := connection_weights s;
     packet_queues := packet_queues s;
     performance_history := performance_history s;
     running := running s;
     max_queue_size := max_queue_size s;
     rebalance_interval := rebalance_interval s;
     performance_window := performance_window s |}.

Definition set_running (s : t) (b : bool) : t :=
  {| aggregation_mode := aggregation_mode s;
     active_connections := active_connections s;
     connection_weights := connection_weights s;
     packet_queues := packet_queues s;
     performance_history := performance_history s;
     running := b;
     max_queue_size := max_queue_size s;
     rebalance_interval := rebalance_interval s;
     performance_window := performance_window s |}.

(** What a call leaves behind: it returned, or an exception escaped it.
    Either way the object keeps the mutations made so far. *)
Inductive outcome := Returned (s : t) | Raised (s : t).

Definition state_of (o : outcome) : t :=
  match o with Returned s => s | Raised s => s end.

(** The [for] loop of [initialize]. *)
Fixpoint initialize_loop (s : t) (local_node : Core.LocalNode)
    (interfaces : list string) : t :=
  match interfaces with
  | [] => s
  | interface :: rest =>
      let info :=
        {| bandwidth := get0 (Core.bandwidth local_node) interface;
           latency := get0 (Core.latency local_node) interface;
           data_cap := get0 (Core.data_caps local_node) interface;
           active := true;
           packet_count := 0;
           bytes_sent := 0 |} in
      let s1 := set_connections s
                  (dict_set (active_connections s) interface info) in
      let s2 := set_queues s1
                  (dict_set (packet_queues s1) interface
                            (deque_new (max_queue_size s1))) in
      let s3 := set_history s2
                  (dict_set (performance_history s2) interface []) in
      initialize_loop s3 local_node rest
  end.

(** [initialize]; the monitoring thread it starts only sleeps. *)
Definition initialize (s : t) (local_node : Core.LocalNode) : outcome :=
  let s1 := initialize_loop s local_node (Core.connections local_node) in
  match _calculate_weights s1 with
  | None => Raised s1
  | Some s2 => Returned (set_running s2 true)
  end.

Fixpoint _update_connection_status_loop (conns : dict ConnInfo)
    (local_node : Core.LocalNode) (interfaces : list string)
    : dict ConnInfo :=
  match interfaces with
  | [] => conns
  | interface :: rest =>
      match dict_get conns interface with
      | Some info =>
          let info' :=
            {| bandwidth := get0 (Core.bandwidth local_node) interface;
               latency := get0 (Core.latency local_node) interface;
               data_cap := get0 (Core.data_caps local_node) interface;
               active := active info;
               packet_count := packet_count info;
               bytes_sent := bytes_sent info |} in
          _update_connection_status_loop (dict_set conns interface info')
                                         local_node rest
      | None => _update_connection_status_loop conns local_node rest
      end
  end.

Definition _update_connection_status (s : t) (local_node : Core.LocalNode)
    : t :=
  set_connections s
    (_update_connection_status_loop (active_connections s) local_node
                                    (Core.connections local_node)).

Definition _adjust_aggregation_mode (s : t) : t :=
  let active_connections :=
    filter (fun kv => active (snd kv) = true) (active_connections s) in
  match length active_connections with
  | 0 => set_mode s "failover"
  | 1 => set_mode s "failover"
  | _ => set_mode s "load_balance"
  end.

(** [optimize_aggregation]: the [try] block swallows the exception and keeps
    whatever was mutated before it ([_rebalance_connections] is [pass]). *)
Definition optimize_aggregation (s : t) (local_node : Core.LocalNode) : t :=
  let s1 := _update_connection_status s local_node in
  match _calculate_weights s1 with
  | None => s1
  | Some s2 => _adjust_aggregation_mode s2
  end.

(** The cumulative scan of [_weighted_random_selection]; [r] is the value
    drawn by [np.random.random()]. *)
Fixpoint weighted_scan (r cumulative : Q) (ifaces : list string)
    (normalized_weights : list Q) : option string :=
  match ifaces, normalized_weights with
  | iface :: ifaces', weight :: weights' =>
      let cumulative := (cumulative + weight)%Q in
      if Qle_bool r cumulative then Some iface
      else weighted_scan r cumulative ifaces' weights'
  | _, _ => None
  end.

Definition _weighted_random_selection (s : t) (r : Q) : option string :=
  let active_interfaces :=
    (filter (fun kv => active (snd kv) = true
                       ∧ negb (Qle_bool (get0 (connection_weights s) (fst kv)) 0)
                         = true)
            (active_connections s)).*1 in
  match active_interfaces with
  | [] => None
  | first :: _ =>
      let weights := get0 (connection_weights s) <$> active_interfaces in
      let total_weight := Qsum weights in
      if Qeq_bool total_weight 0 then Some first
      else
        let normalized_weights :=
          (fun w => (w / total_weight)%Q) <$> weights in
        match weighted_scan r 0%Q active_interfaces normalized_weights with
        | Some iface => Some iface
        | None => last active_interfaces
        end
  end.

(** [self.active_connections[x]['bandwidth']] for an [x] drawn from the
    keys of that very dictionary. *)
Definition bandwidth_of (s : t) (x : string) : Q :=
  match dict_get (active_connections s) x with
  | Some info => bandwidth info
  | None => 0%Q
  end.

Definition latency_of (s : t) (x : string) : Q :=
  match dict_get (active_connections s) x with
  | Some info => latency info
  | None => 0%Q
  end.

Definition _adaptive_selection (s : t) (packet_size : nat) (r : Q)
    : option string :=
  if Nat.eqb packet_size 0 then _weighted_random_selection s r
  else
    let active_interfaces :=
      (filter (fun kv => active (snd kv) = true) (active_connections s)).*1 in
    match active_interfaces with
    | [] => None
    | x :: rest =>
        if Nat.ltb 1000 packet_size
        then Some (py_max_by (bandwidth_of s) x rest)
        else Some (py_min_by (latency_of s) x rest)
    end.

Definition select_connection (s : t) (packet_size : nat) (r : Q)
    : option string :=
  match active_connections s with
  | [] => None
  | _ =>
      if String.eqb (aggregation_mode s) "failover" then
        fst <$> List.find (fun kv => active (snd kv)) (active_connections s)
      else if String.eqb (aggregation_mode s) "load_balance" then
        _weighted_random_selection s r
      else if String.eqb (aggregation_mode s) "adaptive" then
        _adaptive_selection s packet_size r
      else None
  end.

(** [queue_packet]; [interface = None] is the omitted argument. *)
Definition queue_packet (s : t) (packet_data : bytes)
    (interface : option string) (r : Q) : bool * t :=
  let interface :=
    match interface with
    | None => select_connection s (length packet_data) r
    | Some i => Some i
    end in
  match interface with
  | None => (false, s)
  | Some interface =>
      if String.eqb interface "" then (false, s)
      else
        match dict_get (packet_queues s) interface with
        | None => (false, s)
        | Some queue =>
            if Nat.leb (max_queue_size s) (length (items queue))
            then (false, s)
            else
              let s1 :=
                set_queues s (dict_set (packet_queues s) interface
                                       (deque_append queue packet_data)) in
              match dict_get (active_connections s1) interface with
              | Some info =>
                  let info' :=
                    {| bandwidth := bandwidth info;
                       latency := latency info;
                       data_cap := data_cap info;
                       active := active info;
                       packet_count := packet_count info + 1;
                       bytes_sent := bytes_sent info + length packet_data |} in
                  (true, set_connections s1
                           (dict_set (active_connections s1) interface info'))
              | None => (true, s1)
              end
        end
  end.

Definition get_packet_from_queue (s : t) (interface : string)
    : option bytes * t :=
  match dict_get (packet_queues s) interface with
  | None => (None, s)
  | Some queue =>
      match deque_popleft queue with
      | None => (None, s)
      | Some (packet, queue') =>
          (Some packet,
           set_queues s (dict_set (packet_queues s) interface queue'))
      end
  end.

(** The loop of [monitor_connections]: the current pair is appended to the
    history of the interface and the oldest entry is dropped once the
    history is longer than the window; a missing history raises [KeyError],
    which the [try] block of the iteration swallows. *)
Fixpoint monitor_loop (history : dict (list (Q * Q))) (window : nat)
    (conns : dict ConnInfo) : dict (list (Q * Q)) :=
  match conns with
  | [] => history
  | (interface, conn_info) :: rest =>
      match dict_get history interface with
      | None => monitor_loop history window rest
      | Some h =>
          let h1 := h ++ [(bandwidth conn_info, latency conn_info)] in
          let h2 := if Nat.ltb window (length h1) then tl h1 else h1 in
          monitor_loop (dict_set history interface h2) window rest
      end
  end.

Definition monitor_connections (s : t) : t :=
  set_history s (monitor_loop (performance_history s) (performance_window s)
                              (active_connections s)).

Record AggregationStatus := mkAggregationStatus {
  status_mode : string;
  status_active_connections : nat;
  status_total_connections : nat;
  status_total_bandwidth : Q;
  status_average_latency : Q;
  status_connection_weights : dict Q;
  status_queue_sizes : dict nat
}.

Definition get_aggregation_status (s : t) : AggregationStatus :=
  let active_infos :=
    List.filter (fun info => active info) (values (active_connections s)) in
  let total_bandwidth := Qsum (bandwidth <$> active_infos) in
  let active_count := length active_infos in
  let avg_latency :=
    if Nat.ltb 0 active_count
    then (Qsum (latency <$> active_infos)
          / inject_Z (Z.of_nat active_count))%Q
    else 0%Q in
  {| status_mode := aggregation_mode s;
     status_active_connections := length active_infos;
     status_total_connections := length (active_connections s);
     status_total_bandwidth := total_bandwidth;
     status_average_latency := avg_latency;
     status_connection_weights := connection_weights s;
     status_queue_sizes :=
       (fun kv => (fst kv, length (items (snd kv)))) <$> packet_queues s |}.

(** [cleanup] *)
Definition cleanup (s : t) : t := set_running s false.

End LinkAggregator.

(* ===================================================================== *)
(** ** networking/node_discovery.py *)
(* ===================================================================== *)

Module NodeDiscovery.

(** What [json.loads] returns.  Objects keep their members in order. *)
#[local] Unset Elimination Schemes.
Inductive json :=
| JNull
| JBool (b : bool)
| JNum (x : Q)
| JStr (s : string)
| JList (l : list json)
| JObj (o : list (string * json)).
#[local] Set Elimination Schemes.

(** A datagram received on the discovery port, as [json.loads] sees it:
    it raises [JSONDecodeError] ([BadJSON]), it raises another exception
    ([LoadsRaises]: [RecursionError] on deeply nested brackets, [ValueError]
    on an integer literal beyond the digit limit), or it yields a value.
    The sender's [json.dumps] followed by the receiver's [json.loads] hands
    over the value unchanged: the payloads built below have string keys and
    hold strings, lists and floats only. *)
Inductive response := BadJSON | LoadsRaises | Decoded (v : json).

Record t := mkDiscovery {
  node_id : option string;
  local_ip : option string;
  mac_address : option string;
  discovery_port : N;
  broadcast_address : string;
  mesh_group : string
}.

(** [NodeDiscovery.__init__] *)
Definition __init__ : t :=
  {| node_id := None;
     local_ip := None;
     mac_address := None;
     discovery_port := 9999%N;
     broadcast_address := "255.255.255.255";
     mesh_group := "MESH_NETWORK_GROUP" |}.

Definition required_fields : list string :=
  ["node_id"; "ip_address"; "connections"; "bandwidth"; "latency"].

Definition is_substring (needle hay : string) : bool :=
  match String.index 0 needle hay with Some _ => true | None => false end.

(** [field in node_data]: key membership on an object, element membership
    on a list, substring test on a string, [TypeError] ([None]) on the
    rest. *)
Definition py_in (field : string) (node_data : json) : option bool :=
  match node_data with
  | JObj o => Some (dict_mem o field)
  | JList l =>
      Some (existsb (fun x => match x with
                              | JStr s => String.eqb s field
                              | _ => false
                              end) l)
  | JStr s => Some (is_substring field s)
  | _ => None
  end.

(** [all(field in node_data for field in fields)] *)
Fixpoint all_fields_in (fields : list string) (node_data : json)
    : option bool :=
  match fields with
  | [] => Some true
  | field :: rest =>
      match py_in field node_data with
      | None => None
      | Some false => Some false
      | Some true => all_fields_in rest node_data
      end
  end.

(** [node_data.get('node_id') == self.node_id] on an object. *)
Definition node_id_is_own (o : dict json) (own : option string) : bool :=
  match dict_get o "node_id", own with
  | Some (JStr s), Some s' => String.eqb s s'
  | Some JNull, None => true
  | None, None => true
  | _, _ => false
  end.

Definition is_str (v : json) : bool :=
  match v with JStr _ => true | _ => false end.
Definition is_list (v : json) : bool :=
  match v with JList _ => true | _ => false end.
Definition is_dict (v : json) : bool :=
  match v with JObj _ => true | _ => false end.

(** The outcome of [_validate_node_data]: [True], [False], or an exception
    that escapes it. *)
Inductive verdict := Valid | Invalid | Raises.

(** [assert isinstance(node_data[field], T)] followed by [k]: a failed
    assertion is caught and gives [False], a [KeyError] is not caught. *)
Definition assert_isinstance (o : dict json) (field : string)
    (is_T : json -> bool) (k : verdict) : verdict :=
  match dict_get o field with
  | None => Raises
  | Some v => if is_T v then k else Invalid
  end.

Definition _validate_node_data (self : t) (node_data : json) : verdict :=
  match all_fields_in required_fields node_data with
  | None => Raises
  | Some false => Invalid
  | Some true =>
      match node_data with
      | JObj o =>
          if node_id_is_own o (node_id self) then Invalid
          else
            assert_isinstance o "node_id" is_str
              (assert_isinstance o "ip_address" is_str
                 (assert_isinstance o "connections" is_list
                    (assert_isinstance o "bandwidth" is_dict
                       (assert_isinstance o "latency" is_dict Valid))))
      | _ => Raises
      end
  end.

(** The parsing loop of [discover_nodes]: a datagram that is not JSON is
    skipped (the inner handler catches [JSONDecodeError] only); any other
    exception, out of [json.loads] or out of the validation, reaches the
    outer handler and ends the pass with what was collected so far. *)
Fixpoint discover_loop (self : t) (responses : list response)
    (discovered_nodes : list json) : list json :=
  match responses with
  | [] => discovered_nodes
  | BadJSON :: rest => discover_loop self rest discovered_nodes
  | LoadsRaises :: _ => discovered_nodes
  | Decoded node_data :: rest =>
      match _validate_node_data self node_data with
      | Valid => discover_loop self rest (discovered_nodes ++ [node_data])
      | Invalid => discover_loop self rest discovered_nodes
      | Raises => discovered_nodes
      end
  end.

(** [discover_nodes], given the datagrams heard during the listening
    window (none when the broadcast or the capture failed). *)
Definition discover_nodes (self : t) (responses : list response)
    : list json :=
  discover_loop self responses [].

Definition json_of_names (l : list string) : json := JList (JStr <$> l).

Definition json_of_floats (d : dict Q) : json :=
  JObj ((fun kv => (fst kv, JNum (snd kv))) <$> d).

(** The [advertisement_data] dictionary of [advertise_node]. *)
Definition advertisement_data (node : Core.LocalNode) (timestamp : Q)
    : json :=
  JObj [("node_id", JStr (Core.node_id node));
        ("ip_address", JStr (Core.ip_address node));
        ("connections", json_of_names (Core.connections node));
        ("bandwidth", json_of_floats (Core.bandwidth node));
        ("latency", json_of_floats (Core.latency node));
        ("data_caps", json_of_floats (Core.data_caps node));
        ("timestamp", JNum timestamp)].

(** The [advertisement_packet] of [_send_advertisement]: what goes on the
    wire. *)
Definition _send_advertisement (self : t) (node_data : json) (timestamp : Q)
    : json :=
  JObj [("type", JStr "NODE_ADVERTISEMENT");
        ("node_data", node_data);
        ("group", JStr (mesh_group self));
        ("timestamp", JNum timestamp)].

Definition advertise_node (self : t) (node : Core.LocalNode)
    (timestamp : Q) : json :=
  _send_advertisement self (advertisement_data node timestamp) timestamp.

(** The [discovery_packet] of [_send_discovery_broadcast]. *)
Definition _send_discovery_broadcast (self : t) (timestamp : Q) : json :=
  JObj [("type", JStr "DISCOVERY_REQUEST");
        ("node_id", match node_id self with
                    | Some s => JStr s
                    | None => JNull
                    end);
        ("group", JStr (mesh_group self));
        ("timestamp", JNum timestamp)].

(** [get_mac_address]: the cached address if there is one; otherwise the
    address of the first interface (given as (ip, mac) pairs, in the order
    of [conf.ifaces]) whose ip is set and is not the loopback one, else the
    hardware address of the default interface; when the platform raises
    ([default_hwaddr = None] once it is consulted), the null address. *)
Definition set_mac_address (self : t) (mac : string) : t :=
  {| node_id := node_id self;
     local_ip := local_ip self;
     mac_address := Some mac;
     discovery_port := discovery_port self;
     broadcast_address := broadcast_address self;
     mesh_group := mesh_group self |}.

Definition set_node_id (self : t) (id : string) : t :=
  {| node_id := Some id;
     local_ip := local_ip self;
     mac_address := mac_address self;
     discovery_port := discovery_port self;
     broadcast_address := broadcast_address self;
     mesh_group := mesh_group self |}.

(** Python truthiness of an optional string: set and not empty. *)
Definition truthy (x : option string) : bool :=
  match x with
  | Some s => negb (String.eqb s "")
  | None => false
  end.

Definition get_mac_address (self : t) (ifaces : list (string * string))
    (default_hwaddr : option string) : string * t :=
  if truthy (mac_address self) then
    (default "" (mac_address self), self)
  else
    let found :=
      List.find (fun iface => negb (String.eqb (fst iface) "")
                              && negb (String.eqb (fst iface) "127.0.0.1"))
                ifaces in
    let mac :=
      match found with
      | Some iface =>
          if negb (String.eqb (snd iface) "") then snd iface
          else default "00:00:00:00:00:00" default_hwaddr
      | None => default "00:00:00:00:00:00" default_hwaddr
      end in
    (mac, set_mac_address self mac).

Section NodeId.
(** [str(uuid.uuid5(uuid.NAMESPACE_DNS, name))], a function of the name. *)
Variable uuid5 : string -> string.

(** [generate_node_id]; [hostname] is what [socket.gethostname()]
    returns. *)
Definition generate_node_id (self : t) (hostname : string)
    (ifaces : list (string * string)) (default_hwaddr : option string)
    : string * t :=
  if truthy (node_id self) then (default "" (node_id self), self)
  else
    let '(mac, self1) := get_mac_address self ifaces default_hwaddr in
    let id := uuid5 (hostname ++ "-" ++ mac)%string in
    (id, set_node_id self1 id).
End NodeId.

End NodeDiscovery.

(* ===================================================================== *)
(** ** failover/failover_manager.py *)
(* ===================================================================== *)

Module FailoverManager.

Inductive FailoverState :=
| NORMAL | MONITORING | FAILING_OVER | RECOVERING | DEGRADED.

(** [FailoverState.value] *)
Definition value (s : FailoverState) : string :=
  match s with
  | NORMAL => "normal"
  | MONITORING => "monitoring"
  | FAILING_OVER => "failing_over"
  | RECOVERING => "recovering"
  | DEGRADED => "degraded"
  end.

(** The [details] dictionary of an event, one shape per event type. *)
Inductive EventDetails :=
| FailureDetails (failure_count : nat) (state : string)
| SuccessDetails (success_count : nat) (state : string)
| ManualDetails (to_interface : string) (manual : bool).

Record FailoverEvent := mkEvent {
  event_type : string;
  interface : string;
  timestamp : Q;
  details : EventDetails
}.

Record t := mkFailover {
  state : FailoverState;
  primary_interface : option string;
  backup_interfaces : list string;
  failed_interfaces : gset string;
  failover_threshold : nat;
  recovery_threshold : nat;
  monitoring_interval : Q;
  failover_timeout : nat;
  failure_counts : gmap string nat;
  success_counts : gmap string nat;
  last_check : gmap string Q;
  failover_events : list FailoverEvent;
  health_check_targets : list string;
  health_check_timeout : nat
}.

(** [FailoverManager.__init__] *)
Definition __init__ : t :=
  {| state := NORMAL;
     primary_interface := None;
     backup_interfaces := [];
     failed_interfaces := ∅;
     failover_threshold := 3;
     recovery_threshold := 2;
     monitoring_interval := 10%Q;
     failover_timeout := 30;
     failure_counts := ∅;
     success_counts := ∅;
     last_check := ∅;
     failover_events := [];
     health_check_targets := ["8.8.8.8"; "1.1.1.1"];
     health_check_timeout := 5 |}.

Definition set_state (self : t) (s : FailoverState) : t :=
  {| state := s;
     primary_interface := primary_interface self;
     backup_interfaces := backup_interfaces self;
     failed_interfaces := failed_interfaces self;
     failover_threshold := failover_threshold self;
     recovery_threshold := recovery_threshold self;
     monitoring_interval := monitoring_interval self;
     failover_timeout := failover_timeout self;
     failure_counts := failure_counts self;
     success_counts := success_counts self;
     last_check := last_check self;
     failover_events := failover_events self;
     health_check_targets := health_check_targets self;
     health_check_timeout := health_check_timeout self |}.

Definition set_primary (self : t) (p : option string) : t :=
  {| state := state self;
     primary_interface := p;
     backup_interfaces := backup_interfaces self;
     failed_interfaces := failed_interfaces self;
     failover_threshold := failover_threshold self;
     recovery_threshold := recovery_threshold self;
     monitoring_interval := monitoring_interval self;
     failover_timeout := failover_timeout self;
     failure_counts := failure_counts self;
     success_counts := success_counts self;
     last_check := last_check self;
     failover_events := failover_events self;
     health_check_targets := health_check_targets self;
     health_check_timeout := health_check_timeout self |}.

Definition set_failed (self : t) (f : gset string) : t :=
  {| state := state self;
     primary_interface := primary_interface self;
     backup_interfaces := backup_interfaces self;
     failed_interfaces := f;
     failover_threshold := failover_threshold self;
     recovery_threshold := recovery_threshold self;
     monitoring_interval := monitoring_interval self;
     failover_timeout := failover_timeout self;
     failure_counts := failure_counts self;
     success_counts := success_counts self;
     last_check := last_check self;
     failover_events := failover_events self;
     health_check_targets := health_check_targets self;
     health_check_timeout := health_check_timeout self |}.

Definition set_failure_counts (self : t) (c : gmap string nat) : t :=
  {| state := state self;
     primary_interface := primary_interface self;
     backup_interfaces := backup_interfaces self;
     failed_interfaces := failed_interfaces self;
     failover_threshold := failover_threshold self;
     recovery_threshold := recovery_threshold self;
     monitoring_interval := monitoring_interval self;
     failover_timeout := failover_timeout self;
     failure_counts := c;
     success_counts := success_counts self;
     last_check := last_check self;
     failover_events := failover_events self;
     health_check_targets := health_check_targets self;
     health_check_timeout := health_check_timeout self |}.

Definition set_success_counts (self : t) (c : gmap string nat) : t :=
  {| state := state self;
     primary_interface := primary_interface self;
     backup_interfaces := backup_interfaces self;
     failed_interfaces := failed_interfaces self;
     failover_threshold := failover_threshold self;
     recovery_threshold := recovery_threshold self;
     monitoring_interval := monitoring_interval self;
     failover_timeout := failover_timeout self;
     failure_counts := failure_counts self;
     success_counts := c;
     last_check := last_check self;
     failover_events := failover_events self;
     health_check_targets := health_check_targets self;
     health_check_timeout := health_check_timeout self |}.

Definition set_last_check (self : t) (l : gmap string Q) : t :=
  {| state := state self;
     primary_interface := primary_interface self;
     backup_interfaces := backup_interfaces self;
     failed_interfaces := failed_interfaces self;
     failover_threshold := failover_threshold self;
     recovery_threshold := recovery_threshold self;
     monitoring_interval := monitoring_interval self;
     failover_timeout := failover_timeout self;
     failure_counts := failure_counts self;
     success_counts := success_counts self;
     last_check := l;
     failover_events := failover_events self;
     health_check_targets := health_check_targets self;
     health_check_timeout := health_check_timeout self |}.

Definition set_events (self : t) (e : list FailoverEvent) : t :=
  {| state := state self;
     primary_interface := primary_interface self;
     backup_interfaces := backup_interfaces self;
     failed_interfaces := failed_interfaces self;
     failover_threshold := failover_threshold self;
     recovery_threshold := recovery_threshold self;
     monitoring_interval := monitoring_interval self;
     failover_timeout := failover_timeout self;
     failure_counts := failure_counts self;
     success_counts := success_counts self;
     last_check := last_check self;
     failover_events := e;
     health_check_targets := health_check_targets self;
     health_check_timeout := health_check_timeout self |}.

(** [_check_connection_health]; [ping interface target] is the outcome of
    [_ping_check], which turns its own exceptions into [False]. *)
Definition _check_connection_health (self : t)
    (ping : string -> string -> bool) (interface : string) : bool :=
  let success_count :=
    fold_left (fun success_count target =>
                 if ping interface target then success_count + 1
                 else success_count)
              (health_check_targets self) 0 in
  Nat.leb (length (health_check_targets self) / 2 + 1) success_count.

Definition _select_new_primary (self : t) : t :=
  let available_interfaces :=
    filter (fun iface => iface ∉ failed_interfaces self)
           (backup_interfaces self) in
  match available_interfaces with
  | first :: _ => set_primary self (Some first)
  | [] => set_primary self None
  end.

(** What a call leaves behind: it returned, or an exception escaped it.
    Either way the object keeps the mutations made so far. *)
Inductive outcome := Returned (self : t) | Raised (self : t).

Definition state_of (o : outcome) : t :=
  match o with Returned self => self | Raised self => self end.

(** [now] is the reading of [time.time()] that stamps the event.  The
    event reads [self.failure_counts[interface]]: without an entry for the
    interface this is a [KeyError], raised once the interface has joined the
    failed set. *)
Definition _failover_interface (self : t) (interface : string) (now : Q)
    : outcome :=
  if decide (interface ∈ failed_interfaces self) then Returned self
  else
    let self1 := set_failed self ({[interface]} ∪ failed_interfaces self) in
    match failure_counts self1 !! interface with
    | None => Raised self1
    | Some failure_count =>
        let event :=
          {| event_type := "connection_lost";
             interface := interface;
             timestamp := now;
             details := FailureDetails failure_count (value (state self1)) |} in
        let self2 := set_events self1 (failover_events self1 ++ [event]) in
        Returned (if decide (primary_interface self2 = Some interface)
                  then _select_new_primary self2 else self2)
    end.

Definition _recover_interface (self : t) (interface : string) (now : Q)
    : t :=
  if decide (interface ∈ failed_interfaces self) then
    let self1 := set_failed self (failed_interfaces self ∖ {[interface]}) in
    let self2 := set_failure_counts self1
                   (<[interface := 0]> (failure_counts self1)) in
    let self3 := set_success_counts self2
                   (<[interface := 0]> (success_counts self2)) in
    let event :=
      {| event_type := "connection_restored";
         interface := interface;
         timestamp := now;
         details := SuccessDetails
                      (default 0 (success_counts self3 !! interface))
                      (value (state self3)) |} in
    let self4 := set_events self3 (failover_events self3 ++ [event]) in
    _select_new_primary self4
  else self.

Definition _handle_connection_success (self : t) (interface : string)
    (now : Q) : t :=
  let self1 := set_failure_counts self
                 (<[interface := 0]> (failure_counts self)) in
  let count := default 0 (success_counts self1 !! interface) + 1 in
  let self2 := set_success_counts self1
                 (<[interface := count]> (success_counts self1)) in
  if bool_decide (interface ∈ failed_interfaces self2)
     && Nat.leb (recovery_threshold self2) count
  then _recover_interface self2 interface now
  else self2.

Definition _handle_connection_failure (self : t) (interface : string)
    (now : Q) : outcome :=
  let self1 := set_success_counts self
                 (<[interface := 0]> (success_counts self)) in
  let count := default 0 (failure_counts self1 !! interface) + 1 in
  let self2 := set_failure_counts self1
                 (<[interface := count]> (failure_counts self1)) in
  if Nat.leb (failover_threshold self2) count
  then _failover_interface self2 interface now
  else Returned self2.

(** One iteration of the loop of [check_failover_conditions]. *)
Definition check_interface (self : t) (current_time : Q)
    (ping : string -> string -> bool) (now : Q) (interface : string)
    : outcome :=
  let self1 :=
    match last_check self !! interface with
    | Some _ => self
    | None => set_last_check self (<[interface := 0%Q]> (last_check self))
    end in
  let last := default 0%Q (last_check self1 !! interface) in
  if Qle_bool (monitoring_interval self1) (current_time - last) then
    let is_healthy := _check_connection_health self1 ping interface in
    let self2 := set_last_check self1
                   (<[interface := current_time]> (last_check self1)) in
    if is_healthy
    then Returned (_handle_connection_success self2 interface now)
    else _handle_connection_failure self2 interface now
  else Returned self1.

(** The loop over [local_node.connections]; iteration [k] probes with
    [ping k] and stamps its event, if any, with [clock k].  An exception
    leaves the loop. *)
Fixpoint check_loop (self : t) (current_time : Q)
    (ping : nat -> string -> string -> bool) (clock : nat -> Q)
    (k : nat) (interfaces : list string) : outcome :=
  match interfaces with
  | [] => Returned self
  | interface :: rest =>
      match check_interface self current_time (ping k) (clock k)
                            interface with
      | Returned self1 => check_loop self1 current_time ping clock (S k) rest
      | Raised self1 => Raised self1
      end
  end.

Definition _update_system_state (self : t) (local_node : Core.LocalNode)
    : t :=
  let total_connections := Z.of_nat (length (Core.connections local_node)) in
  let failed_count := Z.of_nat (size (failed_interfaces self)) in
  let active_connections := (total_connections - failed_count)%Z in
  let new_state :=
    if (active_connections =? 0)%Z then DEGRADED
    else if (failed_count =? 0)%Z then NORMAL
    else if (active_connections =? 1)%Z then MONITORING
    else NORMAL in
  set_state self new_state.

(** [check_failover_conditions]: one monitoring tick
    ([_handle_state_transitions] only logs).  An exception out of the loop
    is caught and logged; the state update is then skipped. *)
Definition check_failover_conditions (self : t)
    (local_node : Core.LocalNode) (current_time : Q)
    (ping : nat -> string -> string -> bool) (clock : nat -> Q) : t :=
  match check_loop self current_time ping clock 0
                   (Core.connections local_node) with
  | Returned self1 => _update_system_state self1 local_node
  | Raised self1 => self1
  end.

Definition manual_failover (self : t) (from_interface to_interface : string)
    (now : Q) : bool * t :=
  let self1 := set_failed self ({[from_interface]} ∪ failed_interfaces self) in
  let self2 :=
    if decide (to_interface ∈ failed_interfaces self1)
    then set_failed self1 (failed_interfaces self1 ∖ {[to_interface]})
    else self1 in
  let self3 := set_primary self2 (Some to_interface) in
  let event :=
    {| event_type := "manual_failover";
       interface := from_interface;
       timestamp := now;
       details := ManualDetails to_interface true |} in
  (true, set_events self3 (failover_events self3 ++ [event])).

Definition set_primary_interface (self : t) (interface : string) : t :=
  set_primary self (Some interface).

Definition set_backup_interfaces (self : t) (interfaces : list string) : t :=
  {| state := state self;
     primary_interface := primary_interface self;
     backup_interfaces := interfaces;
     failed_interfaces := failed_interfaces self;
     failover_threshold := failover_threshold self;
     recovery_threshold := recovery_threshold self;
     monitoring_interval := monitoring_interval self;
     failover_timeout := failover_timeout self;
     failure_counts := failure_counts self;
     success_counts := success_counts self;
     last_check := last_check self;
     failover_events := failover_events self;
     health_check_targets := health_check_targets self;
     health_check_timeout := health_check_timeout self |}.

Definition clear_failure_history (self : t) : t :=
  set_success_counts (set_failure_counts self ∅) ∅.

(** [xs[-n:]] for a positive [n]. *)
Definition last_n {A} (n : nat) (xs : list A) : list A :=
  drop (length xs - n) xs.

Record FailoverStatus := mkFailoverStatus {
  status_state : string;
  status_primary_interface : option string;
  status_backup_interfaces : list string;
  status_failed_interfaces : list string;
  status_failure_counts : gmap string nat;
  status_success_counts : gmap string nat;
  recent_events : list FailoverEvent
}.

Definition get_failover_status (self : t) : FailoverStatus :=
  {| status_state := value (state self);
     status_primary_interface := primary_interface self;
     status_backup_interfaces := backup_interfaces self;
     status_failed_interfaces := elements (failed_interfaces self);
     status_failure_counts := failure_counts self;
     status_success_counts := success_counts self;
     recent_events := last_n 10 (failover_events self) |}.

End FailoverManager.

(* ===================================================================== *)
(** ** utils/metrics.py *)
(* ===================================================================== *)

Module MetricsCollector.

Record PerformanceMetrics := mkMetrics {
  bandwidth_up : Q;
  bandwidth_down : Q;
  latency : Q;
  jitter : Q;
  packet_loss : Q;
  timestamp : Q
}.

(** [PerformanceMetrics()]: every field at its default. *)
Definition no_metrics : PerformanceMetrics := mkMetrics 0 0 0 0 0 0.

(** Attribute access by name on a [PerformanceMetrics]; [None] is the
    [AttributeError] for a name the dataclass does not have. *)
Definition getattr (m : PerformanceMetrics) (name : string) : option Q :=
  if String.eqb name "bandwidth_up" then Some (bandwidth_up m)
  else if String.eqb name "bandwidth_down" then Some (bandwidth_down m)
  else if String.eqb name "latency" then Some (latency m)
  else if String.eqb name "jitter" then Some (jitter m)
  else if String.eqb name "packet_loss" then Some (packet_loss m)
  else if String.eqb name "timestamp" then Some (timestamp m)
  else None.

Record InterfaceMetrics := mkInterfaceMetrics {
  interface : string;
  current : PerformanceMetrics;
  history : deque PerformanceMetrics;
  averages : PerformanceMetrics;
  peaks : PerformanceMetrics
}.

Record t := mkCollector {
  interfaces : dict InterfaceMetrics;
  global_metrics : dict Q;
  history_size : nat;
  measurement_interval : nat;
  bandwidth_targets : list string;
  latency_targets : list string
}.

(** [MetricsCollector.__init__] *)
Definition __init__ : t :=
  {| interfaces := [];
     global_metrics := [];
     history_size := 100;
     measurement_interval := 5;
     bandwidth_targets := ["speed.cloudflare.com"; "proof.ovh.net"];
     latency_targets := ["8.8.8.8"; "1.1.1.1"; "208.67.222.222"] |}.

(** [statistics.mean(xs) if xs else 0] and [max(xs) if xs else 0].
    [statistics.mean] adds the values exactly, as fractions, and rounds the
    quotient once: the rational mean is the value before that rounding. *)
Definition mean_or_0 (xs : list Q) : Q :=
  match xs with
  | [] => 0%Q
  | _ => (Qsum xs / inject_Z (Z.of_nat (length xs)))%Q
  end.

Definition max_or_0 (xs : list Q) : Q :=
  match xs with
  | [] => 0%Q
  | x :: rest => py_max_by (fun y => y) x rest
  end.

(** [_update_averages_and_peaks]; [now1] and [now2] are the two readings
    of [time.time()]. *)
Definition _update_averages_and_peaks (iface_metrics : InterfaceMetrics)
    (now1 now2 : Q) : InterfaceMetrics :=
  match items (history iface_metrics) with
  | [] => iface_metrics
  | _ =>
      let bandwidths := bandwidth_up <$> items (history iface_metrics) in
      let latencies := latency <$> items (history iface_metrics) in
      let jitters := jitter <$> items (history iface_metrics) in
      let losses := packet_loss <$> items (history iface_metrics) in
      {| interface := interface iface_metrics;
         current := current iface_metrics;
         history := history iface_metrics;
         averages :=
           {| bandwidth_up := mean_or_0 bandwidths;
              bandwidth_down := mean_or_0 bandwidths;
              latency := mean_or_0 latencies;
              jitter := mean_or_0 jitters;
              packet_loss := mean_or_0 losses;
              timestamp := now1 |};
         peaks :=
           {| bandwidth_up := max_or_0 bandwidths;
              bandwidth_down := max_or_0 bandwidths;
              latency := max_or_0 latencies;
              jitter := max_or_0 jitters;
              packet_loss := max_or_0 losses;
              timestamp := now2 |} |}
  end.

(** [collect_interface_metrics], given the four measurements (they are
    taken through the platform) and the readings of the clock. *)
Definition collect_interface_metrics (self : t) (iface : string)
    (bandwidth latency jitter packet_loss : Q) (clock : nat -> Q)
    : t * InterfaceMetrics :=
  let current_metrics :=
    {| bandwidth_up := bandwidth;
       bandwidth_down := bandwidth;
       latency := latency;
       jitter := jitter;
       packet_loss := packet_loss;
       timestamp := clock 0 |} in
  let iface_metrics :=
    match dict_get (interfaces self) iface with
    | Some m => m
    | None =>
        {| interface := iface;
           current := current_metrics;
           history := deque_new (history_size self);
           averages := no_metrics;
           peaks := no_metrics |}
    end in
  let iface_metrics :=
    {| interface := interface iface_metrics;
       current := current_metrics;
       history := deque_append (history iface_metrics) current_metrics;
       averages := averages iface_metrics;
       peaks := peaks iface_metrics |} in
  let iface_metrics :=
    _update_averages_and_peaks iface_metrics (clock 1) (clock 2) in
  ({| interfaces := dict_set (interfaces self) iface iface_metrics;
      global_metrics := global_metrics self;
      history_size := history_size self;
      measurement_interval := measurement_interval self;
      bandwidth_targets := bandwidth_targets self;
      latency_targets := latency_targets self |},
   iface_metrics).

(** A block of the report: each key of the dictionary with the attribute
    the source reads for it.  An [AttributeError] aborts the block. *)
Fixpoint block (m : PerformanceMetrics) (attrs : list (string * string))
    : option (dict Q) :=
  match attrs with
  | [] => Some []
  | (key, attr) :: rest =>
      match getattr m attr with
      | None => None
      | Some v =>
          match block m rest with
          | None => None
          | Some b => Some ((key, v) :: b)
          end
      end
  end.

Definition current_attrs : list (string * string) :=
  [("bandwidth_up", "bandwidth_up"); ("bandwidth_down", "bandwidth_down");
   ("latency", "latency"); ("jitter", "jitter");
   ("packet_loss", "packet_loss")].

Definition averages_attrs : list (string * string) := current_attrs.

(** The peaks block reads [metrics.peaks.peaks] for ['packet_loss']. *)
Definition peaks_attrs : list (string * string) :=
  [("bandwidth_up", "bandwidth_up"); ("bandwidth_down", "bandwidth_down");
   ("latency", "latency"); ("jitter", "jitter");
   ("packet_loss", "peaks")].

Record InterfaceReport := mkInterfaceReport {
  report_current : dict Q;
  report_averages : dict Q;
  report_peaks : dict Q
}.

Definition interface_report (metrics : InterfaceMetrics)
    : option InterfaceReport :=
  match block (current metrics) current_attrs,
        block (averages metrics) averages_attrs,
        block (peaks metrics) peaks_attrs with
  | Some c, Some a, Some p => Some (mkInterfaceReport c a p)
  | _, _, _ => None
  end.

Fixpoint report_loop (ifaces : dict InterfaceMetrics)
    (acc : dict InterfaceReport) : option (dict InterfaceReport) :=
  match ifaces with
  | [] => Some acc
  | (iface, metrics) :: rest =>
      match interface_report metrics with
      | None => None
      | Some r => report_loop rest (dict_set acc iface r)
      end
  end.

(** The rules of [_generate_recommendations]; the texts are formatted
    strings, kept here as their rule and arguments. *)
Inductive Recommendation :=
| HighLatency (iface : string) (latency : Q)
| HighPacketLoss (iface : string) (loss : Q)
| LimitedMeshSize
| HighAverageLatency (avg_latency : Q).

Definition _generate_recommendations (self : t) : list Recommendation :=
  flat_map (fun kv =>
              (if negb (Qle_bool (latency (current (snd kv))) 100)
               then [HighLatency (fst kv) (latency (current (snd kv)))]
               else [])
              ++ (if negb (Qle_bool (packet_loss (current (snd kv))) 5)
                  then [HighPacketLoss (fst kv)
                                       (packet_loss (current (snd kv)))]
                  else []))
           (interfaces self)
  ++ (if negb (Qle_bool 2 (get0 (global_metrics self)
                                               "total_nodes"))
      then [LimitedMeshSize] else [])
  ++ (if negb (Qle_bool (get0 (global_metrics self)
                                             "average_latency") 50)
      then [HighAverageLatency
              (get0 (global_metrics self) "average_latency")]
      else []).

Record Report := mkReport {
  report_timestamp : Q;
  report_global_metrics : dict Q;
  interface_metrics : dict InterfaceReport;
  recommendations : list Recommendation
}.

(** [get_performance_report]; [None] when an exception escapes it. *)
Definition get_performance_report (self : t) (now : Q) : option Report :=
  match report_loop (interfaces self) [] with
  | None => None
  | Some blocks =>
      Some {| report_timestamp := now;
              report_global_metrics := global_metrics self;
              interface_metrics := blocks;
              recommendations := _generate_recommendations self |}
  end.

(** [_simple_bandwidth_test]: an estimate from the interface name. *)
Definition _simple_bandwidth_test (iface : string) : Q :=
  if String.prefix "eth" iface then 100
  else if String.prefix "wlan" iface || String.prefix "wifi" iface then 50
  else if String.prefix "ppp" iface || String.prefix "wwan" iface then 15
  else 10.

(** [measure_bandwidth] (the estimate raises nothing). *)
Definition measure_bandwidth (self : t) (iface : string) : Q :=
  _simple_bandwidth_test iface.

(** [measure_latency]; [ping iface target] is what [_ping_latency]
    returns: the average round trip, or [-1.0] when the probe failed. *)
Definition measure_latency (self : t) (ping : string -> string -> Q)
    (iface : string) : Q :=
  let latencies :=
    List.filter (fun latency => negb (Qle_bool latency 0))
                (ping iface <$> take 2 (latency_targets self)) in
  match latencies with
  | [] => 1000
  | _ => (Qsum latencies / inject_Z (Z.of_nat (length latencies)))%Q
  end.


End MetricsCollector.

(* ===================================================================== *)
(** ** core/mesh_manager.py: the discovery loop and the status view *)
(* ===================================================================== *)

Module MeshManager.
Import NodeDiscovery.

(** A peer record: the fields are taken from the decoded datagram as they
    are. *)
Abbreviation PeerNode := (Core.MeshNode json json).

Record t := mkManager {
  node_discovery : NodeDiscovery.t;
  link_aggregator : LinkAggregator.t;
  failover_manager : FailoverManager.t;
  metrics_collector : MetricsCollector.t;
  local_node : option Core.LocalNode;
  mesh_nodes : gmap string PeerNode;
  active_connections : gset string;
  running : bool
}.

(** [MeshManager.__init__] *)
Definition __init__ : t :=
  {| node_discovery := NodeDiscovery.__init__;
     link_aggregator := LinkAggregator.__init__;
     failover_manager := FailoverManager.__init__;
     metrics_collector := MetricsCollector.__init__;
     local_node := None;
     mesh_nodes := ∅;
     active_connections := ∅;
     running := false |}.

Definition set_mesh_nodes (self : t) (m : gmap string PeerNode) : t :=
  {| node_discovery := node_discovery self;
     link_aggregator := link_aggregator self;
     failover_manager := failover_manager self;
     metrics_collector := metrics_collector self;
     local_node := local_node self;
     mesh_nodes := m;
     active_connections := active_connections self;
     running := running self |}.

Definition touch (node : PeerNode) (now : Q) : PeerNode :=
  Core.mkMeshNode (Core.node_id node) (Core.ip_address node)
    (Core.connections node) (Core.bandwidth node) (Core.latency node)
    now (Core.data_caps node).

(** [node_data[field]] read as a string.  The records [discover_nodes]
    returns went through [_validate_node_data], which makes ['node_id'] and
    ['ip_address'] strings; on anything else the model stops the loop as
    for an exception. *)
Definition str_field (node_data : json) (field : string) : option string :=
  match node_data with
  | JObj o =>
      match dict_get o field with Some (JStr s) => Some s | _ => None end
  | _ => None
  end.

Definition field (node_data : json) (name : string) : option json :=
  match node_data with JObj o => dict_get o name | _ => None end.

(** [MeshNode(node_id=..., ..., last_seen=time.time(),
    data_caps=node_data.get('data_caps', {}))] *)
Definition new_mesh_node (node_data : json) (now : Q) : option PeerNode :=
  match str_field node_data "node_id", str_field node_data "ip_address",
        field node_data "connections", field node_data "bandwidth",
        field node_data "latency" with
  | Some id, Some ip, Some conns, Some bw, Some lat =>
      Some (Core.mkMeshNode id ip conns bw lat now
              (default (JObj []) (field node_data "data_caps")))
  | _, _, _, _, _ => None
  end.

(** The update loop of [_run_node_discovery]; iteration [k] reads the clock
    once, [clock k].  The result carries the table as mutated so far and
    whether the loop ran to its end. *)
Fixpoint update_loop (nodes : gmap string PeerNode)
    (discovered_nodes : list json) (clock : nat -> Q) (k : nat)
    : gmap string PeerNode * bool :=
  match discovered_nodes with
  | [] => (nodes, true)
  | node_data :: rest =>
      match str_field node_data "node_id" with
      | None => (nodes, false)
      | Some node_id =>
          match nodes !! node_id with
          | None =>
              match new_mesh_node node_data (clock k) with
              | None => (nodes, false)
              | Some node =>
                  update_loop (<[node_id := node]> nodes) rest clock (S k)
              end
          | Some node =>
              update_loop (<[node_id := touch node (clock k)]> nodes)
                          rest clock (S k)
          end
      end
  end.

Definition stale_threshold : Q := 60.

Definition is_stale (current_time : Q) (node : PeerNode) : bool :=
  negb (Qle_bool (current_time - Core.last_seen node) stale_threshold).

(** [_cleanup_stale_nodes]: list the stale identifiers, then delete them. *)
Definition _cleanup_stale_nodes (self : t) (current_time : Q) : t :=
  let stale_nodes :=
    (List.filter (fun kv => is_stale current_time (snd kv))
                 (map_to_list (mesh_nodes self))).*1 in
  set_mesh_nodes self
    (fold_left (fun nodes node_id => delete node_id nodes)
               stale_nodes (mesh_nodes self)).

(** One pass of the loop of [_run_node_discovery], given the datagrams
    heard by [discover_nodes].  The advertisement of the local node is an
    output and changes no state; an exception in the update loop skips the
    clean-up. *)
Definition _run_node_discovery (self : t) (responses : list response)
    (clock : nat -> Q) : t :=
  let discovered_nodes := discover_nodes (node_discovery self) responses in
  match update_loop (mesh_nodes self) discovered_nodes clock 0 with
  | (nodes, false) => set_mesh_nodes self nodes
  | (nodes, true) =>
      _cleanup_stale_nodes (set_mesh_nodes self nodes)
                           (clock (length discovered_nodes))
  end.

Record Status := mkStatus {
  status_local_node : option Core.LocalNode;
  status_mesh_nodes : gmap string PeerNode;
  status_active_connections : list string;
  total_nodes : nat;
  status_running : bool
}.

Definition get_mesh_status (self : t) : Status :=
  {| status_local_node := local_node self;
     status_mesh_nodes := mesh_nodes self;
     status_active_connections := elements (active_connections self);
     total_nodes := size (mesh_nodes self) + 1;
     status_running := running self |}.

(** The measuring loop of [_initialize_local_node]: one bandwidth, latency
    and data-cap entry per interface ([get_data_cap] answers 0 for every
    interface). *)
Fixpoint measure_interfaces (metrics : MetricsCollector.t)
    (ping : string -> string -> Q) (interfaces : list string)
    (acc : dict Q * dict Q * dict Q) : dict Q * dict Q * dict Q :=
  match interfaces with
  | [] => acc
  | interface :: rest =>
      let '(bandwidth, latency, data_caps) := acc in
      measure_interfaces metrics ping rest
        (dict_set bandwidth interface
                  (MetricsCollector.measure_bandwidth metrics interface),
         dict_set latency interface
                  (MetricsCollector.measure_latency metrics ping interface),
         dict_set data_caps interface 0%Q)
  end.

Definition set_local_node (self : t) (node : Core.LocalNode) : t :=
  {| node_discovery := node_discovery self;
     link_aggregator := link_aggregator self;
     failover_manager := failover_manager self;
     metrics_collector := metrics_collector self;
     local_node := Some node;
     mesh_nodes := mesh_nodes self;
     active_connections := active_connections self;
     running := running self |}.

(** [_initialize_local_node], given what the platform answers: the node
    identifier, the local address, the interface names and the probes; [now]
    is the clock reading. *)
Definition _initialize_local_node (self : t) (node_id ip_address : string)
    (connections : list string) (ping : string -> string -> Q) (now : Q)
    : t :=
  let '(bandwidth, latency, data_caps) :=
    measure_interfaces (metrics_collector self) ping connections
                       ([], [], []) in
  set_local_node self
    (Core.mkMeshNode node_id ip_address connections bandwidth latency now
                     data_caps).

End MeshManager.

(* ===================================================================== *)
(** * Specification vocabulary *)
(* ===================================================================== *)

Module AggregatorSpec.
Import LinkAggregator.

(** A qualifying interface: active, bandwidth > 0, latency < 1000. *)
Definition Qualifies (c : ConnInfo) : Prop :=
  active c = true ∧ (0 < bandwidth c)%Q ∧ (latency c < 1000)%Q.

Definition some_qualifies (s : t) : Prop :=
  ∃ i c, (i, c) ∈ active_connections s ∧ Qualifies c.

Definition none_qualifies (s : t) : Prop :=
  ∀ i c, (i, c) ∈ active_connections s → ¬ Qualifies c.

(** The sum of the weight map, and the tolerance of the specification. *)
Definition weight_sum (s : t) : Q := Qsum (values (connection_weights s)).

Definition within_1e6 (x y : Q) : Prop := (Qabs (x - y) <= 1 # 1000000)%Q.

(** The rounding [fl] is accurate on the exact result [x]: its relative
    error is at most [u].  A binary64 operation is accurate with
    [u = 2^-53] whenever its result neither overflows nor underflows. *)
Definition accurate (fl : Q → Q) (u x : Q) : Prop :=
  (Qabs (fl x - x) <= u * Qabs x)%Q.

(** The unit roundoff of binary64. *)
Definition u64 : Q := Qpower 2 (-53).

(** The claim on the weight map, as worded: sum 1 when an interface
    qualifies, an empty map otherwise. *)
Definition sum_one_or_empty_map : Prop :=
  ∀ s s', wf (active_connections s) → _calculate_weights s = Some s' →
    (some_qualifies s → within_1e6 (weight_sum s') 1) ∧
    (none_qualifies s → connection_weights s' = []).


(** The interface a call to [queue_packet] targets: the one the caller
    names, or the one selection returns for the payload length. *)
Definition target (s : t) (packet_data : bytes) (interface : option string)
    (r : Q) : option string :=
  match interface with
  | Some i => Some i
  | None => select_connection s (length packet_data) r
  end.

(** Every send queue belongs to a known interface and was created with room
    for [max_queue_size] payloads, as [initialize] does. *)
Definition queues_inv (s : t) : Prop :=
  ∀ i q, dict_get (packet_queues s) i = Some q →
    max_queue_size s ≤ maxlen q ∧ dict_mem (active_connections s) i = true.

Definition count_packet (c : ConnInfo) (packet_data : bytes) : ConnInfo :=
  {| bandwidth := bandwidth c;
     latency := latency c;
     data_cap := data_cap c;
     active := active c;
     packet_count := packet_count c + 1;
     bytes_sent := bytes_sent c + length packet_data |}.

(** [s'] is [s] after one payload went to the back of the queue of [i]:
    that queue grew by exactly the payload, the counters of [i] moved by one
    packet and [len(payload)] bytes, and nothing else changed. *)
Definition enqueued (s s' : t) (i : string) (packet_data : bytes) : Prop :=
  (∃ q, dict_get (packet_queues s) i = Some q
        ∧ dict_get (packet_queues s') i
          = Some (Deque (items q ++ [packet_data]) (maxlen q)))
  ∧ (∃ c, dict_get (active_connections s) i = Some c
          ∧ dict_get (active_connections s') i
            = Some (count_packet c packet_data))
  ∧ (∀ j, j ≠ i →
       dict_get (packet_queues s') j = dict_get (packet_queues s) j
       ∧ dict_get (active_connections s') j
         = dict_get (active_connections s) j)
  ∧ keys (packet_queues s') = keys (packet_queues s)
  ∧ keys (active_connections s') = keys (active_connections s)
  ∧ aggregation_mode s' = aggregation_mode s
  ∧ connection_weights s' = connection_weights s
  ∧ performance_history s' = performance_history s
  ∧ max_queue_size s' = max_queue_size s.

(** Why an enqueue is refused: no usable interface, or a full queue. *)
Definition no_interface (s : t) (tgt : option string) : Prop :=
  tgt = None ∨ tgt = Some "" ∨
  ∃ i, tgt = Some i ∧ dict_get (packet_queues s) i = None.

Definition queue_full (s : t) (tgt : option string) : Prop :=
  ∃ i q, tgt = Some i ∧ i ≠ "" ∧ dict_get (packet_queues s) i = Some q
         ∧ max_queue_size s ≤ length (items q).

(** Enqueue a list of payloads on a named interface, one call each. *)
Fixpoint enqueue_all (s : t) (interface : string) (packets : list bytes)
    : list bool * t :=
  match packets with
  | [] => ([], s)
  | p :: rest =>
      let '(ok, s1) := queue_packet s p (Some interface) 0%Q in
      let '(oks, s2) := enqueue_all s1 interface rest in
      (ok :: oks, s2)
  end.

(** Call [get_packet_from_queue] [n] times on one interface. *)
Fixpoint dequeue_n (s : t) (interface : string) (n : nat)
    : list (option bytes) * t :=
  match n with
  | 0 => ([], s)
  | S n' =>
      let '(p, s1) := get_packet_from_queue s interface in
      let '(ps, s2) := dequeue_n s1 interface n' in
      (p :: ps, s2)
  end.

(** [s'] is [s] after the payload [p] left the front of the queue of [i];
    no other queue and no counter moved. *)
Definition dequeued (s s' : t) (i : string) (p : bytes) : Prop :=
  (∃ q rest, dict_get (packet_queues s) i = Some q
             ∧ items q = p :: rest
             ∧ dict_get (packet_queues s') i = Some (Deque rest (maxlen q)))
  ∧ (∀ j, j ≠ i →
       dict_get (packet_queues s') j = dict_get (packet_queues s) j)
  ∧ keys (packet_queues s') = keys (packet_queues s)
  ∧ active_connections s' = active_connections s
  ∧ max_queue_size s' = max_queue_size s.

(** The queue of [i] is empty, or [i] has no queue at all. *)
Definition nothing_queued (s : t) (i : string) : Prop :=
  dict_get (packet_queues s) i = None
  ∨ ∃ q, dict_get (packet_queues s) i = Some q ∧ items q = [].

(** The weight selection consults: [connection_weights.get(i, 0)]. *)
Definition weight_of (s : t) (i : string) : Q := get0 (connection_weights s) i.

(** The claim on selection, per aggregation mode: a selected interface
    never has weight 0. *)
Definition never_selects_weight_zero (mode : string) : Prop :=
  ∀ s packet_size r i,
    aggregation_mode s = mode →
    select_connection s packet_size r = Some i →
    ¬ (weight_of s i == 0)%Q.

End AggregatorSpec.

Module DiscoverySpec.
Import NodeDiscovery.

(** The discovery pass keeps the datagram as a peer record. *)
Definition accepted (self : t) (resp : response) : Prop :=
  ∃ v, resp = Decoded v ∧ discover_nodes self [resp] = [v].

(** The datagram ends the pass: [json.loads] or the validation raises an
    exception the parsing loop does not catch. *)
Definition ends_pass (self : t) (resp : response) : Prop :=
  match resp with
  | BadJSON => False
  | LoadsRaises => True
  | Decoded v => _validate_node_data self v = Raises
  end.

(** None of the datagrams heard so far in the listening window ended the
    pass. *)
Definition alive (self : t) (heard : list response) : Prop :=
  ∀ resp, resp ∈ heard → ¬ ends_pass self resp.

(** The discovery pass, having heard [heard] earlier in the same listening
    window, keeps the next datagram as a peer record. *)
Definition accepted_after (self : t) (heard : list response)
    (resp : response) : Prop :=
  ∃ v, resp = Decoded v
       ∧ discover_nodes self (heard ++ [resp])
         = discover_nodes self heard ++ [v].

(** The datagram carries the group string of the local node. *)
Definition carries_group (self : t) (resp : response) : Prop :=
  ∃ o, resp = Decoded (JObj o)
       ∧ dict_get o "group" = Some (JStr (mesh_group self)).

(** The claim on the group string, as worded. *)
Definition only_group_members_accepted : Prop :=
  ∀ self resp, accepted self resp → carries_group self resp.

(** The five required fields, with the required types, and a [node_id]
    that is not the local one. *)
Definition admissible (self : t) (o : dict json) : Prop :=
  ∃ id ip conns bw lat,
    dict_get o "node_id" = Some (JStr id)
    ∧ dict_get o "ip_address" = Some (JStr ip)
    ∧ dict_get o "connections" = Some (JList conns)
    ∧ dict_get o "bandwidth" = Some (JObj bw)
    ∧ dict_get o "latency" = Some (JObj lat)
    ∧ node_id self ≠ Some id.

End DiscoverySpec.

Module FailoverSpec.
Import FailoverManager.

(** The number of successful probes of a health check. *)
Definition successes (ping : string -> string -> bool) (interface : string)
    (targets : list string) : nat :=
  length (filter (λ target, ping interface target = true) targets).

(** Events of a given type about a given interface. *)
Definition count_events (type interface : string)
    (events : list FailoverEvent) : nat :=
  length (filter (λ e, event_type e = type
                       ∧ FailoverManager.interface e = interface) events).

(** Membership changes of the failed set between two states. *)
Definition entered (old new : gset string) (i : string) : Prop :=
  (i ∉ old) ∧ (i ∈ new).

Definition recovered (old new : gset string) (i : string) : Prop :=
  i ∈ old ∧ i ∉ new.

#[global] Instance entered_dec old new i : Decision (entered old new i).
Proof. unfold entered. apply _. Defined.

#[global] Instance recovered_dec old new i : Decision (recovered old new i).
Proof. unfold recovered. apply _. Defined.

Definition one_if (P : Prop) `{Decision P} : nat :=
  if bool_decide P then 1 else 0.

End FailoverSpec.

Module MeshSpec.
Import NodeDiscovery MeshManager.

(** The peers named by a record the discovery pass of the tick returned. *)
Definition recorded (self : t) (responses : list response)
    (id : string) : Prop :=
  ∃ v, v ∈ discover_nodes (node_discovery self) responses
       ∧ str_field v "node_id" = Some id.

(** The peer advertised itself during the tick: the window holds the
    datagram [advertise_node] puts on the wire for a node record with this
    identifier. *)
Definition readvertised (responses : list response) (id : string) : Prop :=
  ∃ sender node timestamp,
    Decoded (advertise_node sender node timestamp) ∈ responses
    ∧ Core.node_id node = id.

(** A datagram this program sends: an advertisement or a discovery
    request. *)
Definition emitted (resp : response) : Prop :=
  (∃ sender node timestamp,
     resp = Decoded (advertise_node sender node timestamp))
  ∨ (∃ sender timestamp,
       resp = Decoded (_send_discovery_broadcast sender timestamp)).

(** [last_seen] is more than 60 seconds before [now]. *)
Definition older_than_ttl (now : Q) (node : PeerNode) : Prop :=
  (60 < now - Core.last_seen node)%Q.

(** What the status view shows for a peer identifier. *)
Definition observable (self : t) (id : string) : option PeerNode :=
  status_mesh_nodes (get_mesh_status self) !! id.

End MeshSpec.

(* ===================================================================== *)
(** * Further vocabulary *)
(* ===================================================================== *)

Module AggregatorOps.
Import LinkAggregator.

(** The calls a user of the aggregator makes once it is initialised. *)
Inductive op :=
| Enqueue (packet_data : bytes) (interface : option string) (r : Q)
| Dequeue (interface : string)
| Optimize (local_node : Core.LocalNode)
| Monitor.

Definition step (s : t) (o : op) : t :=
  match o with
  | Enqueue packet_data interface r =>
      snd (queue_packet s packet_data interface r)
  | Dequeue interface => snd (get_packet_from_queue s interface)
  | Optimize local_node => optimize_aggregation s local_node
  | Monitor => monitor_connections s
  end.

Definition run (s : t) (ops : list op) : t := fold_left step ops s.

(** No send queue holds more than [max_queue_size] payloads. *)
Definition queues_bounded (s : t) : Prop :=
  ∀ i q, dict_get (packet_queues s) i = Some q →
         length (items q) ≤ max_queue_size s.

(** No performance history is longer than the window. *)
Definition histories_bounded (s : t) : Prop :=
  ∀ i h, dict_get (performance_history s) i = Some h →
         length h ≤ performance_window s.

Definition total_bytes (packets : list bytes) : nat :=
  foldr (λ p n, length p + n) 0 packets.

(** The entry [initialize] creates for an interface, and the entry
    [_update_connection_status] leaves for it. *)
Definition fresh_info (local_node : Core.LocalNode) (i : string) : ConnInfo :=
  {| bandwidth := get0 (Core.bandwidth local_node) i;
     latency := get0 (Core.latency local_node) i;
     data_cap := get0 (Core.data_caps local_node) i;
     active := true;
     packet_count := 0;
     bytes_sent := 0 |}.

Definition refreshed_info (local_node : Core.LocalNode) (i : string)
    (c : ConnInfo) : ConnInfo :=
  {| bandwidth := get0 (Core.bandwidth local_node) i;
     latency := get0 (Core.latency local_node) i;
     data_cap := get0 (Core.data_caps local_node) i;
     active := active c;
     packet_count := packet_count c;
     bytes_sent := bytes_sent c |}.

(** The candidates of weighted selection. *)
Definition candidate (s : t) (i : string) : Prop :=
  ∃ c, (i, c) ∈ active_connections s ∧ active c = true
       ∧ (0 < get0 (connection_weights s) i)%Q.

End AggregatorOps.

Module DiscoveryExtra.
Import NodeDiscovery.

(** JSON [null], booleans and numbers. *)
Definition scalar (v : json) : Prop :=
  match v with
  | JNull | JBool _ | JNum _ => True
  | _ => False
  end.

(** The decoded datagrams that pass the validation, in arrival order. *)
Definition valid_records (self : t) (responses : list response)
    : list json :=
  omap (λ resp,
          match resp with
          | BadJSON | LoadsRaises => None
          | Decoded v =>
              match _validate_node_data self v with
              | Valid => Some v
              | _ => None
              end
          end) responses.

End DiscoveryExtra.

Module FailoverExtra.
Import FailoverManager.

Definition failures_of (self : t) (i : string) : nat :=
  default 0 (failure_counts self !! i).

Definition successes_of (self : t) (i : string) : nat :=
  default 0 (success_counts self !! i).

(** The two hysteresis counters of an interface are never both positive. *)
Definition counters_exclusive (self : t) : Prop :=
  ∀ i, failures_of self i = 0 ∨ successes_of self i = 0.

(** [k] unhealthy checks of the interface in a row. *)
Fixpoint consecutive_failures (self : t) (i : string) (clock : nat -> Q)
    (k : nat) : t :=
  match k with
  | 0 => self
  | S k' =>
      consecutive_failures
        (state_of (_handle_connection_failure self i (clock k')))
        i clock k'
  end.

(** [k] healthy checks of the interface in a row. *)
Fixpoint consecutive_successes (self : t) (i : string) (clock : nat -> Q)
    (k : nat) : t :=
  match k with
  | 0 => self
  | S k' =>
      consecutive_successes (_handle_connection_success self i (clock k'))
                            i clock k'
  end.

End FailoverExtra.

Module MetricsExtra.
Import MetricsCollector.

(** The round trips of the probes that succeeded, among the first two
    latency targets. *)
Definition successful_probes (self : t) (ping : string -> string -> Q)
    (iface : string) : list Q :=
  List.filter (fun latency => negb (Qle_bool latency 0))
              (ping iface <$> take 2 (latency_targets self)).


(** For the field [f], the stored peak is attained in the history and
    bounds every sample, and the stored average does not exceed it. *)
Definition summarises (f : PerformanceMetrics -> Q) (m : InterfaceMetrics)
    : Prop :=
  (∀ sample, sample ∈ items (history m) → (f sample <= f (peaks m))%Q)
  ∧ (∃ sample, sample ∈ items (history m) ∧ f (peaks m) = f sample)
  ∧ (f (averages m) <= f (peaks m))%Q.

(** No history holds more samples than its deque allows. *)
Definition histories_within_maxlen (self : t) : Prop :=
  ∀ i m, dict_get (interfaces self) i = Some m →
         length (items (history m)) ≤ maxlen (history m).

End MetricsExtra.

(* ===================================================================== *)
(** * Concrete inputs *)
(* ===================================================================== *)

Module Examples.
Import LinkAggregator.

(** The node of the test fixture: three interfaces, all measured. *)
Definition sample_node : Core.LocalNode :=
  Core.mkMeshNode "test-node" "192.168.1.100"
    ["eth0"; "wlan0"; "ppp0"]
    [("eth0", 100%Q); ("wlan0", 50%Q); ("ppp0", 15%Q)]
    [("eth0", 10%Q); ("wlan0", 25%Q); ("ppp0", 45%Q)]
    1234567890%Q
    [("eth0", 0%Q); ("wlan0", 0%Q); ("ppp0", 100%Q)].

(** The aggregator right after the loop of [initialize] on that node. *)
Definition sample_connections : t :=
  initialize_loop __init__ sample_node (Core.connections sample_node).

Definition sample_aggregator : t := state_of (initialize __init__ sample_node).

(** A node whose only interface answered no latency probe: the metrics
    collector reports the sentinel 1000 ms. *)
Definition unreachable_node : Core.LocalNode :=
  Core.mkMeshNode "test-node" "192.168.1.100"
    ["eth0"] [("eth0", 100%Q)] [("eth0", 1000%Q)] 0%Q [("eth0", 0%Q)].

Definition unreachable_connections : t :=
  initialize_loop __init__ unreachable_node (Core.connections unreachable_node).

Definition unreachable_aggregator : t :=
  state_of (initialize __init__ unreachable_node).

(** [b"test packet data"] *)
Definition test_packet : bytes := String.list_byte_of_string "test packet data".

(** [b"packet1"], [b"packet2"] *)
Definition two_packets : list bytes :=
  [String.list_byte_of_string "packet1"; String.list_byte_of_string "packet2"].

(** The peer record of the discovery tests: the five fields, no group. *)
Definition peer_001 : NodeDiscovery.json :=
  NodeDiscovery.JObj
    [("node_id", NodeDiscovery.JStr "peer-001");
     ("ip_address", NodeDiscovery.JStr "192.168.1.101");
     ("connections", NodeDiscovery.JList [NodeDiscovery.JStr "eth0"]);
     ("bandwidth", NodeDiscovery.JObj [("eth0", NodeDiscovery.JNum 100)]);
     ("latency", NodeDiscovery.JObj [("eth0", NodeDiscovery.JNum 10)])].

(** A receiver whose own identifier is set. *)
Definition receiver : NodeDiscovery.t :=
  NodeDiscovery.mkDiscovery (Some "local-001") (Some "192.168.1.100")
    (Some "aa:bb:cc:dd:ee:ff") 9999 "255.255.255.255" "MESH_NETWORK_GROUP".

(** The sending peer and its node record. *)
Definition sender : NodeDiscovery.t :=
  NodeDiscovery.mkDiscovery (Some "peer-001") (Some "192.168.1.101")
    (Some "11:22:33:44:55:66") 9999 "255.255.255.255" "MESH_NETWORK_GROUP".

Definition peer_node : Core.LocalNode :=
  Core.mkMeshNode "peer-001" "192.168.1.101"
    ["eth0"] [("eth0", 100%Q)] [("eth0", 10%Q)] 0%Q [("eth0", 0%Q)].

(** Failover hysteresis: every probe bound to [eth0] fails, the others
    succeed; ticks at 100 s, 110 s and 120 s. *)
Definition eth0_down (k : nat) (interface target : string) : bool :=
  negb (String.eqb interface "eth0").

Definition failover_tick (now : Q) (fm : FailoverManager.t)
    : FailoverManager.t :=
  FailoverManager.check_failover_conditions fm sample_node now eth0_down
                                            (fun _ => now).

Definition after_two_failures : FailoverManager.t :=
  failover_tick 110 (failover_tick 100 FailoverManager.__init__).

Definition after_three_failures : FailoverManager.t :=
  failover_tick 120 after_two_failures.

(** A collector that measured [eth0] once: 100 Mbps, 10 ms latency, 1 ms
    jitter, 2 % loss. *)
Definition one_sample : MetricsCollector.t :=
  fst (MetricsCollector.collect_interface_metrics
         MetricsCollector.__init__ "eth0" 100 10 1 2 (fun _ => 1000%Q)).

(** Peer eviction: at time 1000 the table holds a peer last seen at 880
    and a peer last seen at 990; the advertisement of [peer_001] is heard
    during the tick. *)
Definition peer_seen_at (id : string) (last_seen : Q) : MeshManager.PeerNode :=
  Core.mkMeshNode id "192.168.1.102"
    (NodeDiscovery.JList [NodeDiscovery.JStr "eth0"])
    (NodeDiscovery.JObj [("eth0", NodeDiscovery.JNum 25)])
    (NodeDiscovery.JObj [("eth0", NodeDiscovery.JNum 50)])
    last_seen
    (NodeDiscovery.JObj [("eth0", NodeDiscovery.JNum 0)]).

Definition two_peers : MeshManager.t :=
  MeshManager.set_mesh_nodes MeshManager.__init__
    (<["stale-node" := peer_seen_at "stale-node" 880]>
       (<["fresh-node" := peer_seen_at "fresh-node" 990]> ∅)).

Definition heard : list NodeDiscovery.response :=
  [NodeDiscovery.BadJSON; NodeDiscovery.Decoded peer_001].

Definition at_1000 (k : nat) : Q := 1000.

(** The node records of the two known peers, and what is heard when both
    advertise themselves during the tick. *)
Definition stale_node : Core.LocalNode :=
  Core.mkMeshNode "stale-node" "192.168.1.102"
    ["eth0"] [("eth0", 25%Q)] [("eth0", 50%Q)] 0%Q [("eth0", 0%Q)].

Definition fresh_node : Core.LocalNode :=
  Core.mkMeshNode "fresh-node" "192.168.1.102"
    ["eth0"] [("eth0", 25%Q)] [("eth0", 50%Q)] 0%Q [("eth0", 0%Q)].

Definition advertisements : list NodeDiscovery.response :=
  [NodeDiscovery.Decoded
     (NodeDiscovery.advertise_node NodeDiscovery.__init__ stale_node 999);
   NodeDiscovery.Decoded
     (NodeDiscovery.advertise_node NodeDiscovery.__init__ fresh_node 999)].

(** A short session on the sample aggregator. *)
Definition session : list AggregatorOps.op :=
  [AggregatorOps.Enqueue test_packet (Some "eth0") 0%Q;
   AggregatorOps.Monitor;
   AggregatorOps.Enqueue test_packet None (1 # 2)%Q;
   AggregatorOps.Optimize sample_node;
   AggregatorOps.Dequeue "eth0"].

(** An advertisement for [fresh-node] with other figures than recorded. *)
Definition readvertised_fresh : NodeDiscovery.json :=
  NodeDiscovery.JObj
    [("node_id", NodeDiscovery.JStr "fresh-node");
     ("ip_address", NodeDiscovery.JStr "10.0.0.9");
     ("connections", NodeDiscovery.JList [NodeDiscovery.JStr "wlan0"]);
     ("bandwidth", NodeDiscovery.JObj [("wlan0", NodeDiscovery.JNum 5)]);
     ("latency", NodeDiscovery.JObj [("wlan0", NodeDiscovery.JNum 300)])].

(** A manager whose discovery component knows its identifier. *)
Definition receiving_manager : MeshManager.t :=
  MeshManager.mkManager receiver LinkAggregator.__init__
    FailoverManager.__init__ MetricsCollector.__init__ None ∅ ∅ true.

End Examples.
(* ===================================================================== *)
(** * Properties *)
(* ===================================================================== *)

(** ** Dictionaries *)

Section DictFacts.
Context {V : Type}.
Implicit Types (d : dict V) (k : string) (v : V).

Lemma dict_get_nil k : dict_get ([] : dict V) k = None.
Proof. reflexivity. Qed.

Lemma dict_get_cons k k' v d :
  dict_get ((k', v) :: d) k = if String.eqb k' k then Some v else dict_get d k.
Proof. unfold dict_get; simpl. destruct (String.eqb k' k); reflexivity. Qed.

Lemma dict_get_None d k : dict_get d k = None ↔ k ∉ keys d.
Proof.
  induction d as [|[k' v'] d IH]; simpl.
  - split; [intros _; apply not_elem_of_nil | reflexivity].
  - rewrite dict_get_cons. unfold keys in *. simpl.
    rewrite not_elem_of_cons.
    destruct (String.eqb_spec k' k) as [->|Hne].
    + split; [discriminate | intros [? _]; congruence].
    + rewrite IH. split; [intros; split; congruence | tauto].
Qed.

Lemma dict_get_Some_elem d k v : dict_get d k = Some v → (k, v) ∈ d.
Proof.
  induction d as [|[k' v'] d IH]; [discriminate|].
  rewrite dict_get_cons. destruct (String.eqb_spec k' k) as [->|Hne].
  - intros [= ->]. apply list_elem_of_here.
  - intros H. apply list_elem_of_further, IH, H.
Qed.

Lemma dict_get_elem d k v : wf d → (k, v) ∈ d → dict_get d k = Some v.
Proof.
  unfold wf, keys. induction d as [|[k' v'] d IH]; simpl.
  - intros _ H. by apply not_elem_of_nil in H.
  - intros Hnd Hin. apply NoDup_cons in Hnd as [Hk' Hnd].
    rewrite dict_get_cons. apply elem_of_cons in Hin as [[= -> ->]|Hin].
    + by rewrite String.eqb_refl.
    + destruct (String.eqb_spec k' k) as [->|Hne]; [|by apply IH].
      exfalso. apply Hk'. apply list_elem_of_fmap. by exists (k, v).
Qed.

Lemma dict_set_fresh d k v : k ∉ keys d → dict_set d k v = d ++ [(k, v)].
Proof.
  unfold keys. induction d as [|[k' v'] d IH]; simpl; [done|].
  rewrite not_elem_of_cons. intros [Hne Hk].
  destruct (String.eqb_spec k' k) as [->|_]; [congruence|].
  by rewrite IH.
Qed.

Lemma keys_dict_set_present d k v :
  k ∈ keys d → keys (dict_set d k v) = keys d.
Proof.
  unfold keys. induction d as [|[k' v'] d IH]; simpl.
  - intros H. by apply not_elem_of_nil in H.
  - intros H. destruct (String.eqb_spec k' k) as [->|Hne]; [done|].
    simpl. f_equal. apply IH. apply elem_of_cons in H as [?|?]; [congruence|done].
Qed.

Lemma keys_dict_set_elem d k k' v :
  k' ∈ keys (dict_set d k v) ↔ k' = k ∨ k' ∈ keys d.
Proof.
  unfold keys. induction d as [|[k0 v0] d IH]; simpl.
  - rewrite list_elem_of_singleton. split; [tauto|].
    intros [?|H]; [done|]. by apply not_elem_of_nil in H.
  - destruct (String.eqb_spec k0 k) as [->|Hne]; simpl.
    + rewrite elem_of_cons. tauto.
    + rewrite !elem_of_cons, IH. tauto.
Qed.

Lemma wf_dict_set d k v : wf d → wf (dict_set d k v).
Proof.
  unfold wf, keys. induction d as [|[k' v'] d IH]; simpl.
  - intros _. apply NoDup_singleton.
  - intros Hnd. apply NoDup_cons in Hnd as [Hk' Hnd].
    destruct (String.eqb_spec k' k) as [->|Hne]; simpl.
    + by apply NoDup_cons.
    + apply NoDup_cons. split; [|by apply IH].
      intros H. apply (keys_dict_set_elem d k k' v) in H as [?|?];
        [congruence | by apply Hk'].
Qed.

Lemma dict_get_set_eq d k v : dict_get (dict_set d k v) k = Some v.
Proof.
  induction d as [|[k' v'] d IH]; simpl.
  - by rewrite dict_get_cons, String.eqb_refl.
  - destruct (String.eqb_spec k' k) as [->|Hne].
    + by rewrite dict_get_cons, String.eqb_refl.
    + rewrite dict_get_cons. by destruct (String.eqb_spec k' k).
Qed.

Lemma dict_get_set_ne d k k' v :
  k' ≠ k → dict_get (dict_set d k v) k' = dict_get d k'.
Proof.
  intros Hne. induction d as [|[k0 v0] d IH]; simpl.
  - rewrite dict_get_cons. by destruct (String.eqb_spec k k').
  - destruct (String.eqb_spec k0 k) as [->|Hne0].
    + rewrite !dict_get_cons. by destruct (String.eqb_spec k k').
    + rewrite !dict_get_cons. by rewrite IH.
Qed.

End DictFacts.

(** Case analysis on membership in an explicit list. *)
Ltac elem_cases H :=
  repeat (apply elem_of_cons in H as [H|H]; [inversion H; clear H; subst|]);
  try (by apply not_elem_of_nil in H).


(** ** Failover manager: the monitoring tick never raises *)

Section FailoverReturns.
Import FailoverManager.

(** With a failure count on record, [_failover_interface] returns. *)
Lemma failover_interface_returns s i now :
  is_Some (failure_counts s !! i) →
  _failover_interface s i now
  = Returned (state_of (_failover_interface s i now)).
Proof.
  intros [n Hn]. unfold _failover_interface.
  destruct (decide (i ∈ failed_interfaces s)); [done|].
  cbv zeta. simpl. by rewrite Hn.
Qed.

(** What it leaves when it takes the interface out. *)
Lemma failover_interface_state s i now n :
  failure_counts s !! i = Some n → i ∉ failed_interfaces s →
  state_of (_failover_interface s i now)
  = let s1 := set_failed s ({[i]} ∪ failed_interfaces s) in
    let s2 := set_events s1
                (failover_events s1
                 ++ [mkEvent "connection_lost" i now
                             (FailureDetails n (value (state s1)))]) in
    if decide (primary_interface s2 = Some i)
    then _select_new_primary s2 else s2.
Proof.
  intros Hn Hout. unfold _failover_interface.
  destruct (decide (i ∈ failed_interfaces s)); [done|].
  cbv zeta. simpl. by rewrite Hn.
Qed.

Lemma failover_interface_failed s i now :
  i ∈ failed_interfaces s → _failover_interface s i now = Returned s.
Proof.
  intros Hin. unfold _failover_interface.
  by destruct (decide (i ∈ failed_interfaces s)).
Qed.

(** [_handle_connection_failure] stores the count before it calls
    [_failover_interface]: it returns. *)
Lemma handle_connection_failure_returns s i now :
  _handle_connection_failure s i now
  = Returned (state_of (_handle_connection_failure s i now)).
Proof.
  unfold _handle_connection_failure. cbv zeta.
  destruct (Nat.leb _ _); [|done].
  apply failover_interface_returns. simpl.
  rewrite lookup_insert_eq. by eexists.
Qed.

Lemma check_interface_returns s current_time ping now i :
  check_interface s current_time ping now i
  = Returned (state_of (check_interface s current_time ping now i)).
Proof.
  unfold check_interface. cbv zeta.
  destruct (Qle_bool _ _); [|done].
  destruct (_check_connection_health _ _ _); [done|].
  apply handle_connection_failure_returns.
Qed.

Lemma check_loop_cons s current_time ping clock k i rest :
  check_loop s current_time ping clock k (i :: rest)
  = check_loop (state_of (check_interface s current_time (ping k) (clock k) i))
               current_time ping clock (S k) rest.
Proof. simpl. by rewrite check_interface_returns. Qed.

Lemma check_loop_returns current_time ping clock interfaces : ∀ s k,
  check_loop s current_time ping clock k interfaces
  = Returned (state_of (check_loop s current_time ping clock k interfaces)).
Proof.
  induction interfaces as [|i rest IH]; intros s k; [done|].
  rewrite check_loop_cons. apply IH.
Qed.

(** The tick therefore always reaches the state update. *)
Lemma check_failover_conditions_returns self local_node current_time ping
    clock :
  check_failover_conditions self local_node current_time ping clock
  = _update_system_state
      (state_of (check_loop self current_time ping clock 0
                            (Core.connections local_node)))
      local_node.
Proof.
  unfold check_failover_conditions. by rewrite check_loop_returns.
Qed.

End FailoverReturns.

(** ** Link aggregator: weights *)

Section Weights.
Import LinkAggregator AggregatorSpec.
Local Open Scope Q_scope.

Lemma qualifies_spec c : qualifies c = true ↔ Qualifies c.
Proof.
  unfold qualifies, Qualifies. split.
  - intros H. apply andb_true_iff in H as [H Hl].
    apply andb_true_iff in H as [Ha Hb]. apply negb_true_iff in Hb, Hl.
    split; [done|].
    split; apply Qnot_le_lt; intros Hle; apply Qle_bool_iff in Hle; congruence.
  - intros (Ha & Hb & Hl). rewrite Ha. simpl.
    apply andb_true_iff; split; apply negb_true_iff, not_true_iff_false;
      intros H; apply Qle_bool_iff in H.
    + exact (Qlt_not_le _ _ Hb H).
    + exact (Qlt_not_le _ _ Hl H).
Qed.

Lemma qualifies_false c : qualifies c = false ↔ ¬ Qualifies c.
Proof. rewrite <- qualifies_spec. by destruct (qualifies c). Qed.


Lemma Qsum_app l1 l2 : Qsum (l1 ++ l2) == Qsum l1 + Qsum l2.
Proof.
  induction l1 as [|x l1 IH]; simpl.
  - by rewrite Qplus_0_l.
  - rewrite IH. apply Qplus_assoc.
Qed.











Lemma dict_get_fmap_entry {A B} (f : A → B) (d : dict A) k :
  dict_get ((λ kv, (kv.1, f kv.2)) <$> d) k = f <$> dict_get d k.
Proof.
  induction d as [|[k' v] d IH]; [reflexivity|].
  rewrite fmap_cons. simpl. rewrite !dict_get_cons.
  by destruct (String.eqb k' k).
Qed.



(** Both callers store the map computed by [_calculate_weights]: at
    initialisation on the state left by the set-up loop, on an optimisation
    tick on the state refreshed from the local node. *)
Lemma initialize_weights s local_node s' :
  initialize s local_node = Returned s' →
  ∃ s2, _calculate_weights
          (initialize_loop s local_node (Core.connections local_node))
        = Some s2
        ∧ connection_weights s' = connection_weights s2.
Proof.
  unfold initialize. destruct (_calculate_weights _) as [s2|]; [|done].
  intros [= <-]. by exists s2.
Qed.

Lemma optimize_aggregation_weights s local_node s2 :
  _calculate_weights (_update_connection_status s local_node) = Some s2 →
  connection_weights (optimize_aggregation s local_node)
  = connection_weights s2.
Proof.
  intros H. unfold optimize_aggregation, _adjust_aggregation_mode.
  rewrite H. by destruct (length _) as [|[|n]].
Qed.

(** *** Exact and rounded arithmetic

    With the identity for the rounding, the rounded computation is the
    exact one; and whatever the rounding, it raises on the same states and
    differs from the exact one in the values of the weights only. *)
Lemma weights_loop_fl_exact conns : ∀ total weights,
  weights_loop_fl (λ x, x) conns total weights
  = weights_loop conns total weights.
Proof.
  induction conns as [|[i c] conns IH]; intros total weights; [done|].
  simpl. by rewrite !IH.
Qed.

Lemma calculate_weights_fl_exact s :
  _calculate_weights_fl (λ x, x) s = _calculate_weights s.
Proof.
  unfold _calculate_weights_fl, _calculate_weights.
  by rewrite weights_loop_fl_exact.
Qed.

Lemma weights_loop_fl_raises fl conns : ∀ total weights total' weights',
  weights_loop_fl fl conns total weights = None
  ↔ weights_loop conns total' weights' = None.
Proof.
  induction conns as [|[i c] conns IH]; intros total weights total' weights';
    [done|].
  simpl. destruct (negb (active c)); [apply IH|].
  destruct (_ || _); [apply IH|].
  destruct (Qeq_bool (latency c) 0); [done | apply IH].
Qed.

Lemma calculate_weights_fl_raises fl s :
  _calculate_weights_fl fl s = None ↔ _calculate_weights s = None.
Proof.
  unfold _calculate_weights_fl, _calculate_weights.
  pose proof (weights_loop_fl_raises fl (active_connections s) 0 [] 0 [])
    as Hiff.
  destruct (weights_loop_fl fl _ _ _) as [[T W]|],
           (weights_loop _ _ _) as [[T' W']|]; try done.
  - pose proof (proj2 Hiff eq_refl) as H. discriminate H.
  - pose proof (proj1 Hiff eq_refl) as H. discriminate H.
Qed.

(** *** Rounded arithmetic *)

Lemma step_bounds u k s r t t' :
  0 <= u → u <= 1 # 2 → 0 <= k → 0 <= s → 0 <= r →
  (k + 1) * u <= 1 # 2 →
  (1 - k * u) * s <= t → t <= (1 + 2 * k * u) * s →
  (1 - u) * (t + r) <= t' → t' <= (1 + u) * (t + r) →
  (1 - (k + 1) * u) * (s + r) <= t'
  ∧ t' <= (1 + 2 * (k + 1) * u) * (s + r).
Proof.
  intros Hu Hu2 Hk Hs Hr Hb Hl Hh Hl' Hh'.
  assert (Hku : 0 <= k * u) by nra.
  assert (Hkur : 0 <= k * u * r) by nra.
  assert (Hsr : 0 <= s + r) by lra.
  assert (H1 : (1 - k * u) * (s + r) <= t + r) by nra.
  assert (H1' : t + r <= (1 + 2 * k * u) * (s + r)) by nra.
  assert (Hku1 : k * u <= 1 # 2) by nra.
  assert (H2 : (1 - u) * ((1 - k * u) * (s + r)) <= (1 - u) * (t + r)).
  { apply Qmult_le_l; [lra | exact H1]. }
  assert (H2' : (1 + u) * (t + r) <= (1 + u) * ((1 + 2 * k * u) * (s + r))).
  { apply Qmult_le_l; [lra | exact H1']. }
  assert (Hkuu : 0 <= k * u * u) by nra.
  assert (Hx : 0 <= k * u * u * (s + r)) by nra.
  assert (Hy : 0 <= u * (1 - 2 * (k * u)) * (s + r)).
  { apply Qmult_le_0_compat; [|lra]. apply Qmult_le_0_compat; lra. }
  split.
  - apply Qle_trans with ((1 - u) * (t + r)); [|lra].
    apply Qle_trans with ((1 - u) * ((1 - k * u) * (s + r))); [|lra].
    nra.
  - apply Qle_trans with ((1 + u) * (t + r)); [lra|].
    apply Qle_trans with ((1 + u) * ((1 + 2 * k * u) * (s + r))); [lra|].
    nra.
Qed.

Lemma skip_bounds u k s t :
  0 <= u → 0 <= k → 0 <= s →
  (1 - k * u) * s <= t → t <= (1 + 2 * k * u) * s →
  (1 - (k + 1) * u) * (s + 0) <= t ∧ t <= (1 + 2 * (k + 1) * u) * (s + 0).
Proof. intros. assert (0 <= u * s) by nra. split; nra. Qed.

Lemma quotient_upper a q S T : 0 < T → q * T == S → a * S <= T → a * q <= 1.
Proof. intros. nra. Qed.

Lemma quotient_lower b q S T : 0 < T → q * T == S → T <= b * S → 1 <= b * q.
Proof. intros. nra. Qed.

Lemma sum_upper u q n :
  0 <= u → 0 <= n → 0 <= q → (n + 1) * u <= 1 # 2000000 →
  (1 - n * u) * q <= 1 → (1 + u) * q <= 1 + (1 # 1000000).
Proof. intros. nra. Qed.

Lemma sum_lower u q n :
  0 <= u → 0 <= n → 0 <= q → (n + 1) * u <= 1 # 2000000 →
  1 <= (1 + 2 * n * u) * q → 1 - (1 # 1000000) <= (1 - u) * q.
Proof. intros. nra. Qed.

Lemma inject_length_nonneg {A} (l : list A) :
  0 <= inject_Z (Z.of_nat (length l)).
Proof. change 0 with (inject_Z 0). rewrite <- Zle_Qle. lia. Qed.

Lemma inject_length_succ {A} (x : A) l :
  inject_Z (Z.of_nat (length (x :: l)))
  == inject_Z (Z.of_nat (length l)) + 1.
Proof.
  simpl length. rewrite Nat2Z.inj_succ, <- Z.add_1_r, inject_Z_plus.
  reflexivity.
Qed.

Section RoundedWeights.
Variable fl : Q → Q.
Variable u : Q.
Hypothesis u_nonneg : 0 <= u.
Hypothesis u_half : u <= 1 # 2.

(** An accurate rounding of a non-negative result. *)
Lemma accurate_bounds x :
  0 <= x → accurate fl u x → (1 - u) * x <= fl x ∧ fl x <= (1 + u) * x.
Proof using u_nonneg u_half.
  unfold accurate. intros Hx H. rewrite (Qabs_pos x Hx) in H.
  apply Qabs_Qle_condition in H as [H1 H2]. split; nra.
Qed.

Lemma accurate_pos x : 0 < x → accurate fl u x → 0 < fl x.
Proof using u_nonneg u_half.
  intros Hx H. destruct (accurate_bounds x (Qlt_le_weak _ _ Hx) H) as [H1 _].
  nra.
Qed.

(** An accurate rounding of zero is zero. *)
Lemma accurate_zero x : x == 0 → accurate fl u x → fl x == 0.
Proof using u_nonneg u_half.
  unfold accurate. intros Hx H.
  assert (Ha : Qabs x == 0) by (rewrite Hx; reflexivity).
  assert (H0 : Qabs (fl x - x) <= 0).
  { eapply Qle_trans; [exact H|]. rewrite Ha. lra. }
  apply Qabs_Qle_condition in H0 as [H1 H2]. lra.
Qed.

(** The entry of an interface before normalisation. *)
Definition entry_fl (kv : string * ConnInfo) : string * Q :=
  (kv.1, if qualifies kv.2 then raw_weight_fl fl kv.2 else 0).

Lemma raw_weight_fl_pos c :
  0 < bandwidth c →
  Forall (accurate fl u) (raw_weight_roundings fl c) →
  0 < raw_weight_fl fl c.
Proof using u_nonneg u_half.
  intros Hb Hacc. unfold raw_weight_roundings in Hacc.
  apply Forall_cons in Hacc as [Hbw Hacc].
  apply Forall_cons in Hacc as [Htenth Hacc].
  apply Forall_cons in Hacc as [_ Hacc].
  apply Forall_cons in Hacc as [Hprod _].
  unfold raw_weight_fl. cbv zeta.
  apply accurate_pos; [|exact Hprod].
  apply Qmult_lt_0_compat.
  - apply accurate_pos; [|exact Hbw].
    apply Qlt_shift_div_l; [reflexivity|]. by rewrite Qmult_0_l.
  - eapply Qlt_le_trans; [|apply Q.le_max_l].
    apply accurate_pos; [reflexivity | exact Htenth].
Qed.

Lemma weights_loop_fl_step i c conns total weights :
  weights_loop_fl fl ((i, c) :: conns) total weights
  = if qualifies c then
      if Qeq_bool (latency c) 0 then None
      else weights_loop_fl fl conns (fl (total + raw_weight_fl fl c))
                           (dict_set weights i (raw_weight_fl fl c))
    else weights_loop_fl fl conns total (dict_set weights i 0).
Proof.
  simpl. unfold qualifies.
  destruct (active c); simpl; [|done].
  destruct (Qle_bool (bandwidth c) 0); simpl; [done|].
  by destruct (Qle_bool 1000 (latency c)).
Qed.

Lemma loop_roundings_step i c conns total :
  loop_roundings fl ((i, c) :: conns) total
  = if qualifies c then
      raw_weight_roundings fl c
      ++ (total + raw_weight_fl fl c)
         :: loop_roundings fl conns (fl (total + raw_weight_fl fl c))
    else loop_roundings fl conns total.
Proof. reflexivity. Qed.

(** The loop builds the entry of every interface, in order. *)
Lemma weights_loop_fl_entries conns : ∀ total weights T W,
  NoDup (keys weights ++ keys conns) →
  weights_loop_fl fl conns total weights = Some (T, W) →
  W = weights ++ (entry_fl <$> conns).
Proof.
  induction conns as [|[i c] conns IH]; intros total weights T W Hnd Hloop.
  - simpl in Hloop. injection Hloop as _ <-. by rewrite app_nil_r.
  - assert (Hfresh : i ∉ keys weights).
    { apply NoDup_app in Hnd as (_ & Hdisj & _).
      intros Hin. apply (Hdisj i Hin). unfold keys. simpl.
      apply list_elem_of_here. }
    assert (Hnd' : ∀ v : Q, NoDup (keys (weights ++ [(i, v)]) ++ keys conns)).
    { intros v. unfold keys in *. rewrite fmap_app. simpl in *.
      by rewrite <- app_assoc. }
    rewrite weights_loop_fl_step in Hloop.
    rewrite fmap_cons. unfold entry_fl at 1. simpl.
    destruct (qualifies c).
    + destruct (Qeq_bool (latency c) 0); [discriminate|].
      rewrite (dict_set_fresh _ _ _ Hfresh) in Hloop.
      rewrite (IH _ _ _ _ (Hnd' _) Hloop). by rewrite <- app_assoc.
    + rewrite (dict_set_fresh _ _ _ Hfresh) in Hloop.
      rewrite (IH _ _ _ _ (Hnd' _) Hloop). by rewrite <- app_assoc.
Qed.

(** Under accurate rounding the entries are non-negative, and positive for
    a qualifying interface. *)
Lemma entries_fl_sign conns : ∀ total,
  Forall (accurate fl u) (loop_roundings fl conns total) →
  ∀ i c, (i, c) ∈ conns →
    0 <= (entry_fl (i, c)).2 ∧ (Qualifies c → 0 < (entry_fl (i, c)).2).
Proof using u_nonneg u_half.
  induction conns as [|[j d] conns IH]; intros total Hacc i c Hin.
  - by apply not_elem_of_nil in Hin.
  - rewrite loop_roundings_step in Hacc.
    assert (Hhd : 0 <= (entry_fl (j, d)).2
                  ∧ (Qualifies d → 0 < (entry_fl (j, d)).2)).
    { unfold entry_fl. simpl. destruct (qualifies d) eqn:Hq.
      - apply Forall_app in Hacc as [Hraw _].
        apply qualifies_spec in Hq as (_ & Hb & _).
        pose proof (raw_weight_fl_pos d Hb Hraw) as Hpos.
        split; [lra | done].
      - split; [lra|]. intros Hq'. apply qualifies_spec in Hq'. congruence. }
    apply elem_of_cons in Hin as [[= -> ->]|Hin]; [exact Hhd|].
    destruct (qualifies d).
    + apply Forall_app in Hacc as [_ Hacc].
      apply Forall_cons in Hacc as [_ Hacc]. by eapply IH.
    + by eapply IH.
Qed.

Lemma entries_fl_sum_nonneg (conns : dict ConnInfo) :
  (∀ i c, (i, c) ∈ conns → 0 <= (entry_fl (i, c)).2) →
  0 <= Qsum (values (entry_fl <$> conns)).
Proof.
  induction conns as [|[i c] conns IH]; intros Hall; [apply Qle_refl|].
  change (0 <= (entry_fl (i, c)).2 + Qsum (values (entry_fl <$> conns))).
  assert (H1 : 0 <= (entry_fl (i, c)).2)
    by apply Hall, list_elem_of_here.
  assert (H2 : 0 <= Qsum (values (entry_fl <$> conns))).
  { apply IH. intros j d Hj. by apply Hall, list_elem_of_further. }
  lra.
Qed.

Lemma entries_fl_sum_pos (conns : dict ConnInfo) i c :
  (∀ j d, (j, d) ∈ conns → 0 <= (entry_fl (j, d)).2) →
  (i, c) ∈ conns → 0 < (entry_fl (i, c)).2 →
  0 < Qsum (values (entry_fl <$> conns)).
Proof.
  induction conns as [|[j d] conns IH]; intros Hall Hin Hpos.
  - by apply not_elem_of_nil in Hin.
  - change (0 < (entry_fl (j, d)).2 + Qsum (values (entry_fl <$> conns))).
    assert (H1 : 0 <= (entry_fl (j, d)).2)
      by apply Hall, list_elem_of_here.
    assert (Htl : ∀ j d, (j, d) ∈ conns → 0 <= (entry_fl (j, d)).2).
    { intros j' d' Hj. by apply Hall, list_elem_of_further. }
    pose proof (entries_fl_sum_nonneg conns Htl) as H2.
    apply elem_of_cons in Hin as [[= -> ->]|Hin]; [lra|].
    pose proof (IH Htl Hin Hpos). lra.
Qed.

(** The running total stays close to the exact sum of the entries: after
    [k] additions its relative error is at most [2 k u]. *)
Lemma weights_loop_fl_total conns : ∀ total weights T W σ κ,
  0 <= κ → 0 <= σ →
  (1 - κ * u) * σ <= total → total <= (1 + 2 * κ * u) * σ →
  (κ + inject_Z (Z.of_nat (length conns))) * u <= 1 # 2 →
  Forall (accurate fl u) (loop_roundings fl conns total) →
  weights_loop_fl fl conns total weights = Some (T, W) →
  (1 - (κ + inject_Z (Z.of_nat (length conns))) * u)
    * (σ + Qsum (values (entry_fl <$> conns))) <= T
  ∧ T <= (1 + 2 * (κ + inject_Z (Z.of_nat (length conns))) * u)
         * (σ + Qsum (values (entry_fl <$> conns))).
Proof using u_nonneg u_half.
  induction conns as [|[i c] conns IH];
    intros total weights T W σ κ Hκ Hσ Hlo Hhi Hbudget Hacc Hloop.
  - simpl in Hloop. injection Hloop as <- _. simpl.
    change (inject_Z (Z.of_nat 0)) with 0. split; nra.
  - rewrite weights_loop_fl_step in Hloop.
    pose proof (inject_length_nonneg conns) as Hlen.
    pose proof (inject_length_succ (i, c) conns) as Hsucc.
    set (n := inject_Z (Z.of_nat (length conns))) in *.
    set (n1 := inject_Z (Z.of_nat (length ((i, c) :: conns)))) in *.
    assert (Hbudget' : ((κ + 1) + n) * u <= 1 # 2) by nra.
    assert (Hκu : (κ + 1) * u <= 1 # 2) by nra.
    rewrite fmap_cons.
    change (Qsum (values (entry_fl (i, c) :: (entry_fl <$> conns))))
      with ((entry_fl (i, c)).2 + Qsum (values (entry_fl <$> conns))).
    set (S := Qsum (values (entry_fl <$> conns))) in *.
    rewrite loop_roundings_step in Hacc. unfold entry_fl at 1 2. simpl.
    destruct (qualifies c) eqn:Hq.
    + destruct (Qeq_bool (latency c) 0); [discriminate|].
      apply Forall_app in Hacc as [Hraw Hacc].
      apply Forall_cons in Hacc as [Hadd Hacc].
      pose proof Hq as Hq'. apply qualifies_spec in Hq' as (_ & Hb & _).
      pose proof (raw_weight_fl_pos c Hb Hraw) as Hr.
      set (r := raw_weight_fl fl c) in *.
      assert (Htot : 0 <= total) by nra.
      destruct (accurate_bounds (total + r)) as [Hl' Hh']; [lra | done |].
      destruct (step_bounds u κ σ r total (fl (total + r)))
        as [Hlo1 Hhi1]; try done; try lra.
      destruct (IH _ _ _ _ (σ + r) (κ + 1) ltac:(lra) ltac:(lra)
                   Hlo1 Hhi1 Hbudget' Hacc Hloop) as [H1 H2].
      assert (E1 : (1 - (κ + n1) * u) * (σ + (r + S))
                   == (1 - (κ + 1 + n) * u) * (σ + r + S)).
      { rewrite Hsucc. ring. }
      assert (E2 : (1 + 2 * (κ + n1) * u) * (σ + (r + S))
                   == (1 + 2 * (κ + 1 + n) * u) * (σ + r + S)).
      { rewrite Hsucc. ring. }
      rewrite E1, E2. by split.
    + destruct (skip_bounds u κ σ total) as [Hlo1 Hhi1]; try done.
      destruct (IH _ _ _ _ (σ + 0) (κ + 1) ltac:(lra) ltac:(lra)
                   Hlo1 Hhi1 Hbudget' Hacc Hloop) as [H1 H2].
      assert (E1 : (1 - (κ + n1) * u) * (σ + (0 + S))
                   == (1 - (κ + 1 + n) * u) * (σ + 0 + S)).
      { rewrite Hsucc. ring. }
      assert (E2 : (1 + 2 * (κ + n1) * u) * (σ + (0 + S))
                   == (1 + 2 * (κ + 1 + n) * u) * (σ + 0 + S)).
      { rewrite Hsucc. ring. }
      rewrite E1, E2. by split.
Qed.

(** Normalisation: every quotient is rounded once. *)
Lemma normalize_fl_sum T (W : dict Q) :
  0 < T → (∀ kv, kv ∈ W → 0 <= kv.2) →
  Forall (accurate fl u) ((λ kv, kv.2 / T) <$> W) →
  (1 - u) * (Qsum (values W) / T) <= Qsum (values (normalize_fl fl T W))
  ∧ Qsum (values (normalize_fl fl T W)) <= (1 + u) * (Qsum (values W) / T).
Proof using u_nonneg u_half.
  intros HT. induction W as [|[k x] W IH]; intros Hnn Hacc.
  - simpl. unfold Qdiv. rewrite Qmult_0_l. split; nra.
  - rewrite fmap_cons in Hacc. apply Forall_cons in Hacc as [Hx Hacc].
    assert (Hx0 : 0 <= x) by apply (Hnn (k, x)), list_elem_of_here.
    destruct IH as [IH1 IH2]; [|done|].
    { intros kv Hkv. by apply Hnn, list_elem_of_further. }
    change (Qsum (values (normalize_fl fl T ((k, x) :: W))))
      with (fl (x / T) + Qsum (values (normalize_fl fl T W))).
    change (Qsum (values ((k, x) :: W))) with (x + Qsum (values W)).
    assert (Hq : 0 <= x / T).
    { apply Qle_shift_div_l; [done|]. by rewrite Qmult_0_l. }
    destruct (accurate_bounds (x / T) Hq Hx) as [H1 H2].
    assert (E : (x + Qsum (values W)) / T == x / T + Qsum (values W) / T).
    { unfold Qdiv. ring. }
    rewrite E. split; nra.
Qed.

Lemma keys_normalize_fl T (W : dict Q) : keys (normalize_fl fl T W) = keys W.
Proof.
  unfold keys, normalize_fl. rewrite <- list_fmap_compose.
  by apply list_fmap_ext.
Qed.

Lemma keys_entries_fl (conns : dict ConnInfo) :
  keys (entry_fl <$> conns) = keys conns.
Proof.
  unfold keys. rewrite <- list_fmap_compose. by apply list_fmap_ext.
Qed.

Lemma entries_fl_none_qualify (conns : dict ConnInfo) :
  (∀ i c, (i, c) ∈ conns → ¬ Qualifies c) →
  entry_fl <$> conns = (λ kv, (kv.1, 0)) <$> conns.
Proof.
  intros Hnone. apply list_fmap_ext. intros n [i c] Hl.
  unfold entry_fl. simpl.
  assert (Hq : qualifies c = false).
  { apply qualifies_false, (Hnone i). by eapply list_elem_of_lookup_2. }
  by rewrite Hq.
Qed.

(** What a completed computation stores. *)
Lemma calculate_weights_fl_stored s s' :
  wf (active_connections s) →
  _calculate_weights_fl fl s = Some s' →
  ∃ T, weights_loop_fl fl (active_connections s) 0 []
       = Some (T, entry_fl <$> active_connections s)
       ∧ active_connections s' = active_connections s
       ∧ connection_weights s'
         = if negb (Qle_bool T 0)
           then normalize_fl fl T (entry_fl <$> active_connections s)
           else entry_fl <$> active_connections s.
Proof.
  intros Hwf. unfold _calculate_weights_fl.
  destruct (weights_loop_fl fl (active_connections s) 0 [])
    as [[T W]|] eqn:Hloop; [|discriminate].
  intros [= <-].
  pose proof (weights_loop_fl_entries (active_connections s) 0 [] T W
                Hwf Hloop) as HW.
  rewrite app_nil_l in HW. subst W. by exists T.
Qed.

End RoundedWeights.

Lemma Qsum_zeros (conns : dict ConnInfo) :
  Qsum (values ((λ kv, (kv.1, 0)) <$> conns)) == 0.
Proof.
  induction conns as [|kv conns IH]; [reflexivity|].
  change (0 + Qsum (values ((λ kv, (kv.1, 0)) <$> conns)) == 0).
  rewrite IH. reflexivity.
Qed.

(** What a completed computation stores, under accurate rounding: either
    no interface qualifies and the entries are stored as they are, all 0;
    or the total is positive and the entries are divided by it, and the
    quotients sum to 1 within 1e-6. *)
Lemma calculate_weights_fl_analysis (fl : Q → Q) (u : Q) (s s' : t) :
  wf (active_connections s) →
  0 <= u →
  (inject_Z (Z.of_nat (length (active_connections s))) + 1) * u
  <= 1 # 2000000 →
  Forall (accurate fl u) (roundings fl s) →
  _calculate_weights_fl fl s = Some s' →
  let E := entry_fl fl <$> active_connections s in
  active_connections s' = active_connections s
  ∧ (∀ i c, (i, c) ∈ active_connections s →
       dict_get E i = Some (entry_fl fl (i, c)).2
       ∧ 0 <= (entry_fl fl (i, c)).2
       ∧ (Qualifies c → 0 < (entry_fl fl (i, c)).2)
       ∧ (¬ Qualifies c → (entry_fl fl (i, c)).2 = 0))
  ∧ ((none_qualifies s ∧ connection_weights s' = E)
     ∨ (¬ none_qualifies s
        ∧ ∃ T, 0 < T
            ∧ connection_weights s' = normalize_fl fl T E
            ∧ Forall (accurate fl u) ((λ kv, kv.2 / T) <$> E)
            ∧ 1 - (1 # 1000000) <= Qsum (values (normalize_fl fl T E))
            ∧ Qsum (values (normalize_fl fl T E)) <= 1 + (1 # 1000000))).
Proof.
  intros Hwf Hu Hbudget Hacc Hs' E.
  pose proof (inject_length_nonneg (active_connections s)) as Hn.
  set (n := inject_Z (Z.of_nat (length (active_connections s)))) in *.
  assert (Hu2 : u <= 1 # 2) by nra.
  destruct (calculate_weights_fl_stored fl s s' Hwf Hs')
    as (T & Hloop & Hconns & Hweights).
  unfold roundings in Hacc. rewrite Hloop in Hacc.
  apply Forall_app in Hacc as [Hacc Hdiv].
  fold E in Hloop, Hweights, Hdiv.
  pose proof (entries_fl_sign fl u Hu Hu2 _ _ Hacc) as Hsign.
  assert (Hnn : ∀ i c, (i, c) ∈ active_connections s
                       → 0 <= (entry_fl fl (i, c)).2).
  { intros i c Hin. by apply Hsign. }
  pose proof (entries_fl_sum_nonneg fl _ Hnn) as HS. fold E in HS.
  destruct (weights_loop_fl_total fl u Hu Hu2 (active_connections s)
              0 [] T E 0 0) as [Hlo Hhi];
    [lra | lra | lra | lra | fold n; nra | done | done |].
  fold n E in Hlo, Hhi. set (S := Qsum (values E)) in *.
  split; [exact Hconns|]. split.
  { intros i c Hin. split.
    - unfold E, entry_fl.
      rewrite (dict_get_fmap_entry
                 (λ c, if qualifies c then raw_weight_fl fl c else 0)).
      by rewrite (dict_get_elem _ _ _ Hwf Hin).
    - split; [by apply Hnn|]. split; [by apply (Hsign i c Hin)|].
      intros Hnq. unfold entry_fl. simpl.
      apply qualifies_false in Hnq. by rewrite Hnq. }
  rewrite Hweights.
  destruct (Qle_bool T 0) eqn:Hle; simpl.
  - (* the total is 0: no interface qualifies *)
    left. apply Qle_bool_iff in Hle. split; [|done].
    assert (HS0 : S <= 0) by nra.
    intros i c Hin Hq.
    assert (Hpos : 0 < S).
    { apply (entries_fl_sum_pos fl _ i c Hnn Hin).
      by apply (Hsign i c Hin). }
    lra.
  - (* a positive total: normalisation *)
    right.
    assert (HT : 0 < T).
    { apply Qnot_le_lt. intros H. apply Qle_bool_iff in H. congruence. }
    simpl in Hdiv. split.
    { intros Hnone.
      assert (HSz : S == 0).
      { unfold S, E. rewrite (entries_fl_none_qualify fl _ Hnone).
        apply Qsum_zeros. }
      nra. }
    exists T. split; [exact HT|]. split; [done|]. split; [exact Hdiv|].
    destruct (normalize_fl_sum fl u Hu Hu2 T E HT) as [Hsum1 Hsum2];
      [|exact Hdiv|].
    { intros [k x] Hkx. unfold E in Hkx.
      apply list_elem_of_fmap in Hkx as ([j d] & Heq & Hjd).
      rewrite Heq. by apply (Hnn j d). }
    fold S in Hsum1, Hsum2.
    set (q := S / T) in *.
    assert (HqT : q * T == S).
    { unfold q. field. lra. }
    assert (Hq0 : 0 <= q).
    { unfold q. apply Qle_shift_div_l; [done|]. lra. }
    assert (Hq1 : (1 - n * u) * q <= 1).
    { apply (quotient_upper _ q S T HT HqT).
      assert (E0 : (1 - (0 + n) * u) * (0 + S) == (1 - n * u) * S) by ring.
      by rewrite <- E0. }
    assert (Hq2 : 1 <= (1 + 2 * n * u) * q).
    { apply (quotient_lower _ q S T HT HqT).
      assert (E0 : (1 + 2 * (0 + n) * u) * (0 + S)
                   == (1 + 2 * n * u) * S) by ring.
      by rewrite <- E0. }
    pose proof (sum_upper u q n Hu Hn Hq0 Hbudget Hq1) as Hup.
    pose proof (sum_lower u q n Hu Hn Hq0 Hbudget Hq2) as Hdown.
    split; lra.
Qed.

(** C1 (amended): a weight computation that returns stores one weight per
    interface of [active_connections], and weight 0 for every interface
    that does not qualify.  When no interface qualifies all the weights are
    0, so the map is empty only when there is no interface at all.  When at
    least one interface qualifies the stored weights sum to 1 within 1e-6,
    provided every floating-point operation of the computation is rounded
    with a relative error of at most [u] (as binary64 does, with
    [u = 2^-53], when the result neither overflows nor underflows) and the
    number of interfaces, plus one, times [u] is at most 5e-7. *)
Theorem calculate_weights_normalised (fl : Q → Q) (u : Q) (s s' : t) :
  wf (active_connections s) →
  0 <= u →
  (inject_Z (Z.of_nat (length (active_connections s))) + 1) * u
  <= 1 # 2000000 →
  Forall (accurate fl u) (roundings fl s) →
  _calculate_weights_fl fl s = Some s' →
  active_connections s' = active_connections s
  ∧ keys (connection_weights s') = keys (active_connections s)
  ∧ (∀ i c, (i, c) ∈ active_connections s → ¬ Qualifies c →
       get0 (connection_weights s') i == 0)
  ∧ (some_qualifies s → within_1e6 (weight_sum s') 1)
  ∧ (none_qualifies s →
       connection_weights s' = (λ kv, (kv.1, 0)) <$> active_connections s).
Proof.
  intros Hwf Hu Hbudget Hacc Hs'.
  assert (Hu2 : u <= 1 # 2).
  { pose proof (inject_length_nonneg (active_connections s)). nra. }
  destruct (calculate_weights_fl_analysis fl u s s' Hwf Hu Hbudget Hacc Hs')
    as (Hconns & Hentries & [[Hnone Hweights]
                            |(Hsome & T & HT & Hweights & Hdiv & Hlo & Hhi)]).
  - split; [exact Hconns|]. rewrite Hweights.
    split; [apply keys_entries_fl|]. split.
    { intros i c Hin Hnq. destruct (Hentries i c Hin) as (Hget & _ & _ & Hz).
      unfold get0. by rewrite Hget, (Hz Hnq). }
    split.
    + intros (i & c & Hin & Hq). by destruct (Hnone i c Hin).
    + intros _. by apply entries_fl_none_qualify.
  - split; [exact Hconns|]. unfold weight_sum. rewrite Hweights.
    split; [rewrite keys_normalize_fl; apply keys_entries_fl|]. split.
    { intros i c Hin Hnq. destruct (Hentries i c Hin) as (Hget & _ & _ & Hz).
      unfold get0, normalize_fl.
      rewrite (dict_get_fmap_entry (λ x, fl (x / T))), Hget, (Hz Hnq).
      simpl. apply (accurate_zero fl u Hu Hu2); [unfold Qdiv; ring|].
      rewrite Forall_forall in Hdiv. apply Hdiv.
      apply list_elem_of_fmap. exists (i, 0). split; [done|].
      apply list_elem_of_fmap. exists (i, c).
      split; [|done]. unfold entry_fl. simpl.
      apply qualifies_false in Hnq. by rewrite Hnq. }
    split.
    + intros _. unfold within_1e6. apply Qabs_Qle_condition. split; lra.
    + intros Hnone. by destruct Hsome.
Qed.

(** The four interface figures of the test fixture, rounded as binary64
    rounds: every operation is accurate to [2^-53], and the stored weights
    sum to 1 within 1e-6. *)
Lemma calculate_weights_normalised_witness :
  wf (active_connections Examples.sample_connections)
  ∧ some_qualifies Examples.sample_connections
  ∧ Forall (accurate binary64 u64)
           (roundings binary64 Examples.sample_connections)
  ∧ ∃ s', _calculate_weights_fl binary64 Examples.sample_connections
          = Some s'
      ∧ within_1e6 (weight_sum s') 1.
Proof.
  assert (Hwf : wf (active_connections Examples.sample_connections)).
  { by apply (bool_decide_unpack _). }
  assert (Hq : some_qualifies Examples.sample_connections).
  { exists "eth0", (mkConnInfo 100 10 0 true 0 0).
    split; [apply list_elem_of_here | by repeat split]. }
  assert (Hacc : Forall (accurate binary64 u64)
                        (roundings binary64 Examples.sample_connections)).
  { apply Forall_forall. intros x Hx. apply list_elem_of_In in Hx.
    vm_compute in Hx.
    repeat (destruct Hx as [<-|Hx]; [vm_compute; discriminate|]).
    destruct Hx. }
  split; [exact Hwf|]. split; [exact Hq|]. split; [exact Hacc|].
  destruct (_calculate_weights_fl binary64 Examples.sample_connections)
    as [s'|] eqn:Hs'; [|vm_compute in Hs'; discriminate].
  exists s'. split; [reflexivity|].
  refine (proj1 (proj2 (proj2 (proj2
            (calculate_weights_normalised binary64 u64 _ s' Hwf _ _ Hacc Hs'))))
            Hq); vm_compute; discriminate.
Defined.

(** C1, as worded, fails: an interface that is active but unreachable
    (latency at the 1000 ms sentinel) does not qualify, yet the weight map
    holds an entry for it. *)
Lemma sum_one_or_empty_map_fails : ¬ sum_one_or_empty_map.
Proof.
  intros Hclaim.
  destruct (Hclaim Examples.unreachable_connections
                   (set_weights Examples.unreachable_connections
                                [("eth0", 0)])) as [_ Hempty].
  - by apply (bool_decide_unpack _).
  - reflexivity.
  - assert (Hnone : none_qualifies Examples.unreachable_connections).
    { intros i c Hin (_ & _ & Hl). vm_compute in Hin. elem_cases Hin.
      by vm_compute in Hl. }
    specialize (Hempty Hnone). discriminate Hempty.
Qed.

End Weights.

(** ** Link aggregator: send queues *)

Section Queues.
Import LinkAggregator AggregatorSpec.

Lemma dict_mem_true {V} (d : dict V) k :
  dict_mem d k = true ↔ k ∈ keys d.
Proof.
  unfold dict_mem. destruct (dict_get d k) eqn:E.
  - split; [intros _|done].
    destruct (decide (k ∈ keys d)) as [|Hn]; [done|].
    apply dict_get_None in Hn. congruence.
  - apply dict_get_None in E. split; [discriminate | done].
Qed.

Lemma dict_mem_get {V} (d : dict V) k :
  dict_mem d k = true → ∃ v, dict_get d k = Some v.
Proof. unfold dict_mem. destruct (dict_get d k); [eauto | discriminate]. Qed.

Lemma dict_get_keys {V} (d : dict V) k v : dict_get d k = Some v → k ∈ keys d.
Proof.
  intros H. destruct (decide (k ∈ keys d)) as [|Hn]; [done|].
  apply dict_get_None in Hn. congruence.
Qed.

Lemma deque_append_room {A} (q : deque A) x n :
  length (items q) < n → n ≤ maxlen q →
  deque_append q x = Deque (items q ++ [x]) (maxlen q).
Proof.
  intros Hlen Hmax. unfold deque_append.
  destruct (Nat.eqb_spec (maxlen q) 0); [lia|].
  destruct (Nat.ltb_spec (length (items q)) (maxlen q)); [done | lia].
Qed.

(** What a successful call does to the state. *)
Lemma queue_packet_success s packet_data interface r i q :
  queues_inv s →
  target s packet_data interface r = Some i → i ≠ "" →
  dict_get (packet_queues s) i = Some q →
  length (items q) < max_queue_size s →
  ∃ s', queue_packet s packet_data interface r = (true, s')
        ∧ enqueued s s' i packet_data.
Proof.
  intros Hinv Htgt Hne Hq Hlen.
  destruct (Hinv i q Hq) as [Hmax Hmem].
  apply dict_mem_get in Hmem as [c Hc].
  unfold queue_packet. fold (target s packet_data interface r).
  rewrite Htgt. destruct (String.eqb_spec i ""); [done|].
  rewrite Hq. destruct (Nat.leb_spec (max_queue_size s) (length (items q)));
    [lia|].
  simpl. rewrite Hc. eexists. split; [reflexivity|].
  rewrite (deque_append_room q packet_data _ Hlen Hmax).
  unfold enqueued. simpl.
  split; [exists q; split; [done | apply dict_get_set_eq]|].
  split; [exists c; split; [done | apply dict_get_set_eq]|].
  split; [intros j Hj; split; by apply dict_get_set_ne|].
  split; [apply keys_dict_set_present; by eapply dict_get_keys|].
  split; [apply keys_dict_set_present; by eapply dict_get_keys|].
  done.
Qed.

(** C2: [queue_packet] is all or nothing.  On a state whose queues were set
    up by [initialize], either it returns [True] after appending exactly the
    payload to the target queue and adding 1 to [packet_count] and
    [len(payload)] to [bytes_sent] of that interface, every other queue and
    counter being untouched; or it returns [False] and the aggregator is
    unchanged, which happens exactly when no interface is available or the
    target queue already holds [max_queue_size] payloads. *)
Theorem queue_packet_all_or_nothing s packet_data interface r :
  queues_inv s →
  let tgt := target s packet_data interface r in
  (∃ i s', tgt = Some i
     ∧ queue_packet s packet_data interface r = (true, s')
     ∧ enqueued s s' i packet_data)
  ∨ (queue_packet s packet_data interface r = (false, s)
     ∧ (no_interface s tgt ∨ queue_full s tgt)).
Proof.
  intros Hinv tgt.
  destruct tgt as [i|] eqn:Htgt; subst tgt.
  2:{ right. unfold queue_packet. fold (target s packet_data interface r).
      rewrite Htgt. split; [done | left; by left]. }
  destruct (String.eqb_spec i "") as [->|Hne].
  { right. unfold queue_packet. fold (target s packet_data interface r).
    rewrite Htgt. simpl. split; [done | left; right; by left]. }
  destruct (dict_get (packet_queues s) i) as [q|] eqn:Hq.
  2:{ right. unfold queue_packet. fold (target s packet_data interface r).
      rewrite Htgt. destruct (String.eqb_spec i ""); [done|]. rewrite Hq.
      split; [done | left; right; right; by exists i]. }
  destruct (Nat.leb_spec (max_queue_size s) (length (items q))) as [Hfull|Hroom].
  - right. unfold queue_packet. fold (target s packet_data interface r).
    rewrite Htgt. destruct (String.eqb_spec i ""); [done|]. rewrite Hq.
    destruct (Nat.leb_spec (max_queue_size s) (length (items q))); [|lia].
    split; [done | right; by exists i, q].
  - left. destruct (queue_packet_success s packet_data interface r i q)
      as (s' & Hs' & Henq); try done.
    by exists i, s'.
Qed.


(** *** The queue invariant holds in every state the code reaches *)

Lemma dict_mem_set {V} (d : dict V) k v j :
  dict_mem (dict_set d k v) j = true ↔ j = k ∨ dict_mem d j = true.
Proof.
  unfold dict_mem. destruct (decide (j = k)) as [->|Hne].
  - rewrite dict_get_set_eq. tauto.
  - rewrite (dict_get_set_ne _ _ _ _ Hne).
    split; [tauto | intros [?|?]; done].
Qed.

Lemma queues_inv_init : queues_inv __init__.
Proof. intros i q H. discriminate H. Qed.

Lemma queues_inv_initialize_loop local_node interfaces : ∀ s,
  queues_inv s → queues_inv (initialize_loop s local_node interfaces).
Proof.
  induction interfaces as [|i rest IH]; intros s Hinv; [done|].
  simpl. apply IH. intros j q. simpl.
  destruct (decide (j = i)) as [->|Hne].
  - rewrite dict_get_set_eq. intros [= <-]. simpl.
    split; [done | apply dict_mem_set; by left].
  - rewrite (dict_get_set_ne _ _ _ _ Hne). intros Hq.
    destruct (Hinv j q Hq) as [Hmax Hmem].
    split; [done | apply dict_mem_set; by right].
Qed.

Lemma calculate_weights_fields s s' :
  _calculate_weights s = Some s' →
  active_connections s' = active_connections s
  ∧ packet_queues s' = packet_queues s
  ∧ max_queue_size s' = max_queue_size s
  ∧ aggregation_mode s' = aggregation_mode s.
Proof.
  unfold _calculate_weights.
  destruct (weights_loop _ _ _) as [[total w]|]; [|discriminate].
  by intros [= <-].
Qed.

Lemma queues_inv_initialize s local_node :
  queues_inv s → queues_inv (state_of (initialize s local_node)).
Proof.
  intros Hinv. unfold initialize.
  pose proof (queues_inv_initialize_loop local_node
                (Core.connections local_node) s Hinv) as H1.
  destruct (_calculate_weights _) as [s2|] eqn:E; simpl; [|done].
  apply calculate_weights_fields in E as (Hc & Hq & Hm & _).
  intros i q. simpl. rewrite Hc, Hq, Hm. apply H1.
Qed.

Lemma update_connection_status_mem local_node interfaces : ∀ conns j,
  dict_mem (_update_connection_status_loop conns local_node interfaces) j
  = dict_mem conns j.
Proof.
  induction interfaces as [|i rest IH]; intros conns j; [done|].
  simpl. destruct (dict_get conns i) as [info|] eqn:E; [|apply IH].
  rewrite IH. apply eq_true_iff_eq. rewrite dict_mem_set.
  split; [intros [->|?]; [|done] | tauto].
  unfold dict_mem. by rewrite E.
Qed.

Lemma queues_inv_optimize s local_node :
  queues_inv s → queues_inv (optimize_aggregation s local_node).
Proof.
  intros Hinv. unfold optimize_aggregation.
  assert (H1 : queues_inv (_update_connection_status s local_node)).
  { intros i q. simpl. rewrite update_connection_status_mem. apply Hinv. }
  destruct (_calculate_weights _) as [s2|] eqn:E; [|done].
  apply calculate_weights_fields in E as (Hc & Hq & Hm & _).
  assert (H2 : queues_inv s2).
  { intros i q. rewrite Hc, Hq, Hm. apply H1. }
  unfold _adjust_aggregation_mode.
  destruct (length _) as [|[|n]]; exact H2.
Qed.

Lemma queues_inv_queue_packet s packet_data interface r :
  queues_inv s → queues_inv (queue_packet s packet_data interface r).2.
Proof.
  intros Hinv.
  destruct (target s packet_data interface r) as [i|] eqn:Htgt.
  2:{ unfold queue_packet. fold (target s packet_data interface r).
      by rewrite Htgt. }
  destruct (String.eqb_spec i "") as [->|Hne'].
  { unfold queue_packet. fold (target s packet_data interface r).
    by rewrite Htgt. }
  destruct (dict_get (packet_queues s) i) as [q0|] eqn:Hq0.
  2:{ unfold queue_packet. fold (target s packet_data interface r).
      rewrite Htgt. destruct (String.eqb_spec i ""); [done|].
      by rewrite Hq0. }
  destruct (Nat.leb_spec (max_queue_size s) (length (items q0)))
    as [Hfull|Hroom].
  { unfold queue_packet. fold (target s packet_data interface r).
    rewrite Htgt. destruct (String.eqb_spec i ""); [done|]. rewrite Hq0.
    by destruct (Nat.leb_spec (max_queue_size s) (length (items q0)));
      [|lia]. }
  destruct (queue_packet_success s packet_data interface r i q0)
    as (s' & -> & Henq); try done.
  simpl. destruct Henq as ((q & Hq & Hq') & (c & Hc & Hc') & Hother
                           & _ & _ & _ & _ & _ & Hm).
  intros j qj Hj. rewrite Hm. destruct (decide (j = i)) as [->|Hne].
  - rewrite Hq' in Hj. injection Hj as <-. simpl.
    destruct (Hinv i q Hq) as [Hmax _].
    split; [done|]. unfold dict_mem. by rewrite Hc'.
  - destruct (Hother j Hne) as [Hqj Hcj]. rewrite Hqj in Hj.
    destruct (Hinv j qj Hj) as [Hmax Hmem].
    split; [done|]. unfold dict_mem in *. by rewrite Hcj.
Qed.

Lemma queues_inv_get_packet s interface :
  queues_inv s → queues_inv (get_packet_from_queue s interface).2.
Proof.
  intros Hinv. unfold get_packet_from_queue.
  destruct (dict_get (packet_queues s) interface) as [q|] eqn:Hq; [|done].
  unfold deque_popleft. destruct (items q) as [|p rest] eqn:Hi; [done|].
  simpl. intros j qj. simpl. destruct (decide (j = interface)) as [->|Hne].
  - rewrite dict_get_set_eq. intros [= <-]. simpl. by apply Hinv.
  - rewrite (dict_get_set_ne _ _ _ _ Hne). apply Hinv.
Qed.

Lemma queues_inv_sample : queues_inv Examples.sample_aggregator.
Proof. apply queues_inv_initialize, queues_inv_init. Qed.

Lemma queue_packet_all_or_nothing_witness :
  queues_inv Examples.sample_aggregator
  ∧ ∃ s', queue_packet Examples.sample_aggregator Examples.test_packet
                       (Some "eth0") 0%Q = (true, s')
          ∧ enqueued Examples.sample_aggregator s' "eth0" Examples.test_packet.
Proof.
  split; [exact queues_inv_sample|].
  destruct (queue_packet_all_or_nothing Examples.sample_aggregator
              Examples.test_packet (Some "eth0") 0%Q queues_inv_sample)
    as [(i & s' & Hi & Hs' & Henq)|[Hfail _]].
  - injection Hi as <-. by exists s'.
  - vm_compute in Hfail. discriminate Hfail.
Defined.

End Queues.

(** ** Link aggregator: FIFO order of the send queues *)

Section Fifo.
Import LinkAggregator AggregatorSpec.

Lemma get_packet_nothing s i :
  nothing_queued s i → get_packet_from_queue s i = (None, s).
Proof.
  unfold get_packet_from_queue, deque_popleft.
  intros [->|(q & -> & ->)]; reflexivity.
Qed.

Lemma get_packet_head s i q p rest :
  dict_get (packet_queues s) i = Some q → items q = p :: rest →
  ∃ s', get_packet_from_queue s i = (Some p, s') ∧ dequeued s s' i p.
Proof.
  intros Hq Hi. unfold get_packet_from_queue, deque_popleft.
  rewrite Hq, Hi. eexists. split; [reflexivity|].
  unfold dequeued. simpl.
  split; [exists q, rest; repeat split; [done..|apply dict_get_set_eq]|].
  split; [intros j Hj; by apply dict_get_set_ne|].
  split; [apply keys_dict_set_present; by eapply dict_get_keys | done].
Qed.

(** Draining a queue returns its content front to back. *)
Lemma dequeue_n_drains n : ∀ s i q,
  dict_get (packet_queues s) i = Some q → length (items q) = n →
  ∃ s', dequeue_n s i n = (Some <$> items q, s')
        ∧ dict_get (packet_queues s') i = Some (Deque [] (maxlen q))
        ∧ active_connections s' = active_connections s.
Proof.
  induction n as [|n IH]; intros s i q Hq Hlen.
  - destruct q as [its m]. simpl in *.
    apply nil_length_inv in Hlen as ->. by exists s.
  - destruct (items q) as [|p rest] eqn:Hi; [discriminate|].
    destruct (get_packet_head s i q p rest Hq Hi)
      as (s1 & Hget & (q1 & rest1 & Hq1 & Hi1 & Hq1') & _ & _ & Hc & _).
    rewrite Hq in Hq1. injection Hq1 as <-.
    rewrite Hi in Hi1. injection Hi1 as <-.
    destruct (IH s1 i _ Hq1') as (s2 & Hdq & Hq2 & Hc2).
    { simpl in *. lia. }
    exists s2. simpl. rewrite Hget, Hdq. simpl.
    split; [done|]. split; [done | congruence].
Qed.

Lemma enqueue_all_appends packets : ∀ s i q,
  queues_inv s → i ≠ "" →
  dict_get (packet_queues s) i = Some q →
  length (items q) + length packets ≤ max_queue_size s →
  ∃ s', enqueue_all s i packets = (replicate (length packets) true, s')
        ∧ queues_inv s'
        ∧ dict_get (packet_queues s') i
          = Some (Deque (items q ++ packets) (maxlen q)).
Proof.
  induction packets as [|p rest IH]; intros s i q Hinv Hne Hq Hlen.
  - exists s. simpl. rewrite app_nil_r. by destruct q.
  - simpl in Hlen.
    destruct (queue_packet_success s p (Some i) 0%Q i q)
      as (s1 & Hs1 & (q0 & Hq0 & Hq1) & _ & _ & _ & _ & _ & _ & _ & Hm);
      [done | done | done | done | lia |].
    rewrite Hq in Hq0. injection Hq0 as <-.
    assert (Hinv1 : queues_inv s1).
    { pose proof (queues_inv_queue_packet s p (Some i) 0%Q Hinv) as H.
      by rewrite Hs1 in H. }
    destruct (IH s1 i _ Hinv1 Hne Hq1) as (s2 & Hall & Hinv2 & Hq2).
    { simpl. rewrite length_app, Hm. simpl. lia. }
    exists s2. simpl. rewrite Hs1, Hall. simpl in *.
    split; [done|]. split; [done|]. by rewrite <- app_assoc in Hq2.
Qed.

(** C10: each send queue is first in, first out.  On a state whose queues
    were set up by [initialize]: [get_packet_from_queue] on an interface that
    has no queue, or an empty one, returns [None] and leaves the aggregator
    as it is; on a non-empty queue it returns the front payload and removes
    only that; and payloads enqueued on an interface while there is room come
    out, after the ones already queued, in the order they went in. *)
Theorem send_queue_fifo s i :
  queues_inv s →
  (nothing_queued s i → get_packet_from_queue s i = (None, s))
  ∧ (∀ q p rest,
       dict_get (packet_queues s) i = Some q → items q = p :: rest →
       ∃ s', get_packet_from_queue s i = (Some p, s') ∧ dequeued s s' i p)
  ∧ (∀ q packets,
       i ≠ "" → dict_get (packet_queues s) i = Some q →
       length (items q) + length packets ≤ max_queue_size s →
       ∃ s1 s2,
         enqueue_all s i packets = (replicate (length packets) true, s1)
         ∧ dequeue_n s1 i (length (items q) + length packets)
           = (Some <$> (items q ++ packets), s2)
         ∧ nothing_queued s2 i
         ∧ get_packet_from_queue s2 i = (None, s2)).
Proof.
  intros Hinv. split; [apply get_packet_nothing|].
  split; [apply get_packet_head|].
  intros q packets Hne Hq Hlen.
  destruct (enqueue_all_appends packets s i q Hinv Hne Hq Hlen)
    as (s1 & Hall & _ & Hq1).
  destruct (dequeue_n_drains (length (items q) + length packets) s1 i _ Hq1)
    as (s2 & Hdq & Hq2 & _).
  { simpl. by rewrite length_app. }
  assert (Hnothing : nothing_queued s2 i).
  { right. eexists. split; [exact Hq2 | done]. }
  exists s1, s2. repeat split; try done. by apply get_packet_nothing.
Qed.

Lemma send_queue_fifo_witness :
  queues_inv Examples.sample_aggregator
  ∧ ∃ s1 s2,
      enqueue_all Examples.sample_aggregator "eth0" Examples.two_packets
        = ([true; true], s1)
      ∧ dequeue_n s1 "eth0" 2 = (Some <$> Examples.two_packets, s2)
      ∧ get_packet_from_queue s2 "eth0" = (None, s2).
Proof.
  split; [exact queues_inv_sample|].
  destruct (send_queue_fifo Examples.sample_aggregator "eth0" queues_inv_sample)
    as (_ & _ & Hfifo).
  destruct (Hfifo (deque_new 1000) Examples.two_packets)
    as (s1 & s2 & H1 & H2 & _ & H3).
  - done.
  - reflexivity.
  - vm_compute. lia.
  - by exists s1, s2.
Defined.

End Fifo.

(** ** Link aggregator: selection *)

Section Selection.
Import LinkAggregator AggregatorSpec.
Local Open Scope Q_scope.

Lemma weighted_scan_elem r ifaces : ∀ cumulative ws i,
  weighted_scan r cumulative ifaces ws = Some i → i ∈ ifaces.
Proof.
  induction ifaces as [|x ifaces IH]; intros cumulative ws i; [done|].
  destruct ws as [|w ws]; [done|]. simpl.
  destruct (Qle_bool r (cumulative + w)).
  - intros [= ->]. apply list_elem_of_here.
  - intros H. apply list_elem_of_further. by eapply IH.
Qed.

Lemma py_max_by_elem {A} (key : A → Q) l : ∀ best,
  py_max_by key best l ∈ best :: l.
Proof.
  induction l as [|x l IH]; intros best; simpl; [apply list_elem_of_here|].
  destruct (negb _).
  - apply list_elem_of_further, IH.
  - specialize (IH best). apply elem_of_cons in IH as [->|IH].
    + apply list_elem_of_here.
    + by do 2 apply list_elem_of_further.
Qed.

Lemma py_min_by_elem {A} (key : A → Q) l : ∀ best,
  py_min_by key best l ∈ best :: l.
Proof.
  induction l as [|x l IH]; intros best; simpl; [apply list_elem_of_here|].
  destruct (negb _).
  - apply list_elem_of_further, IH.
  - specialize (IH best). apply elem_of_cons in IH as [->|IH].
    + apply list_elem_of_here.
    + by do 2 apply list_elem_of_further.
Qed.

(** The candidates of weighted selection are active and carry a positive
    weight. *)
Lemma weighted_random_selection_sound s r i :
  _weighted_random_selection s r = Some i →
  (∃ c, (i, c) ∈ active_connections s ∧ active c = true)
  ∧ 0 < weight_of s i.
Proof.
  unfold _weighted_random_selection.
  set (P := λ kv : string * ConnInfo,
         active kv.2 = true
         ∧ negb (Qle_bool (get0 (connection_weights s) kv.1) 0) = true).
  set (cands := (filter P (active_connections s)).*1).
  assert (Hcand : ∀ j, j ∈ cands →
            (∃ c, (j, c) ∈ active_connections s ∧ active c = true)
            ∧ 0 < weight_of s j).
  { intros j Hj. apply list_elem_of_fmap in Hj as ([j' c] & -> & Hin).
    apply list_elem_of_filter in Hin as [[Ha Hw] Hin]. simpl in *.
    split; [by exists c|]. unfold weight_of.
    apply Qnot_le_lt. intros Hle. apply Qle_bool_iff in Hle.
    rewrite Hle in Hw. discriminate. }
  destruct cands as [|first rest] eqn:Hc; [done|].
  destruct (Qeq_bool _ 0).
  - intros [= <-]. apply Hcand, list_elem_of_here.
  - destruct (weighted_scan _ _ _ _) as [iface|] eqn:Hscan.
    + intros [= <-]. by apply Hcand, (weighted_scan_elem _ _ _ _ _ Hscan).
    + intros Hlast. by apply Hcand, last_Some_elem_of.
Qed.

Lemma adaptive_selection_sound s packet_size r i :
  _adaptive_selection s packet_size r = Some i →
  (∃ c, (i, c) ∈ active_connections s ∧ active c = true)
  ∧ (packet_size = 0%nat → 0 < weight_of s i).
Proof.
  unfold _adaptive_selection.
  destruct (Nat.eqb_spec packet_size 0) as [->|Hne].
  { intros H. apply weighted_random_selection_sound in H. tauto. }
  set (cands := (filter (λ kv : string * ConnInfo, active kv.2 = true)
                        (active_connections s)).*1).
  assert (Hcand : ∀ j, j ∈ cands →
            ∃ c, (j, c) ∈ active_connections s ∧ active c = true).
  { intros j Hj. apply list_elem_of_fmap in Hj as ([j' c] & -> & Hin).
    apply list_elem_of_filter in Hin as [Ha Hin]. by exists c. }
  destruct cands as [|x rest]; [done|].
  intros H. split; [|done]. apply Hcand.
  destruct (Nat.ltb 1000 packet_size); injection H as <-.
  - apply py_max_by_elem.
  - apply py_min_by_elem.
Qed.

(** C5 (amended): whatever the mode, the interface [select_connection]
    returns is one of [active_connections] and is marked active; in
    [load_balance] mode, and in [adaptive] mode for a packet size of 0, its
    weight is moreover positive.  In [failover] mode and in [adaptive] mode
    for a non-zero packet size the weight plays no part in the choice. *)
Theorem select_connection_sound s packet_size r i :
  select_connection s packet_size r = Some i →
  (∃ c, (i, c) ∈ active_connections s ∧ active c = true)
  ∧ (aggregation_mode s = "load_balance"
     ∨ (aggregation_mode s = "adaptive" ∧ packet_size = 0%nat) →
     0 < weight_of s i ∧ ¬ weight_of s i == 0).
Proof.
  unfold select_connection.
  destruct (active_connections s) as [|kv conns] eqn:Hconns; [done|].
  rewrite <- Hconns.
  assert (Hpos : 0 < weight_of s i → 0 < weight_of s i ∧ ¬ weight_of s i == 0).
  { intros H. split; [done|]. intros Hz. rewrite Hz in H.
    by apply Qlt_irrefl in H. }
  destruct (String.eqb_spec (aggregation_mode s) "failover") as [Hm|_].
  { intros H. destruct (List.find _ _) as [[j c]|] eqn:Hfind; [|done].
    injection H as <-. apply find_some in Hfind as [Hin Ha].
    split; [exists c; split; [by apply list_elem_of_In | done]|].
    rewrite Hm. intros [?|[? _]]; discriminate. }
  destruct (String.eqb_spec (aggregation_mode s) "load_balance") as [Hm|_].
  { intros H. apply weighted_random_selection_sound in H as [H1 H2].
    split; [done | intros _; by apply Hpos]. }
  destruct (String.eqb_spec (aggregation_mode s) "adaptive") as [Hm|_]; [|done].
  intros H. apply adaptive_selection_sound in H as [H1 H2].
  split; [done|]. rewrite Hm. intros [?|[_ ->]]; [discriminate|].
  by apply Hpos, H2.
Qed.

Lemma select_connection_sound_witness :
  select_connection Examples.sample_aggregator 0 (1 # 2) = Some "eth0"
  ∧ 0 < weight_of Examples.sample_aggregator "eth0".
Proof.
  assert (H : select_connection Examples.sample_aggregator 0 (1 # 2)
              = Some "eth0") by reflexivity.
  split; [exact H|].
  apply (select_connection_sound _ _ _ _ H). by left.
Defined.

(** C5, as worded, fails in two of the three modes.  With a single
    interface whose latency sits at the 1000 ms sentinel the weight is 0;
    the optimisation tick puts the aggregator in [failover] mode, where the
    interface is selected all the same; so it is in [adaptive] mode for a
    100-byte packet. *)
Lemma zero_weight_selected :
  ¬ never_selects_weight_zero "failover"
  ∧ ¬ never_selects_weight_zero "adaptive".
Proof.
  split; intros Hclaim.
  - apply (Hclaim (optimize_aggregation Examples.unreachable_aggregator
                                        Examples.unreachable_node)
                  100%nat 0 "eth0"); reflexivity.
  - apply (Hclaim (set_mode Examples.unreachable_aggregator "adaptive")
                  100%nat 0 "eth0"); reflexivity.
Qed.

End Selection.

(** ** Node discovery: validation of received datagrams *)

Section Discovery.
Import NodeDiscovery DiscoverySpec.

Lemma dict_get_del_ne {V} (d : dict V) k k' :
  k' ≠ k → dict_get (dict_del d k) k' = dict_get d k'.
Proof.
  intros Hne. induction d as [|[k0 v0] d IH]; [done|].
  unfold dict_del in *. simpl. destruct (String.eqb_spec k0 k) as [->|Hk]; simpl.
  - rewrite IH, dict_get_cons. by destruct (String.eqb_spec k k').
  - by rewrite !dict_get_cons, IH.
Qed.

Lemma dict_get_del_eq {V} (d : dict V) k : dict_get (dict_del d k) k = None.
Proof.
  induction d as [|[k0 v0] d IH]; [done|].
  unfold dict_del in *. simpl. destruct (String.eqb_spec k0 k) as [->|Hk]; simpl.
  - exact IH.
  - rewrite dict_get_cons. by destruct (String.eqb_spec k0 k).
Qed.

(** The verdict on an object reads the five required members only. *)
Lemma validate_ext self o o' :
  (∀ k, k ∈ required_fields → dict_get o k = dict_get o' k) →
  _validate_node_data self (JObj o) = _validate_node_data self (JObj o').
Proof.
  intros H.
  assert (H1 := H "node_id" ltac:(set_solver)).
  assert (H2 := H "ip_address" ltac:(set_solver)).
  assert (H3 := H "connections" ltac:(set_solver)).
  assert (H4 := H "bandwidth" ltac:(set_solver)).
  assert (H5 := H "latency" ltac:(set_solver)).
  unfold _validate_node_data, required_fields, all_fields_in, py_in, dict_mem,
    node_id_is_own, assert_isinstance.
  by rewrite H1, H2, H3, H4, H5.
Qed.

Lemma validate_obj_spec self o :
  _validate_node_data self (JObj o) = Valid ↔ admissible self o.
Proof.
  unfold _validate_node_data, required_fields, all_fields_in, py_in, dict_mem,
    node_id_is_own, assert_isinstance, admissible.
  split.
  - destruct (dict_get o "node_id") as [v1|]; [|done].
    destruct (dict_get o "ip_address") as [v2|]; [|done].
    destruct (dict_get o "connections") as [v3|]; [|done].
    destruct (dict_get o "bandwidth") as [v4|]; [|done].
    destruct (dict_get o "latency") as [v5|]; [|done].
    destruct v1 as [| | |id| |]; try (by destruct (node_id self)).
    destruct v2 as [| | |ip| |];
      try (by destruct (node_id self) as [own|]; [destruct (String.eqb id own)|]).
    destruct v3 as [| | | |conns|];
      try (by destruct (node_id self) as [own|]; [destruct (String.eqb id own)|]).
    destruct v4 as [| | | | |bw];
      try (by destruct (node_id self) as [own|]; [destruct (String.eqb id own)|]).
    destruct v5 as [| | | | |lat];
      try (by destruct (node_id self) as [own|]; [destruct (String.eqb id own)|]).
    intros Hv. exists id, ip, conns, bw, lat. repeat split; try done.
    destruct (node_id self) as [own|]; [|done].
    destruct (String.eqb_spec id own) as [->|Hne]; [done | congruence].
  - intros (id & ip & conns & bw & lat & -> & -> & -> & -> & -> & Hne).
    simpl. destruct (node_id self) as [own|]; [|done].
    destruct (String.eqb_spec id own) as [->|?]; [congruence | done].
Qed.

(** Only objects are ever accepted. *)
Lemma validate_valid_obj self v :
  _validate_node_data self v = Valid → ∃ o, v = JObj o.
Proof.
  destruct v as [| | |s|l|o]; try done; [| |by exists o];
    unfold _validate_node_data;
    by destruct (all_fields_in _ _) as [[]|].
Qed.

Lemma accepted_iff self resp :
  accepted self resp ↔ ∃ o, resp = Decoded (JObj o) ∧ admissible self o.
Proof.
  unfold accepted, discover_nodes. split.
  - intros (v & -> & Hd). simpl in Hd.
    destruct (_validate_node_data self v) eqn:Hv; try discriminate.
    destruct (validate_valid_obj _ _ Hv) as [o ->].
    exists o. split; [done | by apply validate_obj_spec].
  - intros (o & -> & Hadm). apply validate_obj_spec in Hadm.
    exists (JObj o). simpl. by rewrite Hadm.
Qed.

(** The parsing loop extends what it has collected. *)
Lemma discover_loop_acc self responses : ∀ acc,
  discover_loop self responses acc = acc ++ discover_loop self responses [].
Proof.
  induction responses as [|[| |v] rest IH]; intros acc; simpl.
  - by rewrite app_nil_r.
  - apply IH.
  - by rewrite app_nil_r.
  - destruct (_validate_node_data self v).
    + rewrite (IH (acc ++ [v])), (IH [v]). by rewrite <- app_assoc.
    + apply IH.
    + by rewrite app_nil_r.
Qed.

(** While no datagram ends the pass, the loop goes on with the next ones. *)
Lemma discover_loop_alive self heard rest : ∀ acc,
  alive self heard →
  discover_loop self (heard ++ rest) acc
  = discover_loop self rest (discover_loop self heard acc).
Proof.
  induction heard as [|resp heard IH]; intros acc Halive; [done|].
  assert (Hhd : ¬ ends_pass self resp)
    by (apply Halive, list_elem_of_here).
  assert (Htl : alive self heard).
  { intros r Hr. apply Halive. by apply list_elem_of_further. }
  destruct resp as [| |v]; simpl in *; [by apply IH | done |].
  destruct (_validate_node_data self v); [by apply IH | by apply IH | done].
Qed.

(** Once a datagram has ended the pass, nothing heard later is read. *)
Lemma discover_loop_ended self heard rest : ∀ acc,
  ¬ alive self heard →
  discover_loop self (heard ++ rest) acc = discover_loop self heard acc.
Proof.
  induction heard as [|resp heard IH]; intros acc Hdead.
  - destruct Hdead. intros r Hr. by apply not_elem_of_nil in Hr.
  - assert (Htl : ¬ ends_pass self resp → ¬ alive self heard).
    { intros Hhd Halive. apply Hdead. intros r Hr.
      apply elem_of_cons in Hr as [->|Hr]; [done | by apply Halive]. }
    destruct resp as [| |v]; simpl in *.
    + apply IH, Htl. tauto.
    + done.
    + destruct (_validate_node_data self v) eqn:Hv; [| |done];
        apply IH, Htl; congruence.
Qed.

Lemma alive_dec self heard : alive self heard ∨ ¬ alive self heard.
Proof.
  induction heard as [|resp heard [IH|IH]].
  - left. intros r Hr. by apply not_elem_of_nil in Hr.
  - assert (Hdec : ends_pass self resp ∨ ¬ ends_pass self resp).
    { destruct resp as [| |v]; simpl; [tauto | tauto |].
      destruct (_validate_node_data self v); [right | right | left]; done. }
    destruct Hdec as [Hend|Hgo].
    + right. intros Halive.
      exact (Halive resp (list_elem_of_here _ _) Hend).
    + left. intros r Hr.
      apply elem_of_cons in Hr as [->|Hr]; [done | by apply IH].
  - right. intros Halive. apply IH. intros r Hr.
    apply Halive. by apply list_elem_of_further.
Qed.

Lemma app_singleton_neq {A} (l : list A) x : l ≠ l ++ [x].
Proof.
  intros H. apply (f_equal length) in H. rewrite length_app in H.
  simpl in H. lia.
Qed.

(** Acceptance inside a listening window. *)
Lemma accepted_after_iff self heard resp :
  accepted_after self heard resp
  ↔ alive self heard ∧ ∃ o, resp = Decoded (JObj o) ∧ admissible self o.
Proof.
  unfold accepted_after, discover_nodes. split.
  - intros (v & -> & Hd).
    destruct (alive_dec self heard) as [Halive|Hdead].
    + split; [done|]. rewrite (discover_loop_alive _ _ _ _ Halive) in Hd.
      simpl in Hd.
      destruct (_validate_node_data self v) eqn:Hv;
        [|by apply app_singleton_neq in Hd..].
      destruct (validate_valid_obj _ _ Hv) as [o ->].
      exists o. split; [done | by apply validate_obj_spec].
    + rewrite (discover_loop_ended _ _ _ _ Hdead) in Hd.
      by apply app_singleton_neq in Hd.
  - intros (Halive & o & -> & Hadm). apply validate_obj_spec in Hadm.
    exists (JObj o). split; [done|].
    rewrite (discover_loop_alive _ _ _ _ Halive). simpl. by rewrite Hadm.
Qed.

Lemma accepted_after_nil self resp :
  accepted_after self [] resp ↔ accepted self resp.
Proof. reflexivity. Qed.

(** C3 (amended): the pass keeps a received datagram as a peer record
    only if it decodes to a JSON object holding the five required fields
    with the required types and a [node_id] other than the local one, and
    no datagram heard earlier in the same listening window has ended the
    pass.  The [group] member is not consulted: setting it to any value, or
    removing it, does not change whether the datagram is kept. *)
Theorem acceptance_ignores_group self heard resp :
  (accepted_after self heard resp
   → alive self heard ∧ ∃ o, resp = Decoded (JObj o) ∧ admissible self o)
  ∧ ∀ o g,
      (accepted_after self heard (Decoded (JObj (dict_set o "group" g)))
       ↔ accepted_after self heard (Decoded (JObj o)))
      ∧ (accepted_after self heard (Decoded (JObj (dict_del o "group")))
         ↔ accepted_after self heard (Decoded (JObj o))).
Proof.
  split; [apply accepted_after_iff|].
  assert (Hsame : ∀ o o',
            _validate_node_data self (JObj o') = _validate_node_data self (JObj o)
            → accepted_after self heard (Decoded (JObj o'))
              ↔ accepted_after self heard (Decoded (JObj o))).
  { intros o o' Hv. rewrite !accepted_after_iff.
    assert (Hadm : admissible self o' ↔ admissible self o)
      by (by rewrite <- !validate_obj_spec, Hv).
    split; intros (Halive & o1 & [= <-] & H1); (split; [done|]);
      eexists; (split; [reflexivity|]); by apply Hadm. }
  intros o g. split; apply Hsame, validate_ext; intros k Hk.
  - apply dict_get_set_ne. intros ->. vm_compute in Hk. elem_cases Hk.
  - apply dict_get_del_ne. intros ->. vm_compute in Hk. elem_cases Hk.
Qed.

(** C3, as worded, fails: the peer record of the test suite carries no
    [group] member and is accepted. *)
Lemma group_not_required : ¬ only_group_members_accepted.
Proof.
  intros Hclaim.
  destruct (Hclaim Examples.receiver (Decoded Examples.peer_001))
    as (o & Ho & Hgroup).
  - exists Examples.peer_001. split; reflexivity.
  - injection Ho as <-. discriminate Hgroup.
Qed.

End Discovery.

(** ** Node discovery: advertisements sent and received *)

Section Advertisement.
Import NodeDiscovery DiscoverySpec.

(** The dictionary [advertise_node] builds from a node record passes the
    validation of any receiver with another identifier. *)
Lemma advertisement_data_admissible self node timestamp :
  node_id self ≠ Some (Core.node_id node) →
  _validate_node_data self (advertisement_data node timestamp) = Valid.
Proof.
  intros Hne. apply validate_obj_spec.
  exists (Core.node_id node), (Core.ip_address node),
    (JStr <$> Core.connections node),
    ((λ kv, (kv.1, JNum kv.2)) <$> Core.bandwidth node),
    ((λ kv, (kv.1, JNum kv.2)) <$> Core.latency node).
  by repeat split.
Qed.

(** C4: what [_send_advertisement] puts on the wire wraps that dictionary
    under ["node_data"], whereas [_validate_node_data] looks for the five
    required fields at the top level of the decoded datagram.  Every
    advertisement is therefore rejected by every receiver, whatever the node
    record and the identifiers: the round trip never succeeds. *)
Theorem advertisement_never_accepted self sender node timestamp :
  _validate_node_data self (advertise_node sender node timestamp) = Invalid
  ∧ discover_nodes self [Decoded (advertise_node sender node timestamp)] = []
  ∧ ¬ accepted self (Decoded (advertise_node sender node timestamp)).
Proof.
  assert (Hv : _validate_node_data self (advertise_node sender node timestamp)
               = Invalid) by reflexivity.
  split; [exact Hv|].
  assert (Hd : discover_nodes self
                 [Decoded (advertise_node sender node timestamp)] = []).
  { unfold discover_nodes.
    change (match _validate_node_data self
                    (advertise_node sender node timestamp) with
            | Valid => [advertise_node sender node timestamp]
            | _ => []
            end = []).
    by rewrite Hv. }
  split; [exact Hd|].
  intros (v & _ & Hacc). rewrite Hd in Hacc. discriminate Hacc.
Qed.

End Advertisement.

(** ** Failover manager: the health check *)

Section Health.
Import FailoverManager FailoverSpec.

Lemma success_count_fold (p : string → bool) targets : ∀ n,
  fold_left (λ success_count target,
               if p target then success_count + 1 else success_count)
            targets n
  = n + length (filter (λ target, p target = true) targets).
Proof.
  induction targets as [|x targets IH]; intros n; simpl; [lia|].
  rewrite IH, filter_cons. destruct (p x) eqn:Hp.
  - rewrite decide_True by done. simpl. lia.
  - rewrite decide_False by congruence. lia.
Qed.

Lemma strict_majority_div2 (n k : nat) : n / 2 + 1 ≤ k ↔ n < 2 * k.
Proof.
  pose proof (Nat.div_mod_eq n 2) as Hd.
  pose proof (Nat.mod_upper_bound n 2) as Hm. lia.
Qed.

Lemma check_connection_health_spec self ping interface :
  _check_connection_health self ping interface = true
  ↔ length (health_check_targets self)
    < 2 * successes ping interface (health_check_targets self).
Proof.
  unfold _check_connection_health, successes.
  rewrite success_count_fold. simpl. rewrite Nat.leb_le.
  apply strict_majority_div2.
Qed.

(** C7: the health check reports the interface healthy exactly when
    strictly more than half of the probes to the health-check targets
    succeed; with two targets, exactly when both succeed. *)
Theorem healthy_iff_strict_majority self ping interface :
  (_check_connection_health self ping interface = true
   ↔ length (health_check_targets self)
     < 2 * successes ping interface (health_check_targets self))
  ∧ ∀ a b, health_check_targets self = [a; b] →
      (_check_connection_health self ping interface = true
       ↔ ping interface a = true ∧ ping interface b = true).
Proof.
  split; [apply check_connection_health_spec|].
  intros a b Ht. rewrite check_connection_health_spec, Ht.
  unfold successes. rewrite !filter_cons, filter_nil.
  destruct (ping interface a), (ping interface b); simpl;
    repeat (rewrite decide_True by done || rewrite decide_False by done);
    simpl; split; try lia; try tauto; intros [? ?]; discriminate.
Qed.

Lemma healthy_iff_strict_majority_witness :
  health_check_targets __init__ = ["8.8.8.8"; "1.1.1.1"]
  ∧ _check_connection_health __init__ (λ _ _, true) "eth0" = true
  ∧ _check_connection_health __init__
      (λ _ target, String.eqb target "8.8.8.8") "eth0" = false.
Proof.
  split; [reflexivity|].
  destruct (healthy_iff_strict_majority __init__ (λ _ _, true) "eth0")
    as [_ Hboth].
  split; [by apply (Hboth "8.8.8.8" "1.1.1.1")|].
  destruct (healthy_iff_strict_majority __init__
              (λ _ target, String.eqb target "8.8.8.8") "eth0") as [_ Hone].
  apply not_true_is_false. intros Hh.
  apply (Hone "8.8.8.8" "1.1.1.1") in Hh as [_ Hb]; [discriminate | done].
Defined.

End Health.

(** ** Failover manager: events and the failed set *)

Section FailoverEvents.
Import FailoverManager FailoverSpec.

(** What one health-check outcome does to the failed set and to the log:
    nothing, one [connection_lost] event for an interface that joins the
    set, or one [connection_restored] event for an interface that leaves
    it. *)
Definition transition (s s' : t) (i : string) : Prop :=
  last_check s' = last_check s
  ∧ monitoring_interval s' = monitoring_interval s
  ∧ ((failover_events s' = failover_events s
      ∧ failed_interfaces s' = failed_interfaces s)
     ∨ (∃ e, failover_events s' = failover_events s ++ [e]
             ∧ event_type e = "connection_lost" ∧ interface e = i
             ∧ (i ∉ failed_interfaces s)
             ∧ failed_interfaces s' = {[i]} ∪ failed_interfaces s)
     ∨ (∃ e, failover_events s' = failover_events s ++ [e]
             ∧ event_type e = "connection_restored" ∧ interface e = i
             ∧ i ∈ failed_interfaces s
             ∧ failed_interfaces s' = failed_interfaces s ∖ {[i]})).

Lemma select_new_primary_fields s :
  last_check (_select_new_primary s) = last_check s
  ∧ monitoring_interval (_select_new_primary s) = monitoring_interval s
  ∧ failover_events (_select_new_primary s) = failover_events s
  ∧ failed_interfaces (_select_new_primary s) = failed_interfaces s.
Proof. unfold _select_new_primary. by destruct (filter _ _). Qed.

Lemma failover_interface_transition s i now :
  is_Some (failure_counts s !! i) →
  transition s (state_of (_failover_interface s i now)) i.
Proof.
  intros [n Hn]. unfold transition.
  destruct (decide (i ∈ failed_interfaces s)) as [Hin|Hout].
  { rewrite (failover_interface_failed _ _ _ Hin). simpl.
    split; [done|]. split; [done|]. by left. }
  rewrite (failover_interface_state _ _ _ _ Hn Hout). cbv zeta.
  match goal with |- context [decide (?P)] => destruct (decide P) end.
  - match goal with
    | |- context [_select_new_primary ?x] =>
        destruct (select_new_primary_fields x) as (-> & -> & -> & ->)
    end.
    simpl. split; [done|]. split; [done|]. right. left.
    eexists. by repeat split.
  - simpl. split; [done|]. split; [done|]. right. left.
    eexists. by repeat split.
Qed.

Lemma recover_interface_transition s i now :
  transition s (_recover_interface s i now) i.
Proof.
  unfold _recover_interface, transition.
  destruct (decide (i ∈ failed_interfaces s)) as [Hin|Hout].
  2:{ split; [done|]. split; [done|]. by left. }
  cbv zeta.
  match goal with
  | |- context [_select_new_primary ?x] =>
      destruct (select_new_primary_fields x) as (-> & -> & -> & ->)
  end.
  simpl. split; [done|]. split; [done|]. right. right.
  eexists. by repeat split.
Qed.

Lemma handle_connection_success_transition s i now :
  transition s (_handle_connection_success s i now) i.
Proof.
  unfold _handle_connection_success. cbv zeta.
  match goal with |- context [if ?b then _ else _] => destruct b end.
  - match goal with
    | |- transition _ (_recover_interface ?x _ _) _ =>
        pose proof (recover_interface_transition x i now) as H
    end.
    exact H.
  - split; [done|]. split; [done|]. by left.
Qed.

Lemma handle_connection_failure_transition s i now :
  transition s (state_of (_handle_connection_failure s i now)) i.
Proof.
  unfold _handle_connection_failure. cbv zeta.
  match goal with |- context [if ?b then _ else _] => destruct b end.
  - match goal with
    | |- transition _ (state_of (_failover_interface ?x _ _)) _ =>
        pose proof (failover_interface_transition x i now) as H
    end.
    apply H. simpl. rewrite lookup_insert_eq. by eexists.
  - split; [done|]. split; [done|]. by left.
Qed.


(** One iteration of the tick: either the interface is skipped, or it is
    probed (its last check being at least [monitoring_interval] old) and one
    outcome is handled. *)
Definition iteration (s s' : t) (i : string) (now : Q) : Prop :=
  monitoring_interval s' = monitoring_interval s
  ∧ (∀ j, j ≠ i → last_check s' !! j = last_check s !! j)
  ∧ ((failover_events s' = failover_events s
      ∧ failed_interfaces s' = failed_interfaces s
      ∧ last_check s' !! i = Some (default 0%Q (last_check s !! i)))
     ∨ ((monitoring_interval s <= now - default 0%Q (last_check s !! i))%Q
        ∧ last_check s' !! i = Some now
        ∧ ∃ s1, failover_events s1 = failover_events s
                ∧ failed_interfaces s1 = failed_interfaces s
                ∧ transition s1 s' i)).

Lemma check_interface_iteration s now ping stamp i :
  iteration s (state_of (check_interface s now ping stamp i)) i now.
Proof.
  unfold check_interface, iteration. cbv zeta.
  set (s1 := match last_check s !! i with
             | Some _ => s
             | None => set_last_check s (<[i:=0%Q]> (last_check s))
             end).
  assert (Hs1 : monitoring_interval s1 = monitoring_interval s
                ∧ failover_events s1 = failover_events s
                ∧ failed_interfaces s1 = failed_interfaces s
                ∧ (∀ j, j ≠ i → last_check s1 !! j = last_check s !! j)
                ∧ last_check s1 !! i = Some (default 0%Q (last_check s !! i))).
  { unfold s1. destruct (last_check s !! i) as [l|] eqn:Hl; simpl.
    - by repeat split.
    - repeat split; try done.
      + intros j Hj. by apply lookup_insert_ne.
      + apply lookup_insert_eq. }
  destruct Hs1 as (Hm & He & Hf & Hother & Hi).
  rewrite Hi. simpl. rewrite Hm.
  destruct (Qle_bool _ _) eqn:Hdue.
  - apply Qle_bool_iff in Hdue.
    set (s2 := set_last_check s1 (<[i:=now]> (last_check s1))).
    assert (Ht : ∀ s', transition s2 s' i →
              monitoring_interval s' = monitoring_interval s
              ∧ (∀ j, j ≠ i → last_check s' !! j = last_check s !! j)
              ∧ last_check s' !! i = Some now).
    { intros s' (Hl & Hm' & _). rewrite Hl, Hm'. simpl.
      split; [done|]. split.
      - intros j Hj. rewrite lookup_insert_ne by done. by apply Hother.
      - apply lookup_insert_eq. }
    destruct (_check_connection_health s1 ping i).
    + pose proof (handle_connection_success_transition s2 i stamp) as Htr.
      destruct (Ht _ Htr) as (H1 & H2 & H3).
      split; [done|]. split; [done|]. right.
      split; [done|]. split; [done|]. by exists s2.
    + pose proof (handle_connection_failure_transition s2 i stamp) as Htr.
      destruct (Ht _ Htr) as (H1 & H2 & H3).
      split; [done|]. split; [done|]. right.
      split; [done|]. split; [done|]. by exists s2.
  - split; [done|]. split; [done|]. by left.
Qed.

Lemma count_events_snoc ty i evs e :
  count_events ty i (evs ++ [e])
  = count_events ty i evs + one_if (event_type e = ty ∧ interface e = i).
Proof.
  unfold count_events, one_if.
  rewrite filter_app, length_app, filter_cons, filter_nil.
  case_bool_decide.
  - by rewrite decide_True.
  - by rewrite decide_False.
Qed.

Lemma one_if_iff (P Q : Prop) `{Decision P} `{Decision Q} :
  (P ↔ Q) → one_if P = one_if Q.
Proof. intros HPQ. unfold one_if. repeat case_bool_decide; tauto. Qed.

Lemma one_if_true (P : Prop) `{Decision P} : P → one_if P = 1.
Proof. intros HP. unfold one_if. by rewrite bool_decide_eq_true_2. Qed.

Lemma one_if_false (P : Prop) `{Decision P} : ¬ P → one_if P = 0.
Proof. intros HP. unfold one_if. by rewrite bool_decide_eq_false_2. Qed.

(** The log extension [evs] accounts for the change of the failed set from
    [F0] to [F]: only loss and recovery events, one per interface that
    changed side. *)
Definition accounts (F0 F : gset string) (evs : list FailoverEvent) : Prop :=
  (∀ e, e ∈ evs → event_type e = "connection_lost"
                  ∨ event_type e = "connection_restored")
  ∧ ∀ i, count_events "connection_lost" i evs = one_if (entered F0 F i)
         ∧ count_events "connection_restored" i evs
           = one_if (recovered F0 F i).

(** Loop invariant of the tick; [C] is the set of interfaces probed so
    far. *)
Definition tick_inv (s0 s : t) (now : Q) (C : gset string) : Prop :=
  monitoring_interval s = monitoring_interval s0
  ∧ (∀ i, i ∈ C → last_check s !! i = Some now)
  ∧ (∀ i, i ∉ C → (i ∈ failed_interfaces s ↔ i ∈ failed_interfaces s0))
  ∧ ∃ evs, failover_events s = failover_events s0 ++ evs
           ∧ accounts (failed_interfaces s0) (failed_interfaces s) evs.

Ltac set_tac :=
  rewrite ?elem_of_union, ?elem_of_difference, ?elem_of_singleton in *;
  intuition congruence.

Lemma accounts_nil F : accounts F F [].
Proof.
  split; [intros e He; by apply not_elem_of_nil in He|].
  intros i. unfold count_events. rewrite filter_nil. simpl.
  split; symmetry; apply one_if_false; unfold entered, recovered; tauto.
Qed.

Lemma accounts_lost F0 F evs e i :
  accounts F0 F evs → (i ∈ F ↔ i ∈ F0) → i ∉ F →
  event_type e = "connection_lost" → interface e = i →
  accounts F0 ({[i]} ∪ F) (evs ++ [e]).
Proof.
  intros [Hty Hcnt] Hsame Hout Het Hei. split.
  - intros e' He'. apply elem_of_app in He' as [He'|He']; [by apply Hty|].
    apply list_elem_of_singleton in He' as ->. by left.
  - intros j. rewrite !count_events_snoc.
    destruct (Hcnt j) as [-> ->]. rewrite Het, Hei.
    destruct (decide (j = i)) as [->|Hne].
    + rewrite (one_if_false (entered F0 F i)) by (unfold entered; tauto).
      rewrite (one_if_true (_ ∧ i = i)) by done.
      rewrite (one_if_false (_ ∧ i = i)) by (intros [? _]; done).
      rewrite (one_if_true (entered _ _ _)) by (unfold entered; set_tac).
      rewrite (one_if_false (recovered F0 F i)) by (unfold recovered; tauto).
      rewrite (one_if_false (recovered _ _ _)) by (unfold recovered; set_tac).
      done.
    + rewrite (one_if_false (_ ∧ i = j)) by (intros [_ ?]; done).
      rewrite (one_if_false (_ ∧ i = j)) by (intros [_ ?]; done).
      rewrite !Nat.add_0_r.
      split; apply one_if_iff; unfold entered, recovered; set_tac.
Qed.

Lemma accounts_restored F0 F evs e i :
  accounts F0 F evs → (i ∈ F ↔ i ∈ F0) → i ∈ F →
  event_type e = "connection_restored" → interface e = i →
  accounts F0 (F ∖ {[i]}) (evs ++ [e]).
Proof.
  intros [Hty Hcnt] Hsame Hin Het Hei. split.
  - intros e' He'. apply elem_of_app in He' as [He'|He']; [by apply Hty|].
    apply list_elem_of_singleton in He' as ->. by right.
  - intros j. rewrite !count_events_snoc.
    destruct (Hcnt j) as [-> ->]. rewrite Het, Hei.
    destruct (decide (j = i)) as [->|Hne].
    + rewrite (one_if_false (entered F0 F i)) by (unfold entered; tauto).
      rewrite (one_if_false (_ ∧ i = i)) by (intros [? _]; done).
      rewrite (one_if_true (_ ∧ i = i)) by done.
      rewrite (one_if_false (entered _ _ _)) by (unfold entered; set_tac).
      rewrite (one_if_false (recovered F0 F i)) by (unfold recovered; tauto).
      rewrite (one_if_true (recovered _ _ _)) by (unfold recovered; set_tac).
      done.
    + rewrite (one_if_false (_ ∧ i = j)) by (intros [_ ?]; done).
      rewrite (one_if_false (_ ∧ i = j)) by (intros [_ ?]; done).
      rewrite !Nat.add_0_r.
      split; apply one_if_iff; unfold entered, recovered; set_tac.
Qed.


Lemma tick_inv_step s0 s now C ping stamp i :
  (0 < monitoring_interval s0)%Q →
  tick_inv s0 s now C →
  ∃ C', tick_inv s0 (state_of (check_interface s now ping stamp i)) now C'.
Proof.
  intros Hpos (Hm & Hchk & Hunch & evs & Hev & Hacc).
  destruct (check_interface_iteration s now ping stamp i)
    as (Hm' & Hother & [(He & Hf & Hi)|(Hdue & Hi & s1 & He1 & Hf1 & Htr)]).
  - (* skipped *)
    exists C. split; [congruence|]. split.
    { intros j Hj. destruct (decide (j = i)) as [->|Hne].
      - rewrite Hi, (Hchk i Hj). done.
      - rewrite (Hother j Hne). by apply Hchk. }
    split; [intros j Hj; rewrite Hf; by apply Hunch|].
    exists evs. by rewrite He, Hf.
  - (* probed: the interface was not probed earlier in the tick *)
    assert (HiC : i ∉ C).
    { intros HiC. rewrite (Hchk i HiC) in Hdue. simpl in Hdue.
      rewrite Hm in Hdue.
      assert (Hz : (now - now == 0)%Q) by ring.
      rewrite Hz in Hdue. exact (Qlt_not_le _ _ Hpos Hdue). }
    pose proof (Hunch i HiC) as Hsame.
    exists ({[i]} ∪ C). split; [congruence|]. split.
    { intros j Hj. destruct (decide (j = i)) as [->|Hne]; [done|].
      rewrite (Hother j Hne). apply Hchk. set_tac. }
    destruct Htr as (_ & _ & [(He & Hf)|[(e & He & Het & Hei & Hout & Hf)
                                        |(e & He & Het & Hei & Hin & Hf)]]).
    + split.
      { intros j Hj. rewrite Hf, Hf1. apply Hunch. set_tac. }
      exists evs. rewrite He, He1, Hf, Hf1. done.
    + rewrite Hf1 in Hout, Hf. rewrite He1 in He. split.
      { intros j Hj. rewrite Hf, <- (Hunch j) by set_tac. set_tac. }
      exists (evs ++ [e]). rewrite He, Hev, Hf, app_assoc.
      split; [done|]. by apply accounts_lost.
    + rewrite Hf1 in Hin, Hf. rewrite He1 in He. split.
      { intros j Hj. rewrite Hf, <- (Hunch j) by set_tac. set_tac. }
      exists (evs ++ [e]). rewrite He, Hev, Hf, app_assoc.
      split; [done|]. by apply accounts_restored.
Qed.

Lemma tick_inv_loop s0 now ping clock interfaces : ∀ s k C,
  (0 < monitoring_interval s0)%Q →
  tick_inv s0 s now C →
  ∃ C', tick_inv s0 (state_of (check_loop s now ping clock k interfaces))
                  now C'.
Proof.
  induction interfaces as [|i rest IH]; intros s k C Hpos Hinv.
  - by exists C.
  - rewrite check_loop_cons.
    destruct (tick_inv_step s0 s now C (ping k) (clock k) i Hpos Hinv)
      as [C' Hinv'].
    by apply (IH _ (S k) C').
Qed.

Lemma count_events_elem ty e evs :
  e ∈ evs → event_type e = ty → 0 < count_events ty (interface e) evs.
Proof.
  intros Hin Hty. unfold count_events.
  assert (He : e ∈ filter (λ e', event_type e' = ty
                                 ∧ interface e' = interface e) evs).
  { apply list_elem_of_filter. by repeat split. }
  destruct (filter _ evs); [by apply not_elem_of_nil in He | simpl; lia].
Qed.

(** C6: on a monitoring tick (with a positive [monitoring_interval], so
    that no interface is probed twice in the tick) the events appended to
    the log are exactly the membership changes of the failed set: something
    is appended if and only if the set changed; only [connection_lost] and
    [connection_restored] events are appended; an interface that entered the
    set accounts for exactly one [connection_lost] event and an interface
    that left it for exactly one [connection_restored] event, and there are
    no other events. *)
Theorem tick_events_match_transitions self local_node current_time ping clock :
  (0 < monitoring_interval self)%Q →
  let self' :=
    check_failover_conditions self local_node current_time ping clock in
  ∃ evs,
    failover_events self' = failover_events self ++ evs
    ∧ (evs ≠ [] ↔ failed_interfaces self' ≠ failed_interfaces self)
    ∧ (∀ e, e ∈ evs → event_type e = "connection_lost"
                      ∨ event_type e = "connection_restored")
    ∧ ∀ i,
        count_events "connection_lost" i evs
          = one_if (entered (failed_interfaces self)
                            (failed_interfaces self') i)
        ∧ count_events "connection_restored" i evs
          = one_if (recovered (failed_interfaces self)
                              (failed_interfaces self') i).
Proof.
  intros Hpos self'.
  destruct (tick_inv_loop self current_time ping clock
              (Core.connections local_node) self 0 ∅ Hpos)
    as (C & _ & _ & _ & evs & Hev & Hty & Hcnt).
  { split; [done|]. split; [intros i Hi; by apply not_elem_of_empty in Hi|].
    split; [done|]. exists []. rewrite app_nil_r. split; [done|].
    apply accounts_nil. }
  unfold self'. rewrite check_failover_conditions_returns.
  change (failover_events (_update_system_state ?x _))
    with (failover_events x).
  change (failed_interfaces (_update_system_state ?x _))
    with (failed_interfaces x).
  set (F' := failed_interfaces
               (state_of (check_loop self current_time ping clock 0
                                     (Core.connections local_node)))) in *.
  exists evs. split; [done|]. split; [|by split].
  split.
  - intros Hne HF. destruct evs as [|e evs]; [done|].
    assert (He : e ∈ e :: evs) by apply list_elem_of_here.
    destruct (Hcnt (interface e)) as [Hl Hr].
    rewrite HF in Hl, Hr.
    destruct (Hty e He) as [Het|Het];
      pose proof (count_events_elem _ e _ He Het) as Hc.
    + rewrite Hl, one_if_false in Hc; [lia | unfold entered; tauto].
    + rewrite Hr, one_if_false in Hc; [lia | unfold recovered; tauto].
  - intros HF Hnil. subst evs. apply HF. apply set_eq. intros i.
    destruct (Hcnt i) as [Hl Hr]. unfold count_events in Hl, Hr.
    rewrite filter_nil in Hl, Hr. simpl in Hl, Hr.
    unfold one_if in Hl, Hr. repeat case_bool_decide; try discriminate.
    unfold entered, recovered in *.
    destruct (decide (i ∈ F')), (decide (i ∈ failed_interfaces self)); tauto.
Qed.


Lemma tick_events_match_transitions_witness :
  (0 < monitoring_interval Examples.after_two_failures)%Q
  ∧ ∃ evs,
      failover_events Examples.after_three_failures
        = failover_events Examples.after_two_failures ++ evs
      ∧ evs ≠ []
      ∧ count_events "connection_lost" "eth0" evs = 1.
Proof.
  assert (Hpos : (0 < monitoring_interval Examples.after_two_failures)%Q)
    by reflexivity.
  split; [exact Hpos|].
  destruct (tick_events_match_transitions Examples.after_two_failures
              Examples.sample_node 120 Examples.eth0_down (λ _, 120%Q) Hpos)
    as (evs & Hev & Hne & _ & Hcnt).
  exists evs. split; [exact Hev|].
  assert (Hin : entered (failed_interfaces Examples.after_two_failures)
                        (failed_interfaces Examples.after_three_failures)
                        "eth0").
  { apply (bool_decide_unpack _). vm_compute. exact I. }
  split.
  - apply Hne. intros Heq. destruct Hin as [Hout Hin].
    apply Hout. unfold Examples.after_three_failures, Examples.failover_tick in Hin.
    by rewrite Heq in Hin.
  - destruct (Hcnt "eth0") as [-> _]. by apply one_if_true.
Defined.

(** Outside the monitoring tick, the operator command [manual_failover]
    records one event of its own type on every call, whether or not the
    failed set changes. *)
Lemma manual_failover_logs_one_event self from_interface to_interface now :
  ∃ e, failover_events (manual_failover self from_interface to_interface now).2
       = failover_events self ++ [e]
       ∧ event_type e = "manual_failover".
Proof.
  unfold manual_failover. cbv zeta. simpl.
  destruct (decide _); simpl; by eexists.
Qed.

End FailoverEvents.

(** ** Metrics collector: the performance report *)

Section Report.
Import MetricsCollector.
Local Open Scope Q_scope.

(** [max(xs)] is an element of [xs] and bounds every element. *)
Lemma py_max_by_upper {A} (key : A → Q) l : ∀ best x,
  x ∈ best :: l → key x <= key (py_max_by key best l).
Proof.
  induction l as [|y l IH]; intros best x Hx; simpl.
  - apply list_elem_of_singleton in Hx as ->. apply Qle_refl.
  - destruct (Qle_bool (key y) (key best)) eqn:Hle; simpl.
    + apply Qle_bool_iff in Hle.
      apply elem_of_cons in Hx as [->|Hx]; [apply IH, list_elem_of_here|].
      apply elem_of_cons in Hx as [->|Hx].
      * eapply Qle_trans; [exact Hle | apply IH, list_elem_of_here].
      * by apply IH, list_elem_of_further.
    + assert (Hlt : key best < key y).
      { apply Qnot_le_lt. intros H. apply Qle_bool_iff in H. congruence. }
      apply elem_of_cons in Hx as [->|Hx].
      * eapply Qle_trans; [apply Qlt_le_weak, Hlt | apply IH, list_elem_of_here].
      * apply IH, Hx.
Qed.

(** The peaks stored by [_update_averages_and_peaks] are the maxima over
    the history: the stored [packet_loss] peak bounds every sample. *)
Lemma stored_peak_packet_loss m now1 now2 sample :
  sample ∈ items (history m) →
  packet_loss sample
  <= packet_loss (peaks (_update_averages_and_peaks m now1 now2)).
Proof.
  intros Hin. unfold _update_averages_and_peaks.
  destruct (items (history m)) as [|s0 rest] eqn:Hh.
  - by apply not_elem_of_nil in Hin.
  - simpl. apply (py_max_by_upper (λ y, y) _ _ (packet_loss sample)).
    change (packet_loss sample ∈ packet_loss <$> (s0 :: rest)).
    apply list_elem_of_fmap. by exists sample.
Qed.

Lemma peaks_block_raises m : block m peaks_attrs = None.
Proof. reflexivity. Qed.

Lemma interface_report_raises metrics : interface_report metrics = None.
Proof.
  unfold interface_report. rewrite peaks_block_raises.
  by destruct (block (current metrics) current_attrs),
             (block (averages metrics) averages_attrs).
Qed.

(** C9: as soon as the collector knows one interface, building the report
    evaluates [metrics.peaks.peaks]; [PerformanceMetrics] has no such
    attribute, so [get_performance_report] raises instead of returning the
    per-interface peaks. *)
Theorem performance_report_raises self now :
  interfaces self ≠ [] → get_performance_report self now = None.
Proof.
  intros Hne. unfold get_performance_report.
  destruct (interfaces self) as [|[iface metrics] rest]; [done|].
  change (report_loop ((iface, metrics) :: rest) [])
    with (match interface_report metrics with
          | None => None
          | Some r => report_loop rest (dict_set [] iface r)
          end).
  by rewrite interface_report_raises.
Qed.

Lemma performance_report_raises_witness :
  interfaces Examples.one_sample ≠ []
  ∧ (∃ m, dict_get (interfaces Examples.one_sample) "eth0" = Some m
          ∧ items (history m) ≠ []
          ∧ packet_loss (peaks m) = 2)
  ∧ get_performance_report Examples.one_sample 1000 = None.
Proof.
  assert (Hne : interfaces Examples.one_sample ≠ []) by discriminate.
  split; [exact Hne|]. split.
  - eexists. split; [reflexivity|]. split; [discriminate | reflexivity].
  - exact (performance_report_raises Examples.one_sample 1000 Hne).
Defined.

End Report.

(** ** Mesh manager: eviction of stale peers *)

Section Eviction.
Import NodeDiscovery MeshManager MeshSpec.

Lemma discover_loop_valid self responses : ∀ acc,
  Forall (λ v, _validate_node_data self v = Valid) acc →
  Forall (λ v, _validate_node_data self v = Valid)
         (discover_loop self responses acc).
Proof.
  induction responses as [|[| |v] rest IH]; intros acc Hacc; simpl;
    [done | by apply IH | done |].
  destruct (_validate_node_data self v) eqn:Hv; [|by apply IH|done].
  apply IH. apply Forall_app. split; [done|]. by apply Forall_singleton.
Qed.

Lemma discover_nodes_valid self responses :
  Forall (λ v, _validate_node_data self v = Valid)
         (discover_nodes self responses).
Proof. apply discover_loop_valid. constructor. Qed.

(** A validated record has a string [node_id] and builds a peer record. *)
Lemma valid_record self v now :
  _validate_node_data self v = Valid →
  ∃ id node, str_field v "node_id" = Some id
             ∧ new_mesh_node v now = Some node
             ∧ Core.last_seen node = now.
Proof.
  intros Hv. destruct (validate_valid_obj _ _ Hv) as [o ->].
  apply validate_obj_spec in Hv
    as (id & ip & conns & bw & lat & H1 & H2 & H3 & H4 & H5 & _).
  unfold new_mesh_node, str_field, field. rewrite H1, H2, H3, H4, H5.
  by eexists _, _.
Qed.

Definition names (id : string) (l : list json) : Prop :=
  ∃ v, v ∈ l ∧ str_field v "node_id" = Some id.

Lemma names_dec id l : {names id l} + {¬ names id l}.
Proof.
  induction l as [|v l [IH|IH]].
  - right. intros (v & Hv & _). by apply not_elem_of_nil in Hv.
  - left. destruct IH as (w & Hw & Hid). exists w.
    split; [by apply list_elem_of_further | done].
  - destruct (decide (str_field v "node_id" = Some id)) as [Hv|Hv].
    + left. exists v. split; [apply list_elem_of_here | done].
    + right. intros (w & Hw & Hid).
      apply elem_of_cons in Hw as [->|Hw]; [done|]. apply IH. by exists w.
Qed.

(** On validated records the update loop runs to its end; it leaves the
    peers it was not told about as they were, and every peer it was told
    about ends up in the table with [last_seen] read from the clock during
    the loop. *)
Lemma update_loop_spec self clock l : ∀ nodes k0,
  Forall (λ v, _validate_node_data self v = Valid) l →
  ∃ nodes',
    update_loop nodes l clock k0 = (nodes', true)
    ∧ (∀ id, ¬ names id l → nodes' !! id = nodes !! id)
    ∧ (∀ id, names id l →
         ∃ node k, k0 ≤ k < k0 + length l
                   ∧ nodes' !! id = Some node
                   ∧ Core.last_seen node = clock k).
Proof.
  induction l as [|v l IH]; intros nodes k0 Hvalid.
  - exists nodes. split; [done|]. split; [done|].
    intros id (v & Hv & _). by apply not_elem_of_nil in Hv.
  - apply Forall_cons in Hvalid as [Hv Hvalid].
    destruct (valid_record self v (clock k0) Hv) as (vid & node & Hid & Hnew & Hls).
    simpl. rewrite Hid.
    set (nodes1 := match nodes !! vid with
                   | Some old => <[vid := touch old (clock k0)]> nodes
                   | None => <[vid := node]> nodes
                   end).
    assert (Hstep : update_loop nodes (v :: l) clock k0
                    = update_loop nodes1 l clock (S k0)).
    { simpl. rewrite Hid. unfold nodes1.
      destruct (nodes !! vid); [done|]. by rewrite Hnew. }
    simpl in Hstep. rewrite Hid in Hstep. rewrite Hstep.
    assert (Hvid : ∃ n1, nodes1 !! vid = Some n1
                         ∧ Core.last_seen n1 = clock k0).
    { unfold nodes1. destruct (nodes !! vid) as [old|].
      - exists (touch old (clock k0)). by rewrite lookup_insert_eq.
      - exists node. by rewrite lookup_insert_eq. }
    assert (Hother : ∀ id, id ≠ vid → nodes1 !! id = nodes !! id).
    { intros id Hne. unfold nodes1.
      destruct (nodes !! vid); by rewrite lookup_insert_ne. }
    destruct (IH nodes1 (S k0) Hvalid) as (nodes' & Hloop & Hkeep & Hnew').
    exists nodes'. split; [done|]. split.
    + intros id Hnot. rewrite Hkeep.
      * apply Hother. intros ->. apply Hnot. exists v.
        split; [apply list_elem_of_here | done].
      * intros (w & Hw & Hwid). apply Hnot. exists w.
        split; [by apply list_elem_of_further | done].
    + intros id Hname. destruct (names_dec id l) as [Hin|Hnot].
      * destruct (Hnew' id Hin) as (n1 & k & Hk & Hl & Hs).
        exists n1, k. split; [simpl; lia | done].
      * destruct Hname as (w & Hw & Hwid).
        apply elem_of_cons in Hw as [->|Hw]; [|destruct Hnot; by exists w].
        assert (id = vid) as -> by congruence.
        destruct Hvid as (n1 & Hl & Hs).
        exists n1, k0. split; [simpl; lia|].
        split; [|done]. etrans; [by apply Hkeep | exact Hl].
Qed.

Lemma lookup_fold_delete {A} (l : list string) id : ∀ m : gmap string A,
  fold_left (λ nodes node_id, delete node_id nodes) l m !! id
  = if decide (id ∈ l) then None else m !! id.
Proof.
  induction l as [|a l IH]; intros m.
  - destruct (decide (id ∈ [])) as [H|_];
      [by apply not_elem_of_nil in H | done].
  - cbn [fold_left]. rewrite IH.
    destruct (decide (id ∈ l)) as [Hin|Hout],
             (decide (id ∈ a :: l)) as [Hin'|Hout']; try done.
    + destruct Hout'. by apply list_elem_of_further.
    + apply elem_of_cons in Hin' as [->|?]; [apply lookup_delete_eq | done].
    + apply lookup_delete_ne. intros ->. apply Hout', list_elem_of_here.
Qed.

Lemma is_stale_spec now node : is_stale now node = true ↔ older_than_ttl now node.
Proof.
  unfold is_stale, older_than_ttl, stale_threshold.
  rewrite negb_true_iff, <- not_true_iff_false, Qle_bool_iff.
  split; [apply Qnot_le_lt | apply Qlt_not_le].
Qed.

(** The clean-up removes exactly the stale peers. *)
Lemma cleanup_lookup self now id :
  mesh_nodes (_cleanup_stale_nodes self now) !! id
  = match mesh_nodes self !! id with
    | Some node => if is_stale now node then None else Some node
    | None => None
    end.
Proof.
  unfold _cleanup_stale_nodes. simpl. rewrite lookup_fold_delete.
  set (stale := (List.filter _ _).*1).
  assert (Hstale : id ∈ stale ↔
            ∃ node, mesh_nodes self !! id = Some node
                    ∧ is_stale now node = true).
  { unfold stale. rewrite list_elem_of_fmap. split.
    - intros ([id' node] & -> & Hin). apply list_elem_of_In, filter_In in Hin as [Hin Hs].
      apply list_elem_of_In, elem_of_map_to_list in Hin. by exists node.
    - intros (node & Hl & Hs). exists (id, node). split; [done|].
      apply list_elem_of_In, filter_In. split; [|done].
      by apply list_elem_of_In, elem_of_map_to_list. }
  destruct (decide (id ∈ stale)) as [Hin|Hout].
  - apply Hstale in Hin as (node & -> & ->). done.
  - destruct (mesh_nodes self !! id) as [node|] eqn:Hl; [|done].
    destruct (is_stale now node) eqn:Hs; [|done].
    destruct Hout. apply Hstale. by exists node.
Qed.

(** Neither datagram the program sends passes the validation of a
    receiver. *)
Lemma emitted_rejected self resp :
  emitted resp → ∃ v, resp = Decoded v ∧ _validate_node_data self v = Invalid.
Proof.
  intros [(sender & node & timestamp & ->)|(sender & timestamp & ->)];
    eexists; split; reflexivity.
Qed.

Lemma discover_loop_emitted self responses : ∀ acc,
  Forall emitted responses → discover_loop self responses acc = acc.
Proof.
  induction responses as [|resp rest IH]; intros acc Hall; [done|].
  apply Forall_cons in Hall as [Hresp Hrest].
  destruct (emitted_rejected self resp Hresp) as (v & -> & Hv).
  simpl. rewrite Hv. by apply IH.
Qed.

(** C8: after a discovery tick, no peer shown by the status view has a
    [last_seen] more than 60 seconds before the clock reading of the
    clean-up, and a peer named by no record of the pass is removed if it is
    that old and kept unchanged otherwise.  A peer named by a record that
    the pass returned is in the table with [last_seen] read during the tick
    (the clock readings of the tick lying within 60 seconds of the
    clean-up).  But the datagrams the program itself sends never yield a
    record: in a window made of advertisements and discovery requests the
    pass returns nothing, so a peer that advertises itself during the tick
    is not refreshed; it is evicted once its [last_seen] is more than 60
    seconds old and keeps its old [last_seen] otherwise, and no new peer is
    learnt. *)
Theorem discovery_tick_evicts_stale self responses clock :
  let self' := _run_node_discovery self responses clock in
  let n := length (discover_nodes (node_discovery self) responses) in
  let now := clock n in
  (∀ id node, observable self' id = Some node → ¬ older_than_ttl now node)
  ∧ (∀ id node,
       mesh_nodes self !! id = Some node → ¬ recorded self responses id →
       (older_than_ttl now node → observable self' id = None)
       ∧ (¬ older_than_ttl now node → observable self' id = Some node))
  ∧ ((∀ k, k < n → (now - clock k <= 60)%Q) →
     ∀ id, recorded self responses id →
       ∃ node k, k < n ∧ observable self' id = Some node
                 ∧ Core.last_seen node = clock k)
  ∧ (Forall emitted responses →
     n = 0
     ∧ (∀ id, mesh_nodes self !! id = None → observable self' id = None)
     ∧ ∀ id node,
         mesh_nodes self !! id = Some node →
         (older_than_ttl (clock 0) node → observable self' id = None)
         ∧ (¬ older_than_ttl (clock 0) node
            → observable self' id = Some node)).
Proof.
  intros self' n now.
  destruct (update_loop_spec (node_discovery self) clock
              (discover_nodes (node_discovery self) responses)
              (mesh_nodes self) 0 (discover_nodes_valid _ _))
    as (nodes' & Hloop & Hkeep & Hnew).
  assert (Hobs : ∀ id, observable self' id
                       = match nodes' !! id with
                         | Some node => if is_stale now node then None
                                        else Some node
                         | None => None
                         end).
  { intros id. unfold observable, get_mesh_status, self', _run_node_discovery.
    simpl. rewrite Hloop. apply cleanup_lookup. }
  assert (Hunrecorded : ∀ id node,
            mesh_nodes self !! id = Some node → ¬ recorded self responses id →
            (older_than_ttl now node → observable self' id = None)
            ∧ (¬ older_than_ttl now node → observable self' id = Some node)).
  { intros id node Hl Hnot. rewrite Hobs, (Hkeep id Hnot), Hl. split.
    - intros Hold. apply is_stale_spec in Hold. by rewrite Hold.
    - intros Hfresh. destruct (is_stale now node) eqn:Hs; [|done].
      by apply is_stale_spec in Hs. }
  split; [|split; [exact Hunrecorded|split]].
  - intros id node. rewrite Hobs.
    destruct (nodes' !! id) as [node'|]; [|done].
    destruct (is_stale now node') eqn:Hs; [done|].
    intros [= <-] Hold. apply is_stale_spec in Hold. congruence.
  - intros Hclock id Hre.
    destruct (Hnew id Hre) as (node & k & Hk & Hl & Hs).
    exists node, k. split; [unfold n; lia|]. split; [|done].
    rewrite Hobs, Hl.
    destruct (is_stale now node) eqn:Hst; [|done].
    apply is_stale_spec in Hst. unfold older_than_ttl in Hst.
    rewrite Hs in Hst. exfalso.
    apply (Qlt_not_le _ _ Hst), Hclock. unfold n. lia.
  - intros Hemitted.
    assert (Hnone : discover_nodes (node_discovery self) responses = []).
    { unfold discover_nodes. by apply discover_loop_emitted. }
    assert (Hn : n = 0) by (unfold n; by rewrite Hnone).
    assert (Hnot : ∀ id, ¬ recorded self responses id).
    { intros id (v & Hv & _). rewrite Hnone in Hv.
      by apply not_elem_of_nil in Hv. }
    split; [exact Hn|]. split.
    + intros id Hl. by rewrite Hobs, (Hkeep id (Hnot id)), Hl.
    + intros id node Hl.
      destruct (Hunrecorded id node Hl (Hnot id)) as [Hold Hfresh].
      unfold now in Hold, Hfresh. rewrite Hn in Hold, Hfresh. by split.
Qed.

(** The failing input: the two known peers advertise themselves during the
    tick at time 1000.  The one last seen at 880 is evicted all the same,
    and the one last seen at 990 stays with [last_seen] 990. *)
Lemma discovery_tick_evicts_stale_witness :
  let self' := _run_node_discovery Examples.two_peers Examples.advertisements
                                   Examples.at_1000 in
  readvertised Examples.advertisements "stale-node"
  ∧ readvertised Examples.advertisements "fresh-node"
  ∧ observable self' "stale-node" = None
  ∧ observable self' "fresh-node"
    = Some (Examples.peer_seen_at "fresh-node" 990).
Proof.
  intros self'.
  assert (Hemitted : Forall emitted Examples.advertisements).
  { constructor; [left; by eexists _, _, _|].
    constructor; [left; by eexists _, _, _|]. constructor. }
  destruct (discovery_tick_evicts_stale Examples.two_peers
              Examples.advertisements Examples.at_1000)
    as (_ & _ & _ & Hbug).
  destruct (Hbug Hemitted) as (_ & _ & Hknown).
  split; [|split; [|split]].
  - exists NodeDiscovery.__init__, Examples.stale_node, 999%Q.
    split; [apply list_elem_of_here | reflexivity].
  - exists NodeDiscovery.__init__, Examples.fresh_node, 999%Q.
    split; [apply list_elem_of_further, list_elem_of_here | reflexivity].
  - apply (Hknown "stale-node" (Examples.peer_seen_at "stale-node" 880));
      reflexivity.
  - apply (Hknown "fresh-node" (Examples.peer_seen_at "fresh-node" 990));
      [reflexivity | discriminate].
Defined.

End Eviction.

(* ===================================================================== *)
(** * Further properties *)
(* ===================================================================== *)

(** ** Link aggregator: bounds kept by every operation *)

Section AggregatorBounds.
Import LinkAggregator AggregatorSpec AggregatorOps.

Lemma deque_append_length {A} (q : deque A) x :
  length (items (deque_append q x)) ≤ S (length (items q)).
Proof.
  unfold deque_append. destruct (Nat.eqb (maxlen q) 0); [lia|].
  destruct (Nat.ltb _ _); simpl; rewrite length_app; simpl.
  - lia.
  - destruct (items q); simpl; lia.
Qed.

Lemma calculate_weights_frame s s' :
  _calculate_weights s = Some s' →
  packet_queues s' = packet_queues s
  ∧ max_queue_size s' = max_queue_size s
  ∧ performance_history s' = performance_history s
  ∧ performance_window s' = performance_window s
  ∧ active_connections s' = active_connections s.
Proof.
  unfold _calculate_weights.
  destruct (weights_loop _ _ _) as [[total w]|]; [|discriminate].
  by intros [= <-].
Qed.

Lemma optimize_aggregation_frame s local_node :
  packet_queues (optimize_aggregation s local_node) = packet_queues s
  ∧ max_queue_size (optimize_aggregation s local_node) = max_queue_size s
  ∧ performance_history (optimize_aggregation s local_node)
    = performance_history s
  ∧ performance_window (optimize_aggregation s local_node)
    = performance_window s.
Proof.
  unfold optimize_aggregation.
  destruct (_calculate_weights _) as [s2|] eqn:E; [|done].
  apply calculate_weights_frame in E as (H1 & H2 & H3 & H4 & _).
  simpl in H1, H2, H3, H4.
  unfold _adjust_aggregation_mode.
  destruct (length _) as [|[|n]]; simpl; by rewrite H1, H2, H3, H4.
Qed.

Lemma queue_packet_frame s packet_data interface r :
  max_queue_size (queue_packet s packet_data interface r).2 = max_queue_size s
  ∧ performance_history (queue_packet s packet_data interface r).2
    = performance_history s
  ∧ performance_window (queue_packet s packet_data interface r).2
    = performance_window s.
Proof.
  unfold queue_packet.
  destruct (match interface with Some _ => _ | None => _ end) as [i|]; [|done].
  destruct (String.eqb i ""); [done|].
  destruct (dict_get (packet_queues s) i) as [q|]; [|done].
  destruct (Nat.leb _ _); [done|]. cbv zeta. simpl.
  by destruct (dict_get (active_connections s) i).
Qed.

Lemma get_packet_frame s interface :
  max_queue_size (get_packet_from_queue s interface).2 = max_queue_size s
  ∧ performance_history (get_packet_from_queue s interface).2
    = performance_history s
  ∧ performance_window (get_packet_from_queue s interface).2
    = performance_window s
  ∧ active_connections (get_packet_from_queue s interface).2
    = active_connections s.
Proof.
  unfold get_packet_from_queue.
  destruct (dict_get (packet_queues s) interface) as [q|]; [|done].
  by destruct (deque_popleft q) as [[p q']|].
Qed.

Lemma queues_bounded_queue_packet s packet_data interface r :
  queues_bounded s →
  queues_bounded (queue_packet s packet_data interface r).2.
Proof.
  intros Hb j qj.
  destruct (queue_packet_frame s packet_data interface r) as (-> & _).
  unfold queue_packet.
  destruct (match interface with Some _ => _ | None => _ end) as [i|];
    [|apply Hb].
  destruct (String.eqb i ""); [apply Hb|].
  destruct (dict_get (packet_queues s) i) as [q|] eqn:Hq; [|apply Hb].
  destruct (Nat.leb_spec (max_queue_size s) (length (items q))) as [|Hroom];
    [apply Hb|].
  cbv zeta. simpl.
  assert (Hj : dict_get (dict_set (packet_queues s) i
                                  (deque_append q packet_data)) j = Some qj
               → length (items qj) ≤ max_queue_size s).
  { destruct (decide (j = i)) as [->|Hne].
    - rewrite dict_get_set_eq. intros [= <-].
      pose proof (deque_append_length q packet_data). lia.
    - rewrite (dict_get_set_ne _ _ _ _ Hne). apply Hb. }
  by destruct (dict_get (active_connections s) i).
Qed.

Lemma queues_bounded_get_packet s interface :
  queues_bounded s → queues_bounded (get_packet_from_queue s interface).2.
Proof.
  intros Hb j qj.
  destruct (get_packet_frame s interface) as (-> & _).
  unfold get_packet_from_queue.
  destruct (dict_get (packet_queues s) interface) as [q|] eqn:Hq; [|apply Hb].
  unfold deque_popleft. destruct (items q) as [|p rest] eqn:Hi; [apply Hb|].
  simpl. destruct (decide (j = interface)) as [->|Hne].
  - rewrite dict_get_set_eq. intros [= <-]. simpl.
    pose proof (Hb _ _ Hq) as Hlen. rewrite Hi in Hlen. simpl in Hlen. lia.
  - rewrite (dict_get_set_ne _ _ _ _ Hne). apply Hb.
Qed.

Lemma monitor_loop_bounded window conns : ∀ history,
  (∀ i h, dict_get history i = Some h → length h ≤ window) →
  ∀ i h, dict_get (monitor_loop history window conns) i = Some h →
         length h ≤ window.
Proof.
  induction conns as [|[iface info] conns IH]; intros history Hb; [done|].
  simpl. destruct (dict_get history iface) as [h0|] eqn:Hh; [|by apply IH].
  apply IH. intros i h. destruct (decide (i = iface)) as [->|Hne].
  - rewrite dict_get_set_eq. intros [= <-].
    pose proof (Hb _ _ Hh) as Hlen.
    destruct (Nat.ltb_spec window (length (h0 ++ [(bandwidth info, latency info)])))
      as [Hlong|Hshort]; [|done].
    rewrite length_app in Hlong. simpl in Hlong.
    destruct h0; simpl in *; [lia|]. rewrite length_app. simpl. lia.
  - rewrite (dict_get_set_ne _ _ _ _ Hne). apply Hb.
Qed.

Lemma step_bounded s o :
  queues_bounded s ∧ histories_bounded s →
  queues_bounded (step s o) ∧ histories_bounded (step s o).
Proof.
  intros [Hq Hh]. destruct o as [p i r|i|n|]; simpl.
  - split; [by apply queues_bounded_queue_packet|].
    intros j h. destruct (queue_packet_frame s p i r) as (_ & -> & ->).
    apply Hh.
  - split; [by apply queues_bounded_get_packet|].
    intros j h. destruct (get_packet_frame s i) as (_ & -> & -> & _).
    apply Hh.
  - destruct (optimize_aggregation_frame s n) as (Hpq & Hm & Hph & Hw).
    split.
    + intros j q. rewrite Hpq, Hm. apply Hq.
    + intros j h. rewrite Hph, Hw. apply Hh.
  - split; [exact Hq|].
    intros j h. simpl. by apply monitor_loop_bounded.
Qed.

(** However the aggregator is driven (enqueue, dequeue, optimisation tick,
    monitoring pass, in any order and with any arguments), no send queue
    grows beyond [max_queue_size] and no performance history beyond
    [performance_window], if that was so at the start. *)
Theorem run_keeps_bounds ops : ∀ s,
  queues_bounded s → histories_bounded s →
  queues_bounded (run s ops) ∧ histories_bounded (run s ops).
Proof.
  unfold run. induction ops as [|o ops IH]; intros s Hq Hh; [done|].
  simpl. destruct (step_bounded s o (conj Hq Hh)) as [Hq' Hh'].
  by apply IH.
Qed.


(** *** What [initialize] sets up *)

Lemma initialize_loop_frame local_node l : ∀ s,
  max_queue_size (initialize_loop s local_node l) = max_queue_size s
  ∧ performance_window (initialize_loop s local_node l)
    = performance_window s.
Proof.
  induction l as [|j l IH]; intros s; [done|].
  simpl. destruct (IH (set_history
    (set_queues (set_connections s
       (dict_set (active_connections s) j
          {| bandwidth := get0 (Core.bandwidth local_node) j;
             latency := get0 (Core.latency local_node) j;
             data_cap := get0 (Core.data_caps local_node) j;
             active := true; packet_count := 0; bytes_sent := 0 |}))
       (dict_set (packet_queues s) j (deque_new (max_queue_size s))))
    (dict_set (performance_history s) j []))) as [-> ->]. done.
Qed.

Lemma initialize_loop_entries local_node l : ∀ s i,
  let s' := initialize_loop s local_node l in
  (i ∈ l →
     dict_get (active_connections s') i = Some (fresh_info local_node i)
     ∧ dict_get (packet_queues s') i = Some (deque_new (max_queue_size s))
     ∧ dict_get (performance_history s') i = Some [])
  ∧ (i ∉ l →
     dict_get (active_connections s') i = dict_get (active_connections s) i
     ∧ dict_get (packet_queues s') i = dict_get (packet_queues s) i
     ∧ dict_get (performance_history s') i
       = dict_get (performance_history s) i).
Proof.
  induction l as [|j l IH]; intros s i s'.
  - split; [intros H; by apply not_elem_of_nil in H | done].
  - unfold s'. simpl.
    set (s3 := set_history _ _).
    destruct (IH s3 i) as [Hin Hout].
    assert (Hhere : i = j →
              dict_get (active_connections s3) i = Some (fresh_info local_node i)
              ∧ dict_get (packet_queues s3) i
                = Some (deque_new (max_queue_size s))
              ∧ dict_get (performance_history s3) i = Some []).
    { intros ->. unfold s3. simpl. by rewrite !dict_get_set_eq. }
    assert (Hthere : i ≠ j →
              dict_get (active_connections s3) i
              = dict_get (active_connections s) i
              ∧ dict_get (packet_queues s3) i = dict_get (packet_queues s) i
              ∧ dict_get (performance_history s3) i
                = dict_get (performance_history s) i).
    { intros Hne. unfold s3. simpl. by rewrite !dict_get_set_ne. }
    split.
    + intros Hi. destruct (decide (i ∈ l)) as [Hl|Hl].
      * apply Hin in Hl. exact Hl.
      * destruct (Hout Hl) as (-> & -> & ->).
        apply elem_of_cons in Hi as [->|Hi]; [by apply Hhere | done].
    + intros Hi. apply not_elem_of_cons in Hi as [Hne Hl].
      destruct (Hout Hl) as (-> & -> & ->). by apply Hthere.
Qed.

(** [initialize] gives every interface of the node an entry that is active,
    carries the node's figures for it (0 where the node has none) and zeroed
    counters, together with an empty send queue of capacity
    [max_queue_size] and an empty history: initialising again resets the
    counters and discards what was queued. *)
Theorem initialize_registers_connections s local_node i :
  i ∈ Core.connections local_node →
  let s' := state_of (initialize s local_node) in
  dict_get (active_connections s') i = Some (fresh_info local_node i)
  ∧ dict_get (packet_queues s') i = Some (deque_new (max_queue_size s))
  ∧ dict_get (performance_history s') i = Some [].
Proof.
  intros Hi s'.
  destruct (initialize_loop_entries local_node (Core.connections local_node)
              s i) as [Hin _].
  specialize (Hin Hi). unfold s', initialize.
  destruct (_calculate_weights _) as [s2|] eqn:E; simpl; [|exact Hin].
  apply calculate_weights_frame in E as (-> & _ & -> & _ & ->). exact Hin.
Qed.

Lemma initialize_registers_connections_witness :
  "wlan0" ∈ Core.connections Examples.sample_node
  ∧ dict_get (active_connections Examples.sample_aggregator) "wlan0"
    = Some (mkConnInfo 50 25 0 true 0 0)
  ∧ dict_get (packet_queues Examples.sample_aggregator) "wlan0"
    = Some (deque_new 1000).
Proof.
  assert (Hi : "wlan0" ∈ Core.connections Examples.sample_node).
  { apply list_elem_of_further, list_elem_of_here. }
  split; [exact Hi|].
  destruct (initialize_registers_connections __init__ Examples.sample_node
              "wlan0" Hi) as (H1 & H2 & _).
  split; [exact H1 | exact H2].
Defined.

Lemma initialize_bounds s local_node :
  queues_bounded s → histories_bounded s →
  queues_bounded (state_of (initialize s local_node))
  ∧ histories_bounded (state_of (initialize s local_node)).
Proof.
  intros Hq Hh.
  assert (Hframe : max_queue_size (state_of (initialize s local_node))
                   = max_queue_size s
                   ∧ performance_window (state_of (initialize s local_node))
                     = performance_window s
                   ∧ packet_queues (state_of (initialize s local_node))
                     = packet_queues (initialize_loop s local_node
                                        (Core.connections local_node))
                   ∧ performance_history (state_of (initialize s local_node))
                     = performance_history (initialize_loop s local_node
                                              (Core.connections local_node))).
  { unfold initialize.
    destruct (initialize_loop_frame local_node
                (Core.connections local_node) s) as [Hm Hw].
    destruct (_calculate_weights _) as [s2|] eqn:E; simpl; [|done].
    apply calculate_weights_frame in E as (-> & -> & -> & -> & _). done. }
  destruct Hframe as (Hm & Hw & Hpq & Hph).
  split.
  - intros i q. rewrite Hm, Hpq.
    destruct (initialize_loop_entries local_node
                (Core.connections local_node) s i) as [Hin Hout].
    destruct (decide (i ∈ Core.connections local_node)) as [Hi|Hi].
    + destruct (Hin Hi) as (_ & -> & _). intros [= <-]. simpl. lia.
    + destruct (Hout Hi) as (_ & -> & _). apply Hq.
  - intros i h. rewrite Hw, Hph.
    destruct (initialize_loop_entries local_node
                (Core.connections local_node) s i) as [Hin Hout].
    destruct (decide (i ∈ Core.connections local_node)) as [Hi|Hi].
    + destruct (Hin Hi) as (_ & _ & ->). intros [= <-]. simpl. lia.
    + destruct (Hout Hi) as (_ & _ & ->). apply Hh.
Qed.

Lemma bounds_sample :
  queues_bounded Examples.sample_aggregator
  ∧ histories_bounded Examples.sample_aggregator.
Proof.
  apply initialize_bounds; intros i x H; discriminate H.
Qed.

Lemma run_keeps_bounds_witness :
  queues_bounded Examples.sample_aggregator
  ∧ histories_bounded Examples.sample_aggregator
  ∧ queues_bounded (run Examples.sample_aggregator Examples.session)
  ∧ dict_get (packet_queues (run Examples.sample_aggregator Examples.session))
             "eth0"
    = Some (Deque [Examples.test_packet] 1000).
Proof.
  destruct bounds_sample as [Hq Hh].
  split; [exact Hq|]. split; [exact Hh|].
  split; [|vm_compute; reflexivity].
  exact (proj1 (run_keeps_bounds Examples.session _ Hq Hh)).
Defined.

End AggregatorBounds.

(** ** Link aggregator: accounting and selection *)

Section AggregatorSelection.
Import LinkAggregator AggregatorSpec AggregatorOps.
Local Open Scope Q_scope.

(** Payloads enqueued on an interface while its queue has room are all
    counted: [packet_count] grows by their number and [bytes_sent] by their
    total length; the link figures of the interface are left alone. *)
Theorem enqueue_all_accounting packets : ∀ s i q c,
  queues_inv s → i ≠ "" →
  dict_get (packet_queues s) i = Some q →
  dict_get (active_connections s) i = Some c →
  (length (items q) + length packets ≤ max_queue_size s)%nat →
  ∃ c', dict_get (active_connections (enqueue_all s i packets).2) i = Some c'
        ∧ packet_count c' = (packet_count c + length packets)%nat
        ∧ bytes_sent c' = (bytes_sent c + total_bytes packets)%nat
        ∧ bandwidth c' = bandwidth c ∧ latency c' = latency c
        ∧ active c' = active c.
Proof.
  induction packets as [|p rest IH]; intros s i q c Hinv Hne Hq Hc Hlen.
  - exists c. simpl. rewrite !Nat.add_0_r. by repeat split.
  - simpl in Hlen.
    destruct (queue_packet_success s p (Some i) 0 i q)
      as (s1 & Hs1 & (q0 & Hq0 & Hq1) & (c0 & Hc0 & Hc1) & _ & _ & _ & _ & _
          & _ & Hm);
      [done | done | done | done | lia |].
    rewrite Hq in Hq0. injection Hq0 as <-.
    rewrite Hc in Hc0. injection Hc0 as <-.
    assert (Hinv1 : queues_inv s1).
    { pose proof (queues_inv_queue_packet s p (Some i) 0 Hinv) as H.
      by rewrite Hs1 in H. }
    destruct (IH s1 i _ _ Hinv1 Hne Hq1 Hc1)
      as (c' & Hc' & Hpc & Hbs & Hb & Hl & Ha).
    { simpl. rewrite length_app, Hm. simpl. lia. }
    exists c'. simpl. rewrite Hs1.
    destruct (enqueue_all s1 i rest) as [oks s2]. simpl in *.
    split; [done|]. rewrite Hpc, Hbs. repeat split; try done; lia.
Qed.

Lemma enqueue_all_accounting_witness :
  ∃ c', dict_get (active_connections
                    (enqueue_all Examples.sample_aggregator "eth0"
                                 Examples.two_packets).2) "eth0" = Some c'
        ∧ packet_count c' = 2%nat ∧ bytes_sent c' = 14%nat.
Proof.
  destruct (enqueue_all_accounting Examples.two_packets
              Examples.sample_aggregator "eth0" (deque_new 1000)
              (mkConnInfo 100 10 0 true 0 0))
    as (c' & Hc' & Hpc & Hbs & _).
  - exact queues_inv_sample.
  - done.
  - reflexivity.
  - reflexivity.
  - vm_compute. lia.
  - exists c'. split; [exact Hc'|]. split; [exact Hpc | exact Hbs].
Defined.

(** *** Selection finds a candidate whenever there is one *)

Lemma last_cons_is_Some {A} (x : A) l : ∃ y, last (x :: l) = Some y.
Proof.
  revert x. induction l as [|z l IH]; intros x; [by exists x|].
  destruct (IH z) as [y Hy]. exists y. by rewrite last_cons_cons.
Qed.

Lemma weighted_random_selection_None s r :
  _weighted_random_selection s r = None ↔ ∀ i, ¬ candidate s i.
Proof.
  split.
  - intros Hnone i (c & Hin & Ha & Hw).
    unfold _weighted_random_selection in Hnone.
    set (P := λ kv : string * ConnInfo,
           active kv.2 = true
           ∧ negb (Qle_bool (get0 (connection_weights s) kv.1) 0) = true)
      in Hnone.
    assert (Hc : i ∈ (filter P (active_connections s)).*1).
    { apply list_elem_of_fmap. exists (i, c). split; [done|].
      apply list_elem_of_filter. split; [|done]. split; [done|]. simpl.
      apply negb_true_iff, not_true_iff_false. intros Hle.
      apply Qle_bool_iff in Hle. exact (Qlt_not_le _ _ Hw Hle). }
    destruct ((filter P (active_connections s)).*1) as [|first rest] eqn:Hl.
    { by apply not_elem_of_nil in Hc. }
    destruct (Qeq_bool _ 0); [done|].
    destruct (weighted_scan _ _ _ _); [done|].
    destruct (last_cons_is_Some first rest) as [y Hy]. congruence.
  - intros Hnone. destruct (_weighted_random_selection s r) as [i|] eqn:E;
      [|done].
    apply weighted_random_selection_sound in E as [(c & Hin & Ha) Hw].
    destruct (Hnone i). by exists c.
Qed.

(** In [load_balance] mode selection fails exactly when no interface is
    both active and of positive weight; otherwise it returns such an
    interface, whatever the random draw. *)
Theorem load_balance_selection_complete s packet_size r :
  aggregation_mode s = "load_balance" →
  (select_connection s packet_size r = None ↔ ∀ i, ¬ candidate s i)
  ∧ (∀ i, select_connection s packet_size r = Some i → candidate s i).
Proof.
  intros Hm.
  assert (Hsel : select_connection s packet_size r
                 = _weighted_random_selection s r).
  { unfold select_connection. rewrite Hm. simpl.
    destruct (active_connections s) eqn:Hc; [|done].
    unfold _weighted_random_selection. by rewrite Hc. }
  rewrite Hsel. split; [apply weighted_random_selection_None|].
  intros i Hi. apply weighted_random_selection_sound in Hi as [(c & Hin & Ha) Hw].
  by exists c.
Qed.

Lemma load_balance_selection_complete_witness :
  aggregation_mode Examples.unreachable_aggregator = "load_balance"
  ∧ select_connection Examples.unreachable_aggregator 100 (1 # 2) = None
  ∧ ∀ i, ¬ candidate Examples.unreachable_aggregator i.
Proof.
  assert (Hm : aggregation_mode Examples.unreachable_aggregator
               = "load_balance") by reflexivity.
  split; [exact Hm|].
  assert (Hnone : select_connection Examples.unreachable_aggregator 100 (1 # 2)
                  = None) by reflexivity.
  split; [exact Hnone|].
  by apply (proj1 (proj1 (load_balance_selection_complete _ 100%nat (1 # 2) Hm))).
Defined.

(** *** Failover mode *)

Lemma find_first {A} (p : A → bool) l :
  match List.find p l with
  | Some x => ∃ pre post, l = pre ++ x :: post ∧ p x = true
                          ∧ ∀ y, y ∈ pre → p y = false
  | None => ∀ y, y ∈ l → p y = false
  end.
Proof.
  induction l as [|a l IH]; simpl.
  - intros y Hy. by apply not_elem_of_nil in Hy.
  - destruct (p a) eqn:Hp.
    + exists [], l. split; [done|]. split; [done|].
      intros y Hy. by apply not_elem_of_nil in Hy.
    + destruct (List.find p l) as [x|].
      * destruct IH as (pre & post & -> & Hx & Hpre).
        exists (a :: pre), post. split; [done|]. split; [done|].
        intros y Hy. apply elem_of_cons in Hy as [->|Hy]; [done | by apply Hpre].
      * intros y Hy. apply elem_of_cons in Hy as [->|Hy]; [done | by apply IH].
Qed.

(** In [failover] mode selection returns the first interface, in the order
    of [active_connections], that is marked active, and nothing when none
    is. *)
Theorem failover_selects_first_active s packet_size r :
  aggregation_mode s = "failover" →
  match select_connection s packet_size r with
  | Some i =>
      ∃ pre c post,
        active_connections s = pre ++ (i, c) :: post ∧ active c = true
        ∧ ∀ kv, kv ∈ pre → active kv.2 = false
  | None => ∀ kv, kv ∈ active_connections s → active kv.2 = false
  end.
Proof.
  intros Hm. unfold select_connection. rewrite Hm. simpl.
  destruct (active_connections s) as [|kv0 conns] eqn:Hc.
  { intros kv Hkv. by apply not_elem_of_nil in Hkv. }
  rewrite <- Hc.
  pose proof (find_first (λ kv : string * ConnInfo, active kv.2)
                         (active_connections s)) as Hf.
  destruct (List.find _ (active_connections s)) as [[i c]|]; simpl.
  - destruct Hf as (pre & post & Heq & Ha & Hpre). by exists pre, c, post.
  - exact Hf.
Qed.

Lemma failover_selects_first_active_witness :
  aggregation_mode (set_mode Examples.sample_aggregator "failover")
  = "failover"
  ∧ select_connection (set_mode Examples.sample_aggregator "failover") 0 0
    = Some "eth0".
Proof.
  split; [reflexivity|].
  pose proof (failover_selects_first_active
                (set_mode Examples.sample_aggregator "failover") 0 0 eq_refl)
    as H.
  destruct (select_connection _ _ _) as [i|] eqn:E.
  - destruct H as (pre & c & post & Heq & _ & Hpre).
    destruct pre as [|kv pre].
    + vm_compute in Heq. by injection Heq as <-.
    + vm_compute in Heq. injection Heq as <- _.
      specialize (Hpre _ (list_elem_of_here _ _)). discriminate Hpre.
  - specialize (H ("eth0", mkConnInfo 100 10 0 true 0 0)
                  (list_elem_of_here _ _)).
    discriminate H.
Defined.

End AggregatorSelection.

(** ** Link aggregator: adaptive mode, optimisation tick, weights *)

Section AggregatorOptimisation.
Import LinkAggregator AggregatorSpec AggregatorOps.
Local Open Scope Q_scope.

Lemma py_min_by_lower {A} (key : A → Q) l : ∀ best x,
  x ∈ best :: l → key (py_min_by key best l) <= key x.
Proof.
  induction l as [|y l IH]; intros best x Hx; simpl.
  - apply list_elem_of_singleton in Hx as ->. apply Qle_refl.
  - destruct (Qle_bool (key best) (key y)) eqn:Hle; simpl.
    + apply Qle_bool_iff in Hle.
      apply elem_of_cons in Hx as [->|Hx]; [apply IH, list_elem_of_here|].
      apply elem_of_cons in Hx as [->|Hx].
      * eapply Qle_trans; [apply IH, list_elem_of_here | exact Hle].
      * by apply IH, list_elem_of_further.
    + assert (Hlt : key y < key best).
      { apply Qnot_le_lt. intros H. apply Qle_bool_iff in H. congruence. }
      apply elem_of_cons in Hx as [->|Hx].
      * eapply Qle_trans; [apply IH, list_elem_of_here | apply Qlt_le_weak, Hlt].
      * apply IH, Hx.
Qed.

(** In [adaptive] mode, for a non-empty packet, selection returns an active
    interface that no other active interface beats: none has more bandwidth
    when the packet is larger than 1000 bytes, none has less latency
    otherwise.  It returns nothing only when no interface is active. *)
Theorem adaptive_selection_optimal s packet_size r :
  wf (active_connections s) →
  aggregation_mode s = "adaptive" → packet_size ≠ 0%nat →
  match select_connection s packet_size r with
  | Some i =>
      ∃ c, (i, c) ∈ active_connections s ∧ active c = true
           ∧ ∀ j d, (j, d) ∈ active_connections s → active d = true →
               if Nat.ltb 1000 packet_size
               then bandwidth d <= bandwidth c
               else latency c <= latency d
  | None => ∀ kv, kv ∈ active_connections s → active kv.2 = false
  end.
Proof.
  intros Hwf Hm Hsize.
  assert (Hsel : select_connection s packet_size r
                 = _adaptive_selection s packet_size r).
  { unfold select_connection. rewrite Hm. simpl.
    destruct (active_connections s) eqn:Hc; [|done].
    unfold _adaptive_selection. rewrite Hc.
    by destruct (Nat.eqb_spec packet_size 0). }
  rewrite Hsel. unfold _adaptive_selection.
  destruct (Nat.eqb_spec packet_size 0) as [|_]; [done|].
  set (cands := (filter (λ kv : string * ConnInfo, active kv.2 = true)
                        (active_connections s)).*1).
  assert (Hcand : ∀ j, j ∈ cands ↔
            ∃ d, (j, d) ∈ active_connections s ∧ active d = true).
  { intros j. unfold cands. rewrite list_elem_of_fmap. split.
    - intros ([j' d] & -> & Hin). apply list_elem_of_filter in Hin as [Ha Hin].
      by exists d.
    - intros (d & Hin & Ha). exists (j, d). split; [done|].
      by apply list_elem_of_filter. }
  assert (Hbw : ∀ j d, (j, d) ∈ active_connections s →
                       bandwidth_of s j = bandwidth d).
  { intros j d Hin. unfold bandwidth_of. by rewrite (dict_get_elem _ _ _ Hwf Hin). }
  assert (Hlat : ∀ j d, (j, d) ∈ active_connections s →
                        latency_of s j = latency d).
  { intros j d Hin. unfold latency_of. by rewrite (dict_get_elem _ _ _ Hwf Hin). }
  destruct cands as [|x rest] eqn:Hc.
  { intros [j d] Hin. destruct (active d) eqn:Ha; [|done].
    assert (Hj : j ∈ []) by (apply Hcand; by exists d).
    by apply not_elem_of_nil in Hj. }
  destruct (Nat.ltb 1000 packet_size).
  - pose proof (py_max_by_elem (bandwidth_of s) rest x) as Hbest.
    apply Hcand in Hbest as (c & Hin & Ha).
    exists c. split; [done|]. split; [done|].
    intros j d Hj Hd. rewrite <- (Hbw _ _ Hj), <- (Hbw _ _ Hin).
    apply py_max_by_upper. apply Hcand. by exists d.
  - pose proof (py_min_by_elem (latency_of s) rest x) as Hbest.
    apply Hcand in Hbest as (c & Hin & Ha).
    exists c. split; [done|]. split; [done|].
    intros j d Hj Hd. rewrite <- (Hlat _ _ Hj), <- (Hlat _ _ Hin).
    apply py_min_by_lower. apply Hcand. by exists d.
Qed.

Lemma wf_sample : wf (active_connections Examples.sample_aggregator).
Proof. apply (bool_decide_unpack _). vm_compute. exact I. Qed.

Lemma adaptive_selection_optimal_witness :
  select_connection (set_mode Examples.sample_aggregator "adaptive") 2000 0
  = Some "eth0"
  ∧ ∀ j d, (j, d) ∈ active_connections Examples.sample_aggregator →
           active d = true → bandwidth d <= 100.
Proof.
  assert (E : select_connection
                (set_mode Examples.sample_aggregator "adaptive") 2000 0
              = Some "eth0") by reflexivity.
  split; [exact E|].
  pose proof (adaptive_selection_optimal
                (set_mode Examples.sample_aggregator "adaptive") 2000 0
                wf_sample eq_refl ltac:(discriminate)) as H.
  rewrite E in H. destruct H as (c & Hin & _ & Hmax).
  apply (dict_get_elem _ _ _ wf_sample) in Hin.
  vm_compute in Hin. injection Hin as <-.
  exact Hmax.
Defined.

(** *** The optimisation tick *)

Lemma update_connection_status_lookup local_node l : ∀ conns i c,
  dict_get conns i = Some c →
  dict_get (_update_connection_status_loop conns local_node l) i
  = Some (if decide (i ∈ l) then refreshed_info local_node i c else c).
Proof.
  induction l as [|j l IH]; intros conns i c Hc.
  - destruct (decide (i ∈ [])) as [H|_];
      [by apply not_elem_of_nil in H | exact Hc].
  - cbn [_update_connection_status_loop].
    destruct (decide (i = j)) as [->|Hne].
    + rewrite Hc.
      fold (refreshed_info local_node j c).
      rewrite (IH _ j (refreshed_info local_node j c))
        by apply dict_get_set_eq.
      destruct (decide (j ∈ j :: l)) as [_|Hn];
        [|destruct Hn; apply list_elem_of_here].
      by destruct (decide (j ∈ l)).
    + assert (Hdec : (if decide (i ∈ j :: l)
                      then refreshed_info local_node i c else c)
                     = (if decide (i ∈ l)
                        then refreshed_info local_node i c else c)).
      { destruct (decide (i ∈ l)) as [Hl|Hl],
                 (decide (i ∈ j :: l)) as [Hl'|Hl']; try done.
        - destruct Hl'. by apply list_elem_of_further.
        - apply elem_of_cons in Hl' as [?|?]; done. }
      rewrite Hdec.
      destruct (dict_get conns j) as [info|]; [|by apply IH].
      apply IH. by rewrite dict_get_set_ne.
Qed.

Lemma update_connection_status_keys local_node l : ∀ conns,
  keys (_update_connection_status_loop conns local_node l) = keys conns.
Proof.
  induction l as [|j l IH]; intros conns; [done|].
  simpl. destruct (dict_get conns j) as [info|] eqn:Hj; [|apply IH].
  rewrite IH. apply keys_dict_set_present. by eapply dict_get_keys.
Qed.

(** An optimisation tick refreshes bandwidth, latency and data cap of the
    interfaces the node lists, from the node's figures, and touches nothing
    else: the same interfaces remain, in the same order, with their active
    flag and their packet and byte counters, and the send queues are left as
    they are. *)
Theorem optimize_preserves_accounting s local_node i c :
  dict_get (active_connections s) i = Some c →
  let s' := optimize_aggregation s local_node in
  dict_get (active_connections s') i
  = Some (if decide (i ∈ Core.connections local_node)
          then refreshed_info local_node i c else c)
  ∧ keys (active_connections s') = keys (active_connections s)
  ∧ packet_queues s' = packet_queues s.
Proof.
  intros Hc s'.
  assert (Hconns : active_connections s'
                   = _update_connection_status_loop (active_connections s)
                       local_node (Core.connections local_node)).
  { unfold s', optimize_aggregation.
    destruct (_calculate_weights _) as [s2|] eqn:E; [|done].
    apply calculate_weights_frame in E as (_ & _ & _ & _ & Hc2).
    unfold _adjust_aggregation_mode.
    destruct (length _) as [|[|n]]; simpl; by rewrite Hc2. }
  rewrite Hconns.
  split; [by apply update_connection_status_lookup|].
  split; [apply update_connection_status_keys|].
  apply (optimize_aggregation_frame s local_node).
Qed.

Lemma optimize_preserves_accounting_witness :
  let s := (enqueue_all Examples.sample_aggregator "eth0"
                        Examples.two_packets).2 in
  dict_get (active_connections s) "eth0" = Some (mkConnInfo 100 10 0 true 2 14)
  ∧ dict_get (active_connections
                (optimize_aggregation s Examples.unreachable_node)) "eth0"
    = Some (mkConnInfo 100 1000 0 true 2 14).
Proof.
  intros s.
  assert (Hc : dict_get (active_connections s) "eth0"
               = Some (mkConnInfo 100 10 0 true 2 14)) by reflexivity.
  split; [exact Hc|].
  destruct (optimize_preserves_accounting s Examples.unreachable_node
              "eth0" _ Hc) as (H & _).
  rewrite H. reflexivity.
Defined.

Lemma active_count_filter (conns : dict ConnInfo) :
  length (filter (λ kv : string * ConnInfo, active kv.2 = true) conns)
  = length (List.filter (λ info, active info) (values conns)).
Proof.
  induction conns as [|[i c] conns IH]; [done|].
  rewrite filter_cons. unfold values in *. simpl.
  destruct (active c) eqn:Ha.
  - rewrite decide_True by done. simpl. by rewrite IH.
  - rewrite decide_False by done. exact IH.
Qed.

(** An optimisation tick that gets through the weight computation chooses
    the mode by itself: [failover] when at most one interface is active,
    [load_balance] when two or more are.  A configured [adaptive] mode does
    not survive it. *)
Theorem optimize_sets_mode s local_node s2 :
  _calculate_weights (_update_connection_status s local_node) = Some s2 →
  let s' := optimize_aggregation s local_node in
  let n := status_active_connections (get_aggregation_status s') in
  (aggregation_mode s' = "failover" ∧ (n ≤ 1)%nat)
  ∨ (aggregation_mode s' = "load_balance" ∧ (2 ≤ n)%nat).
Proof.
  intros E s' n. unfold n, s', optimize_aggregation. rewrite E.
  unfold get_aggregation_status. simpl.
  assert (Hn : ∀ m, active_connections (set_mode s2 m) = active_connections s2)
    by done.
  unfold _adjust_aggregation_mode.
  rewrite active_count_filter.
  destruct (length (List.filter _ (values (active_connections s2))))
    as [|[|k]] eqn:Hlen; simpl; rewrite Hlen.
  - left. split; [done | lia].
  - left. split; [done | lia].
  - right. split; [done | lia].
Qed.

Lemma optimize_sets_mode_witness :
  aggregation_mode
    (optimize_aggregation (set_mode Examples.sample_aggregator "adaptive")
                          Examples.sample_node)
  = "load_balance".
Proof.
  destruct (_calculate_weights
              (_update_connection_status
                 (set_mode Examples.sample_aggregator "adaptive")
                 Examples.sample_node)) as [s2|] eqn:E;
    [|vm_compute in E; discriminate E].
  destruct (optimize_sets_mode _ _ _ E) as [[Hm Hn]|[Hm _]]; [|exact Hm].
  vm_compute in Hn. lia.
Defined.

End AggregatorOptimisation.

(** ** Link aggregator: when the weight computation fails, what it yields *)

Section AggregatorWeights.
Import LinkAggregator AggregatorSpec AggregatorOps.
Local Open Scope Q_scope.

Lemma weights_loop_None conns : ∀ total weights,
  weights_loop conns total weights = None →
  ∃ i c, (i, c) ∈ conns ∧ Qualifies c ∧ latency c == 0.
Proof.
  induction conns as [|[i c] conns IH]; intros total weights; [done|].
  assert (Hrest : ∀ t w, weights_loop conns t w = None →
            ∃ i' c', (i', c') ∈ (i, c) :: conns ∧ Qualifies c'
                     ∧ latency c' == 0).
  { intros t w H. destruct (IH t w H) as (i' & c' & Hin & Hq).
    exists i', c'. split; [by apply list_elem_of_further | done]. }
  simpl. destruct (active c) eqn:Ha; simpl; [|apply Hrest].
  destruct (Qle_bool (bandwidth c) 0) eqn:Hb; simpl; [apply Hrest|].
  destruct (Qle_bool 1000 (latency c)) eqn:Hl; simpl; [apply Hrest|].
  destruct (Qeq_bool (latency c) 0) eqn:Hz; [|apply Hrest].
  intros _. exists i, c. split; [apply list_elem_of_here|].
  split; [|by apply Qeq_bool_iff].
  apply qualifies_spec. unfold qualifies. by rewrite Ha, Hb, Hl.
Qed.

Lemma weights_loop_raises conns : ∀ total weights i c,
  (i, c) ∈ conns → Qualifies c → latency c == 0 →
  weights_loop conns total weights = None.
Proof.
  induction conns as [|[j d] conns IH]; intros total weights i c Hin Hq Hz.
  - by apply not_elem_of_nil in Hin.
  - apply elem_of_cons in Hin as [[= <- <-]|Hin].
    + apply qualifies_spec in Hq. unfold qualifies in Hq.
      apply andb_true_iff in Hq as [Hq Hl].
      apply andb_true_iff in Hq as [Ha Hb].
      apply negb_true_iff in Hb, Hl. simpl. rewrite Ha, Hb, Hl. simpl.
      apply Qeq_bool_iff in Hz. by rewrite Hz.
    + simpl. destruct (negb (active d)); [by eapply IH|].
      destruct (_ || _); [by eapply IH|].
      destruct (Qeq_bool (latency d) 0); [done | by eapply IH].
Qed.

(** [_calculate_weights] raises ([ZeroDivisionError]) exactly when some
    interface that is active, has positive bandwidth and latency below 1000
    has latency 0; in every other state it completes. *)
Theorem calculate_weights_raises_iff s :
  _calculate_weights s = None
  ↔ ∃ i c, (i, c) ∈ active_connections s ∧ Qualifies c ∧ latency c == 0.
Proof.
  unfold _calculate_weights. split.
  - destruct (weights_loop _ _ _) as [[t w]|] eqn:E; [done|].
    intros _. by eapply weights_loop_None.
  - intros (i & c & Hin & Hq & Hz).
    by rewrite (weights_loop_raises _ 0 [] i c Hin Hq Hz).
Qed.

Lemma elem_le_Qsum (l : list Q) x :
  Forall (λ y, 0 <= y) l → x ∈ l → x <= Qsum l.
Proof.
  induction 1 as [|y l Hy Hall IH]; intros Hin.
  - by apply not_elem_of_nil in Hin.
  - assert (Hsum : 0 <= Qsum l).
    { clear IH Hin. induction Hall as [|z l Hz _ IH]; [apply Qle_refl|].
      change (0 <= z + Qsum l). lra. }
    change (x <= y + Qsum l).
    apply elem_of_cons in Hin as [->|Hin]; [lra|].
    specialize (IH Hin). lra.
Qed.

(** Under accurate rounding (every floating-point operation of the
    computation within relative error [u], the number of interfaces plus one
    times [u] at most 5e-7) the weight a completed computation stores for an
    interface is at least 0 and at most 1 + 1e-6, and it is positive for
    every qualifying interface: in [load_balance] mode an active qualifying
    interface is always a candidate of the weighted draw. *)
Theorem stored_weights_range (fl : Q → Q) (u : Q) (s s' : t) :
  wf (active_connections s) →
  0 <= u →
  (inject_Z (Z.of_nat (length (active_connections s))) + 1) * u
  <= 1 # 2000000 →
  Forall (accurate fl u) (roundings fl s) →
  _calculate_weights_fl fl s = Some s' →
  ∀ i c, (i, c) ∈ active_connections s →
    0 <= weight_of s' i
    ∧ weight_of s' i <= 1 + (1 # 1000000)
    ∧ (Qualifies c → 0 < weight_of s' i ∧ candidate s' i).
Proof.
  intros Hwf Hu Hbudget Hacc Hs' i c Hin.
  assert (Hu2 : u <= 1 # 2).
  { pose proof (inject_length_nonneg (active_connections s)). nra. }
  destruct (calculate_weights_fl_analysis fl u s s' Hwf Hu Hbudget Hacc Hs')
    as (Hconns & Hentries & [[Hnone Hweights]
                            |(Hsome & T & HT & Hweights & Hdiv & Hlo & Hhi)]).
  - destruct (Hentries i c Hin) as (Hget & _ & _ & Hz).
    unfold weight_of, get0. rewrite Hweights, Hget.
    rewrite (Hz (Hnone i c Hin)).
    split; [lra|]. split; [lra|]. intros Hq. by destruct (Hnone i c Hin).
  - destruct (Hentries i c Hin) as (Hget & Hnn & Hpos & _).
    set (e := (entry_fl fl (i, c)).2) in *.
    assert (Hw : get0 (connection_weights s') i = fl (e / T)).
    { unfold get0. rewrite Hweights. unfold normalize_fl.
      by rewrite (dict_get_fmap_entry (λ x, fl (x / T))), Hget. }
    assert (Hdivs : ∀ j d, (j, d) ∈ active_connections s →
              accurate fl u ((entry_fl fl (j, d)).2 / T)
              ∧ 0 <= (entry_fl fl (j, d)).2 / T).
    { intros j d Hjd. split.
      - rewrite Forall_forall in Hdiv. apply Hdiv.
        apply list_elem_of_fmap. exists (entry_fl fl (j, d)).
        split; [done|]. apply list_elem_of_fmap. by exists (j, d).
      - destruct (Hentries j d Hjd) as (_ & Hd & _).
        apply Qle_shift_div_l; [done|]. lra. }
    destruct (Hdivs i c Hin) as [Hacc_i Hq_i].
    destruct (accurate_bounds fl u Hu Hu2 _ Hq_i Hacc_i) as [Hlo_i Hhi_i].
    fold e in Hlo_i, Hhi_i, Hq_i.
    assert (Hall : Forall (λ y, 0 <= y)
                          (values (normalize_fl fl T
                                     (entry_fl fl <$> active_connections s)))).
    { apply Forall_forall. intros y Hy. unfold values, normalize_fl in Hy.
      apply list_elem_of_fmap in Hy as ([k w] & -> & Hkw).
      apply list_elem_of_fmap in Hkw as ([k' x] & [= -> ->] & Hkx).
      apply list_elem_of_fmap in Hkx as ([j d] & Heq & Hjd).
      injection Heq as _ ->. simpl.
      change (0 <= fl ((entry_fl fl (j, d)).2 / T)).
      destruct (Hdivs j d Hjd) as [Ha Hq].
      destruct (accurate_bounds fl u Hu Hu2 _ Hq Ha) as [Hl _].
      set (x := (entry_fl fl (j, d)).2 / T) in *. nra. }
    assert (Hmem : fl (e / T)
                   ∈ values (normalize_fl fl T
                               (entry_fl fl <$> active_connections s))).
    { unfold values. apply list_elem_of_fmap. exists (i, fl (e / T)).
      split; [done|]. apply dict_get_Some_elem.
      unfold normalize_fl.
      by rewrite (dict_get_fmap_entry (λ x, fl (x / T))), Hget. }
    pose proof (elem_le_Qsum _ _ Hall Hmem) as Hle.
    unfold weight_of. rewrite Hw.
    split; [nra|]. split; [lra|].
    intros Hq. specialize (Hpos Hq).
    assert (Hqpos : 0 < e / T).
    { apply Qlt_shift_div_l; [done|]. lra. }
    assert (Hwpos : 0 < fl (e / T)) by nra.
    split; [exact Hwpos|].
    exists c. rewrite Hconns. split; [done|].
    split; [apply Hq | by rewrite Hw].
Qed.

Lemma stored_weights_range_witness :
  ∃ s', _calculate_weights_fl binary64 Examples.sample_connections = Some s'
        ∧ candidate s' "ppp0"
        ∧ weight_of s' "eth0" <= 1 + (1 # 1000000).
Proof.
  assert (Hwf : wf (active_connections Examples.sample_connections)).
  { apply (bool_decide_unpack _). vm_compute. exact I. }
  assert (Hacc : Forall (accurate binary64 u64)
                        (roundings binary64 Examples.sample_connections)).
  { apply Forall_forall. intros x Hx. apply list_elem_of_In in Hx.
    vm_compute in Hx.
    repeat (destruct Hx as [<-|Hx]; [vm_compute; discriminate|]).
    destruct Hx. }
  destruct (_calculate_weights_fl binary64 Examples.sample_connections)
    as [s'|] eqn:Hs'; [|vm_compute in Hs'; discriminate].
  exists s'. split; [reflexivity|].
  assert (Hrange := stored_weights_range binary64 u64 _ s' Hwf
                      ltac:(vm_compute; discriminate)
                      ltac:(vm_compute; discriminate) Hacc Hs').
  split.
  - apply (Hrange "ppp0" (mkConnInfo 15 45 100 true 0 0)).
    + do 2 apply list_elem_of_further. apply list_elem_of_here.
    + by repeat split.
  - apply (Hrange "eth0" (mkConnInfo 100 10 0 true 0 0)).
    apply list_elem_of_here.
Defined.

End AggregatorWeights.

(** ** Node discovery: what a pass returns *)

Section DiscoveryPass.
Import NodeDiscovery DiscoverySpec DiscoveryExtra.

(** A discovery request, the other datagram the module broadcasts, is never
    taken for a peer record: it has a [node_id] but no [ip_address]. *)
Theorem discovery_request_rejected self sender timestamp :
  _validate_node_data self (_send_discovery_broadcast sender timestamp)
  = Invalid
  ∧ discover_nodes self [Decoded (_send_discovery_broadcast sender timestamp)]
    = [].
Proof.
  assert (Hv : _validate_node_data self
                 (_send_discovery_broadcast sender timestamp) = Invalid)
    by reflexivity.
  split; [exact Hv|].
  unfold discover_nodes.
  change (match _validate_node_data self
                  (_send_discovery_broadcast sender timestamp) with
          | Valid => [_send_discovery_broadcast sender timestamp]
          | _ => []
          end = []).
  by rewrite Hv.
Qed.

Lemma discover_loop_stops self v rest pre : ∀ acc,
  _validate_node_data self v = Raises →
  discover_loop self (pre ++ Decoded v :: rest) acc
  = discover_loop self pre acc.
Proof.
  induction pre as [|[| |w] pre IH]; intros acc Hv; simpl.
  - by rewrite Hv.
  - by apply IH.
  - done.
  - destruct (_validate_node_data self w); [by apply IH | by apply IH | done].
Qed.

Lemma validate_obj_never_raises self o :
  _validate_node_data self (JObj o) ≠ Raises.
Proof.
  unfold _validate_node_data, required_fields, all_fields_in, py_in, dict_mem,
    assert_isinstance.
  destruct (dict_get o "node_id") as [v1|]; [|done].
  destruct (dict_get o "ip_address") as [v2|]; [|done].
  destruct (dict_get o "connections") as [v3|]; [|done].
  destruct (dict_get o "bandwidth") as [v4|]; [|done].
  destruct (dict_get o "latency") as [v5|]; [|done].
  destruct (node_id_is_own o (node_id self)); [done|].
  destruct (is_str v1); [|done]. destruct (is_str v2); [|done].
  destruct (is_list v3); [|done]. destruct (is_dict v4); [|done].
  by destruct (is_dict v5).
Qed.

(** A datagram that decodes to [null], a boolean or a number makes the
    validation raise ([TypeError] on the membership test), and so does the
    JSON list of the five field names ([AttributeError] on [.get]); the
    exception ends the pass, so every datagram received after it in the
    same listening window is lost, valid or not.  A JSON object never has
    this effect. *)
Theorem raising_datagram_ends_pass self :
  (∀ v, scalar v → _validate_node_data self v = Raises)
  ∧ _validate_node_data self (JList (JStr <$> required_fields)) = Raises
  ∧ (∀ o, _validate_node_data self (JObj o) ≠ Raises)
  ∧ ∀ v pre rest,
      _validate_node_data self v = Raises →
      discover_nodes self (pre ++ Decoded v :: rest) = discover_nodes self pre.
Proof.
  split; [by intros [| | | | |]|].
  split; [reflexivity|].
  split; [apply validate_obj_never_raises|].
  intros v pre rest Hv. by apply discover_loop_stops.
Qed.

Lemma discover_loop_valid_records self responses : ∀ acc,
  alive self responses →
  discover_loop self responses acc = acc ++ valid_records self responses.
Proof.
  induction responses as [|resp rest IH]; intros acc Halive.
  - simpl. by rewrite app_nil_r.
  - assert (Hhd : ¬ ends_pass self resp)
      by (apply Halive, list_elem_of_here).
    assert (Hrest : alive self rest).
    { intros r Hr. apply Halive. by apply list_elem_of_further. }
    destruct resp as [| |v]; simpl in *; [by apply IH | done |].
    unfold valid_records. simpl. fold (valid_records self rest).
    destruct (_validate_node_data self v) eqn:Hv.
    + rewrite (IH _ Hrest). by rewrite <- app_assoc.
    + by apply IH.
    + done.
Qed.

(** When no datagram of the window ends the pass, that is when [json.loads]
    raises nothing but [JSONDecodeError] and the validation raises on none
    of the decoded values, the pass returns exactly the datagrams that pass
    the validation, in arrival order, and each of them bears a [node_id]
    other than the local one. *)
Theorem discover_nodes_returns_valid self responses :
  alive self responses →
  discover_nodes self responses = valid_records self responses
  ∧ ∀ v, v ∈ discover_nodes self responses →
      ∃ o id, v = JObj o ∧ dict_get o "node_id" = Some (JStr id)
              ∧ node_id self ≠ Some id.
Proof.
  intros Halive. split.
  - unfold discover_nodes. by rewrite discover_loop_valid_records.
  - intros v Hv.
    pose proof (discover_nodes_valid self responses) as Hall.
    rewrite Forall_forall in Hall. specialize (Hall v Hv).
    destruct (validate_valid_obj _ _ Hall) as [o ->].
    apply validate_obj_spec in Hall as (id & _ & _ & _ & _ & H1 & _ & _ & _ & _ & Hne).
    by exists o, id.
Qed.

Lemma discover_nodes_returns_valid_witness :
  alive Examples.receiver Examples.heard
  ∧ discover_nodes Examples.receiver Examples.heard = [Examples.peer_001].
Proof.
  assert (Halive : alive Examples.receiver Examples.heard).
  { intros resp Hr. unfold Examples.heard in Hr.
    apply list_elem_of_In in Hr. simpl in Hr.
    destruct Hr as [<-|[<-|[]]]; [intros [] | vm_compute; discriminate]. }
  split; [exact Halive|].
  destruct (discover_nodes_returns_valid Examples.receiver Examples.heard
              Halive) as [Heq _].
  rewrite Heq. reflexivity.
Defined.

End DiscoveryPass.

(** ** Node discovery: the node identifier *)

Section NodeIdentity.
Import NodeDiscovery.
Variable uuid5 : string → string.

(** The first call of [generate_node_id] derives the identifier from the
    host name and the hardware address and stores it; as long as that
    identifier is a non-empty string, every later call returns it and leaves
    the object alone, whatever the host name and the interfaces have become
    in the meantime. *)
Theorem generate_node_id_stable self hostname ifaces hw hostname' ifaces' hw' :
  truthy (node_id self) = false →
  let '(id, self1) := generate_node_id uuid5 self hostname ifaces hw in
  id = uuid5 (hostname ++ "-" ++ (get_mac_address self ifaces hw).1)%string
  ∧ node_id self1 = Some id
  ∧ (id ≠ "" →
     generate_node_id uuid5 self1 hostname' ifaces' hw' = (id, self1)).
Proof.
  intros Hunset. unfold generate_node_id. rewrite Hunset.
  destruct (get_mac_address self ifaces hw) as [mac self0] eqn:Hmac.
  simpl. split; [done|]. split; [done|].
  intros Hne. destruct (String.eqb_spec (uuid5 (hostname ++ "-" ++ mac)) "");
    [done | done].
Qed.

End NodeIdentity.

Lemma generate_node_id_stable_witness :
  NodeDiscovery.truthy (NodeDiscovery.node_id NodeDiscovery.__init__) = false
  ∧ ∃ id self1,
      NodeDiscovery.generate_node_id (λ name, name) NodeDiscovery.__init__
        "test-host" [("192.168.1.100", "aa:bb:cc:dd:ee:ff")] None
      = (id, self1)
      ∧ id = "test-host-aa:bb:cc:dd:ee:ff"
      ∧ NodeDiscovery.generate_node_id (λ name, name) self1
          "other-host" [] None = (id, self1).
Proof.
  split; [reflexivity|].
  pose proof (generate_node_id_stable (λ name, name) NodeDiscovery.__init__
                "test-host" [("192.168.1.100", "aa:bb:cc:dd:ee:ff")] None
                "other-host" [] None eq_refl) as H.
  destruct (NodeDiscovery.generate_node_id _ _ _ _ _) as [id self1].
  destruct H as (Hid & _ & Hstable).
  exists id, self1. split; [done|].
  assert (Hid' : id = "test-host-aa:bb:cc:dd:ee:ff") by (rewrite Hid; reflexivity).
  split; [exact Hid'|]. apply Hstable. rewrite Hid'. discriminate.
Defined.

(** ** Failover manager: counters, primary interface, manual override *)

Section FailoverCounters.
Import FailoverManager FailoverSpec FailoverExtra.

Lemma select_new_primary_counts s :
  failure_counts (_select_new_primary s) = failure_counts s
  ∧ success_counts (_select_new_primary s) = success_counts s.
Proof. unfold _select_new_primary. by destruct (filter _ _). Qed.

Lemma failover_interface_counts s i now :
  failure_counts (state_of (_failover_interface s i now)) = failure_counts s
  ∧ success_counts (state_of (_failover_interface s i now))
    = success_counts s.
Proof.
  unfold _failover_interface. cbv zeta.
  destruct (decide (i ∈ failed_interfaces s)); [done|].
  simpl. destruct (failure_counts s !! i); [|done]. simpl.
  match goal with |- context [decide (?P)] => destruct (decide P) end;
    [|done].
  match goal with
  | |- context [_select_new_primary ?x] =>
      destruct (select_new_primary_counts x) as (-> & ->)
  end. done.
Qed.

Lemma handle_failure_counts s i now :
  let s' := state_of (_handle_connection_failure s i now) in
  failures_of s' i = failures_of s i + 1
  ∧ successes_of s' i = 0
  ∧ ∀ j, j ≠ i → failures_of s' j = failures_of s j
                 ∧ successes_of s' j = successes_of s j.
Proof.
  unfold _handle_connection_failure, failures_of, successes_of. cbv zeta.
  match goal with |- context [if ?b then _ else _] => destruct b end.
  - match goal with
    | |- context [_failover_interface ?x i now] =>
        destruct (failover_interface_counts x i now) as (-> & ->)
    end.
    simpl. rewrite !lookup_insert_eq. simpl. split; [done|]. split; [done|].
    intros j Hj. by rewrite !lookup_insert_ne.
  - simpl. rewrite !lookup_insert_eq. simpl. split; [done|]. split; [done|].
    intros j Hj. by rewrite !lookup_insert_ne.
Qed.

Lemma recover_interface_counts s i now :
  let s' := _recover_interface s i now in
  (i ∈ failed_interfaces s → failures_of s' i = 0 ∧ successes_of s' i = 0)
  ∧ (i ∉ failed_interfaces s → s' = s)
  ∧ ∀ j, j ≠ i → failures_of s' j = failures_of s j
                 ∧ successes_of s' j = successes_of s j.
Proof.
  unfold _recover_interface, failures_of, successes_of. cbv zeta.
  destruct (decide (i ∈ failed_interfaces s)) as [Hin|Hout].
  - match goal with
    | |- context [_select_new_primary ?x] =>
        destruct (select_new_primary_counts x) as (-> & ->)
    end.
    simpl. rewrite !lookup_insert_eq. split; [done|]. split; [done|].
    intros j Hj. by rewrite !lookup_insert_ne.
  - split; [done|]. split; [done|]. done.
Qed.

Lemma handle_success_counts s i now :
  let s' := _handle_connection_success s i now in
  failures_of s' i = 0
  ∧ ∀ j, j ≠ i → failures_of s' j = failures_of s j
                 ∧ successes_of s' j = successes_of s j.
Proof.
  unfold _handle_connection_success. cbv zeta.
  set (s2 := set_success_counts _ _).
  assert (H2 : failures_of s2 i = 0
               ∧ ∀ j, j ≠ i → failures_of s2 j = failures_of s j
                              ∧ successes_of s2 j = successes_of s j).
  { unfold failures_of, successes_of, s2. simpl. rewrite lookup_insert_eq.
    split; [done|]. intros j Hj. by rewrite !lookup_insert_ne. }
  destruct H2 as [Hi Hother].
  destruct (bool_decide (i ∈ failed_interfaces s2)) eqn:Hf; simpl;
    [|by split].
  destruct (Nat.leb _ _); [|by split].
  apply bool_decide_eq_true in Hf.
  destruct (recover_interface_counts s2 i now) as (Hin & _ & Hrest).
  destruct (Hin Hf) as [-> _]. split; [done|].
  intros j Hj. destruct (Hrest j Hj) as [-> ->]. by apply Hother.
Qed.

Lemma check_interface_counters s now ping stamp i :
  counters_exclusive s →
  counters_exclusive (state_of (check_interface s now ping stamp i)).
Proof.
  intros Hex. unfold check_interface. cbv zeta.
  set (s1 := match last_check s !! i with
             | Some _ => s
             | None => set_last_check s (<[i:=0%Q]> (last_check s))
             end).
  assert (H1 : counters_exclusive s1).
  { unfold s1. by destruct (last_check s !! i). }
  destruct (Qle_bool _ _); [|exact H1].
  set (s2 := set_last_check s1 _).
  assert (H2 : counters_exclusive s2) by exact H1.
  destruct (_check_connection_health s1 ping i).
  - cbn [state_of].
    destruct (handle_success_counts s2 i stamp) as [Hi Hother].
    intros j. destruct (decide (j = i)) as [->|Hne]; [by left|].
    destruct (Hother j Hne) as [-> ->]. apply H2.
  - destruct (handle_failure_counts s2 i stamp) as (_ & Hi & Hother).
    intros j. destruct (decide (j = i)) as [->|Hne]; [by right|].
    destruct (Hother j Hne) as [-> ->]. apply H2.
Qed.

(** A monitoring tick keeps the two hysteresis counters of every interface
    mutually exclusive: a healthy check zeroes the failure count, an
    unhealthy one the success count. *)
Theorem tick_keeps_counters_exclusive self local_node current_time ping clock :
  counters_exclusive self →
  counters_exclusive
    (check_failover_conditions self local_node current_time ping clock).
Proof.
  intros Hex. rewrite check_failover_conditions_returns.
  assert (Hloop : ∀ l s k, counters_exclusive s →
            counters_exclusive
              (state_of (check_loop s current_time ping clock k l))).
  { induction l as [|i l IH]; intros s k Hs; [done|].
    rewrite check_loop_cons. apply IH. by apply check_interface_counters. }
  exact (Hloop _ _ 0 Hex).
Qed.

Lemma tick_keeps_counters_exclusive_witness :
  counters_exclusive __init__
  ∧ counters_exclusive Examples.after_three_failures
  ∧ failures_of Examples.after_three_failures "eth0" = 3
  ∧ successes_of Examples.after_three_failures "wlan0" = 3.
Proof.
  assert (H0 : counters_exclusive __init__) by (intros i; by left).
  split; [exact H0|]. split; [|split; vm_compute; reflexivity].
  unfold Examples.after_three_failures, Examples.after_two_failures,
    Examples.failover_tick.
  by do 3 apply tick_keeps_counters_exclusive.
Defined.

End FailoverCounters.

Section FailoverTransitions.
Import FailoverManager FailoverSpec FailoverExtra.

(** Two manual failovers in opposite directions bring the primary back: after
    [manual_failover(x, y)] then [manual_failover(y, x)] the primary
    interface is [x] again, [x] is out of the failed set, [y] (if it is
    another interface) is in it, and the log has grown by exactly the two
    [manual_failover] events. *)
Theorem manual_failover_round_trip self x y t1 t2 :
  let s1 := (manual_failover self x y t1).2 in
  let s2 := (manual_failover s1 y x t2).2 in
  primary_interface s1 = Some y
  ∧ primary_interface s2 = Some x
  ∧ (x ∉ failed_interfaces s2)
  ∧ (x ≠ y → y ∈ failed_interfaces s2)
  ∧ (∀ i, i ≠ x → i ≠ y →
       (i ∈ failed_interfaces s2 ↔ i ∈ failed_interfaces self))
  ∧ ∃ e1 e2,
      failover_events s2 = failover_events self ++ [e1; e2]
      ∧ event_type e1 = "manual_failover" ∧ interface e1 = x
      ∧ event_type e2 = "manual_failover" ∧ interface e2 = y.
Proof.
  intros s1 s2. unfold s2, s1, manual_failover. cbv zeta. simpl.
  destruct (decide (y ∈ {[x]} ∪ failed_interfaces self)) as [Hy|Hy]; simpl.
  - destruct (decide (x ∈ {[y]} ∪ (({[x]} ∪ failed_interfaces self) ∖ {[y]})))
      as [Hx|Hx]; simpl.
    + split; [done|]. split; [done|].
      split; [set_unfold; intuition congruence|].
      split; [intros Hne; set_unfold; intuition congruence|].
      split; [intros i H1 H2; set_unfold; intuition congruence|].
      eexists _, _. rewrite <- app_assoc. by repeat split.
    + destruct Hx. destruct (decide (x = y)) as [->|Hne]; set_unfold; intuition congruence.
  - destruct (decide (x ∈ {[y]} ∪ ({[x]} ∪ failed_interfaces self)))
      as [Hx|Hx]; simpl.
    + split; [done|]. split; [done|].
      split; [set_unfold; intuition congruence|].
      split; [intros Hne; set_unfold; intuition congruence|].
      split; [intros i H1 H2; set_unfold; intuition congruence|].
      eexists _, _. rewrite <- app_assoc. by repeat split.
    + destruct Hx. set_unfold; intuition congruence.
Qed.

(** When [_failover_interface] takes out an interface whose failure count
    is on record (as it always is when the call comes from
    [_handle_connection_failure]), the primary interface is never left
    pointing at it: if it was the primary, the new primary is the first
    backup interface that is not failed (none when all are); otherwise the
    primary is unchanged.  Without a count on record the call raises
    ([KeyError]) after the interface has joined the failed set: no event is
    logged and the primary is left as it was, even when it is the interface
    just failed. *)
Theorem failover_moves_primary s i now :
  i ∉ failed_interfaces s →
  match failure_counts s !! i with
  | Some n =>
      ∃ s', _failover_interface s i now = Returned s'
        ∧ failed_interfaces s' = {[i]} ∪ failed_interfaces s
        ∧ primary_interface s' ≠ Some i
        ∧ (primary_interface s ≠ Some i
           → primary_interface s' = primary_interface s)
        ∧ (primary_interface s = Some i →
           match primary_interface s' with
           | Some p =>
               ∃ pre post, backup_interfaces s = pre ++ p :: post
                           ∧ (p ∉ failed_interfaces s')
                           ∧ ∀ b, b ∈ pre → b ∈ failed_interfaces s'
           | None => ∀ b, b ∈ backup_interfaces s → b ∈ failed_interfaces s'
           end)
        ∧ ∃ e, failover_events s' = failover_events s ++ [e]
               ∧ event_type e = "connection_lost" ∧ interface e = i
               ∧ details e = FailureDetails n (value (state s))
  | None =>
      ∃ s', _failover_interface s i now = Raised s'
        ∧ failed_interfaces s' = {[i]} ∪ failed_interfaces s
        ∧ failover_events s' = failover_events s
        ∧ primary_interface s' = primary_interface s
  end.
Proof.
  intros Hout. unfold _failover_interface. cbv zeta.
  destruct (decide (i ∈ failed_interfaces s)) as [|_]; [done|].
  simpl. destruct (failure_counts s !! i) as [n|]; [|by eexists].
  eexists. split; [reflexivity|].
  match goal with |- context [decide (?P)] => destruct (decide P) as [Hp|Hp] end.
  - simpl in Hp. unfold _select_new_primary. simpl.
    set (F' := {[i]} ∪ failed_interfaces s).
    assert (Hfilter : ∀ l,
              match filter (λ iface, iface ∉ F') l with
              | p :: _ => ∃ pre post, l = pre ++ p :: post ∧ (p ∉ F')
                                      ∧ ∀ b, b ∈ pre → b ∈ F'
              | [] => ∀ b, b ∈ l → b ∈ F'
              end).
    { induction l as [|a l IH].
      - intros b Hb. by apply not_elem_of_nil in Hb.
      - rewrite filter_cons. destruct (decide (a ∉ F')) as [Ha|Ha].
        + exists [], l. split; [done|]. split; [done|].
          intros b Hb. by apply not_elem_of_nil in Hb.
        + assert (Ha' : a ∈ F') by (destruct (decide (a ∈ F')); tauto).
          destruct (filter _ l) as [|p rest].
          * intros b Hb. apply elem_of_cons in Hb as [->|Hb]; [done | by apply IH].
          * destruct IH as (pre & post & -> & Hpn & Hpre).
            exists (a :: pre), post. split; [done|]. split; [done|].
            intros b Hb. apply elem_of_cons in Hb as [->|Hb]; [done | by apply Hpre]. }
    specialize (Hfilter (backup_interfaces s)).
    destruct (filter _ (backup_interfaces s)) as [|p rest]; simpl.
    + split; [done|]. split; [done|]. split; [done|].
      split; [intros _; exact Hfilter|]. by eexists.
    + destruct Hfilter as (pre & post & Heq & Hpn & Hpre).
      split; [done|].
      split; [intros [= ->]; apply Hpn; unfold F'; set_unfold; intuition congruence|].
      split; [done|]. split; [intros _; by exists pre, post|]. by eexists.
  - simpl in *. split; [done|]. split; [done|].
    split; [done|]. split; [done|]. by eexists.
Qed.

Lemma failover_moves_primary_witness :
  let s := set_failure_counts
             (set_backup_interfaces (set_primary_interface __init__ "eth0")
                                    ["eth0"; "wlan0"; "ppp0"])
             {["eth0" := 3]} in
  ("eth0" ∉ failed_interfaces s)
  ∧ ∃ s', _failover_interface s "eth0" 0 = Returned s'
          ∧ primary_interface s' = Some "wlan0"
          ∧ ("wlan0" ∉ failed_interfaces s').
Proof.
  intros s.
  assert (Hout : "eth0" ∉ failed_interfaces s) by apply not_elem_of_empty.
  split; [exact Hout|].
  pose proof (failover_moves_primary s "eth0" 0 Hout) as H.
  assert (Hn : failure_counts s !! "eth0" = Some 3) by reflexivity.
  rewrite Hn in H. destruct H as (s' & Hs' & _ & _ & _ & H & _).
  exists s'. split; [exact Hs'|].
  assert (E : primary_interface s' = Some "wlan0").
  { assert (Hs : state_of (_failover_interface s "eth0" 0) = s')
      by (by rewrite Hs').
    rewrite <- Hs. vm_compute. reflexivity. }
  split; [exact E|].
  specialize (H eq_refl). rewrite E in H.
  destruct H as (pre & post & _ & Hp & _). exact Hp.
Defined.

(** After a monitoring tick the overall state is one of [NORMAL],
    [MONITORING] and [DEGRADED]: it is [DEGRADED] exactly when the failed set
    has as many members as the node has connections, and [MONITORING]
    exactly when some interface is failed and the two numbers differ by
    one. *)
Theorem tick_state_inference self local_node current_time ping clock :
  let self' :=
    check_failover_conditions self local_node current_time ping clock in
  let total := length (Core.connections local_node) in
  let failed := size (failed_interfaces self') in
  (state self' = NORMAL ∨ state self' = MONITORING ∨ state self' = DEGRADED)
  ∧ (state self' = DEGRADED ↔ total = failed)
  ∧ (state self' = MONITORING ↔ failed ≠ 0 ∧ total = failed + 1).
Proof.
  rewrite check_failover_conditions_returns.
  intros self' total failed.
  set (s1 := state_of (check_loop self current_time ping clock 0
                                  (Core.connections local_node))).
  assert (Hfailed : failed = size (failed_interfaces s1)) by reflexivity.
  assert (Hstate : state self'
            = if (Z.of_nat total - Z.of_nat failed =? 0)%Z then DEGRADED
              else if (Z.of_nat failed =? 0)%Z then NORMAL
              else if (Z.of_nat total - Z.of_nat failed =? 1)%Z
                   then MONITORING else NORMAL) by reflexivity.
  rewrite Hstate. clear Hstate Hfailed. clearbody failed total.
  destruct (Z.eqb_spec (Z.of_nat total - Z.of_nat failed) 0) as [H0|H0].
  { split; [tauto|]. split; [split; [lia | done]|].
    split; [discriminate | lia]. }
  destruct (Z.eqb_spec (Z.of_nat failed) 0) as [Hf|Hf].
  { split; [tauto|]. split; [split; [discriminate | lia]|].
    split; [discriminate | lia]. }
  destruct (Z.eqb_spec (Z.of_nat total - Z.of_nat failed) 1) as [H1|H1].
  { split; [tauto|]. split; [split; [discriminate | lia]|].
    split; [lia | done]. }
  split; [tauto|]. split; [split; [discriminate | lia]|].
  split; [discriminate | lia].
Qed.

(** The status view shows the ten most recent events of the log, oldest
    first, and the whole log while it has at most ten. *)
Theorem status_shows_last_ten_events self :
  let shown := recent_events (get_failover_status self) in
  length shown = min 10 (length (failover_events self))
  ∧ ∃ older, failover_events self = older ++ shown.
Proof.
  intros shown. unfold shown, get_failover_status, last_n.
  cbn [recent_events].
  split.
  - rewrite length_drop.
    destruct (Nat.min_spec 10 (length (failover_events self)))
      as [[? ->]|[? ->]]; lia.
  - exists (take (length (failover_events self) - 10) (failover_events self)).
    by rewrite take_drop.
Qed.

End FailoverTransitions.

(** ** Failover manager: hysteresis *)

Section Hysteresis.
Import FailoverManager FailoverSpec FailoverExtra.

Lemma select_new_primary_thresholds s :
  failover_threshold (_select_new_primary s) = failover_threshold s
  ∧ recovery_threshold (_select_new_primary s) = recovery_threshold s.
Proof. unfold _select_new_primary. by destruct (filter _ _). Qed.

(** One unhealthy check. *)
Lemma handle_failure_step s i now :
  let s' := state_of (_handle_connection_failure s i now) in
  failover_threshold s' = failover_threshold s
  ∧ failures_of s' i = failures_of s i + 1
  ∧ (i ∈ failed_interfaces s →
     failed_interfaces s' = failed_interfaces s
     ∧ failover_events s' = failover_events s)
  ∧ (i ∉ failed_interfaces s → failures_of s i + 1 < failover_threshold s →
     failed_interfaces s' = failed_interfaces s
     ∧ failover_events s' = failover_events s)
  ∧ (i ∉ failed_interfaces s → failover_threshold s ≤ failures_of s i + 1 →
     failed_interfaces s' = {[i]} ∪ failed_interfaces s
     ∧ ∃ e, failover_events s' = failover_events s ++ [e]
            ∧ event_type e = "connection_lost" ∧ interface e = i).
Proof.
  intros s'. unfold s', _handle_connection_failure, failures_of. cbv zeta.
  simpl.
  set (c := default 0 (failure_counts s !! i)).
  destruct (Nat.leb_spec (failover_threshold s) (c + 1)) as [Hge|Hlt].
  - unfold _failover_interface. cbv zeta. simpl.
    destruct (decide (i ∈ failed_interfaces s)) as [Hin|Hout].
    + simpl. rewrite lookup_insert_eq. simpl.
      repeat split; intros; try done; lia.
    + rewrite lookup_insert_eq. simpl.
      destruct (decide (primary_interface s = Some i)).
      * unfold _select_new_primary. simpl.
        destruct (filter _ (backup_interfaces s)); simpl;
          rewrite ?lookup_insert_eq; simpl;
          repeat split; intros; try done; try lia;
          eexists; by repeat split.
      * simpl. rewrite ?lookup_insert_eq. simpl.
        repeat split; intros; try done; try lia.
        eexists; by repeat split.
  - simpl. rewrite lookup_insert_eq. simpl.
    repeat split; intros; try done; lia.
Qed.


(** One healthy check. *)
Lemma handle_success_step s i now :
  let s' := _handle_connection_success s i now in
  recovery_threshold s' = recovery_threshold s
  ∧ (i ∉ failed_interfaces s →
     failed_interfaces s' = failed_interfaces s
     ∧ failover_events s' = failover_events s
     ∧ successes_of s' i = successes_of s i + 1)
  ∧ (i ∈ failed_interfaces s → successes_of s i + 1 < recovery_threshold s →
     failed_interfaces s' = failed_interfaces s
     ∧ failover_events s' = failover_events s
     ∧ successes_of s' i = successes_of s i + 1)
  ∧ (i ∈ failed_interfaces s → recovery_threshold s ≤ successes_of s i + 1 →
     failed_interfaces s' = failed_interfaces s ∖ {[i]}
     ∧ successes_of s' i = 0
     ∧ ∃ e, failover_events s' = failover_events s ++ [e]
            ∧ event_type e = "connection_restored" ∧ interface e = i).
Proof.
  intros s'. unfold s', _handle_connection_success, successes_of. cbv zeta.
  simpl.
  set (c := default 0 (success_counts s !! i)).
  destruct (decide (i ∈ failed_interfaces s)) as [Hin|Hout].
  - rewrite bool_decide_eq_true_2 by done. simpl.
    destruct (Nat.leb_spec (recovery_threshold s) (c + 1)) as [Hge|Hlt].
    + unfold _recover_interface. cbv zeta. simpl.
      destruct (decide (i ∈ failed_interfaces s)) as [_|?]; [|done].
      unfold _select_new_primary. simpl.
      destruct (filter _ (backup_interfaces s)); simpl;
        rewrite lookup_insert_eq; simpl;
        repeat split; intros; try done; try lia;
        eexists; by repeat split.
    + simpl. rewrite lookup_insert_eq. simpl.
      repeat split; intros; try done; lia.
  - rewrite bool_decide_eq_false_2 by done. simpl.
    rewrite lookup_insert_eq. simpl.
    repeat split; intros; try done; lia.
Qed.

Lemma failures_while_failed k : ∀ s i clock,
  i ∈ failed_interfaces s →
  failed_interfaces (consecutive_failures s i clock k) = failed_interfaces s
  ∧ failover_events (consecutive_failures s i clock k) = failover_events s
  ∧ failures_of (consecutive_failures s i clock k) i = failures_of s i + k.
Proof.
  induction k as [|k IH]; intros s i clock Hin; simpl.
  - by rewrite Nat.add_0_r.
  - destruct (handle_failure_step s i (clock k)) as (_ & Hc & Hf & _).
    destruct (Hf Hin) as [Hfs Hev].
    destruct (IH (state_of (_handle_connection_failure s i (clock k)))
                 i clock)
      as (-> & -> & ->); [by rewrite Hfs|].
    rewrite Hfs, Hev, Hc. repeat split; lia.
Qed.

(** Failover hysteresis: [k] unhealthy checks in a row of an interface that
    is not failed raise its failure count by [k]; the interface is in the
    failed set afterwards exactly when the count reached
    [failover_threshold] on the way, and in that case exactly one
    [connection_lost] event was logged, otherwise none. *)
Theorem consecutive_failures_threshold k : ∀ s i clock,
  i ∉ failed_interfaces s →
  let s' := consecutive_failures s i clock k in
  let reached := 1 ≤ k ∧ failover_threshold s ≤ failures_of s i + k in
  failures_of s' i = failures_of s i + k
  ∧ (i ∈ failed_interfaces s' ↔ reached)
  ∧ ∃ evs, failover_events s' = failover_events s ++ evs
           ∧ (reached → ∃ e, evs = [e] ∧ event_type e = "connection_lost"
                              ∧ interface e = i)
           ∧ (¬ reached → evs = []).
Proof.
  induction k as [|k IH]; intros s i clock Hout; simpl.
  - split; [lia|]. split; [split; [done | lia]|].
    exists []. rewrite app_nil_r. split; [done|]. split; [lia | done].
  - destruct (handle_failure_step s i (clock k))
      as (Hthr & Hc & _ & Hbelow & Hcross).
    set (s1 := state_of (_handle_connection_failure s i (clock k))) in *.
    destruct (Nat.le_gt_cases (failover_threshold s) (failures_of s i + 1))
      as [Hge|Hlt].
    + destruct (Hcross Hout Hge) as (Hf & e & He & Het & Hei).
      assert (Hin1 : i ∈ failed_interfaces s1) by (rewrite Hf; set_unfold; tauto).
      destruct (failures_while_failed k s1 i clock Hin1) as (-> & -> & ->).
      rewrite Hc. split; [lia|]. split; [split; [lia | done]|].
      exists [e]. split; [done|]. split; [by eauto | lia].
    + destruct (Hbelow Hout Hlt) as (Hf & He).
      assert (Hout1 : i ∉ failed_interfaces s1) by (by rewrite Hf).
      destruct (IH s1 i clock Hout1) as (Hcount & Hiff & evs & Hevs & Hyes & Hno).
      rewrite Hthr, Hc in *. rewrite He in Hevs.
      split; [lia|]. split; [rewrite Hiff; lia|].
      exists evs. split; [done|].
      split; [intros ?; apply Hyes; lia | intros ?; apply Hno; lia].
Qed.

Lemma consecutive_failures_threshold_witness :
  ("eth0" ∉ failed_interfaces __init__)
  ∧ ("eth0" ∉ failed_interfaces
                (consecutive_failures __init__ "eth0" (λ _, 0%Q) 2))
  ∧ "eth0" ∈ failed_interfaces
               (consecutive_failures __init__ "eth0" (λ _, 0%Q) 3).
Proof.
  assert (Hout : "eth0" ∉ failed_interfaces __init__)
    by apply not_elem_of_empty.
  split; [exact Hout|]. split.
  - destruct (consecutive_failures_threshold 2 __init__ "eth0" (λ _, 0%Q) Hout)
      as (_ & Hiff & _).
    intros Hin. apply Hiff in Hin as [_ Hthr]. vm_compute in Hthr. lia.
  - destruct (consecutive_failures_threshold 3 __init__ "eth0" (λ _, 0%Q) Hout)
      as (_ & Hiff & _).
    apply Hiff. vm_compute. lia.
Defined.

Lemma successes_while_healthy k : ∀ s i clock,
  i ∉ failed_interfaces s →
  failed_interfaces (consecutive_successes s i clock k) = failed_interfaces s
  ∧ failover_events (consecutive_successes s i clock k) = failover_events s.
Proof.
  induction k as [|k IH]; intros s i clock Hout; simpl; [done|].
  destruct (handle_success_step s i (clock k)) as (_ & Hh & _).
  destruct (Hh Hout) as (Hfs & Hev & _).
  destruct (IH (_handle_connection_success s i (clock k)) i clock)
    as (-> & ->); [by rewrite Hfs|].
  by rewrite Hfs, Hev.
Qed.

(** Recovery hysteresis: [k] healthy checks in a row of a failed interface
    take it out of the failed set exactly when its success count reached
    [recovery_threshold] on the way, and in that case exactly one
    [connection_restored] event was logged, otherwise none. *)
Theorem consecutive_successes_threshold k : ∀ s i clock,
  i ∈ failed_interfaces s →
  let s' := consecutive_successes s i clock k in
  let reached := 1 ≤ k ∧ recovery_threshold s ≤ successes_of s i + k in
  (i ∉ failed_interfaces s' ↔ reached)
  ∧ ∃ evs, failover_events s' = failover_events s ++ evs
           ∧ (reached → ∃ e, evs = [e]
                              ∧ event_type e = "connection_restored"
                              ∧ interface e = i)
           ∧ (¬ reached → evs = []).
Proof.
  induction k as [|k IH]; intros s i clock Hin; simpl.
  - split; [split; [done | lia]|].
    exists []. rewrite app_nil_r. split; [done|]. split; [lia | done].
  - destruct (handle_success_step s i (clock k))
      as (Hthr & _ & Hbelow & Hcross).
    set (s1 := _handle_connection_success s i (clock k)) in *.
    destruct (Nat.le_gt_cases (recovery_threshold s) (successes_of s i + 1))
      as [Hge|Hlt].
    + destruct (Hcross Hin Hge) as (Hf & _ & e & He & Het & Hei).
      assert (Hout1 : i ∉ failed_interfaces s1)
        by (rewrite Hf; set_unfold; tauto).
      destruct (successes_while_healthy k s1 i clock Hout1) as (-> & ->).
      split; [split; [lia | done]|].
      exists [e]. split; [done|]. split; [by eauto | lia].
    + destruct (Hbelow Hin Hlt) as (Hf & He & Hc).
      assert (Hin1 : i ∈ failed_interfaces s1) by (by rewrite Hf).
      destruct (IH s1 i clock Hin1) as (Hiff & evs & Hevs & Hyes & Hno).
      rewrite Hthr, Hc in *. rewrite He in Hevs.
      split; [rewrite Hiff; lia|].
      exists evs. split; [done|].
      split; [intros ?; apply Hyes; lia | intros ?; apply Hno; lia].
Qed.

Lemma consecutive_successes_threshold_witness :
  let s := consecutive_failures __init__ "eth0" (λ _, 0%Q) 3 in
  "eth0" ∈ failed_interfaces s
  ∧ "eth0" ∈ failed_interfaces (consecutive_successes s "eth0" (λ _, 0%Q) 1)
  ∧ ("eth0" ∉ failed_interfaces
                (consecutive_successes s "eth0" (λ _, 0%Q) 2)).
Proof.
  intros s.
  assert (Hin : "eth0" ∈ failed_interfaces s).
  { apply (bool_decide_unpack _). vm_compute. exact I. }
  split; [exact Hin|]. split.
  - destruct (consecutive_successes_threshold 1 s "eth0" (λ _, 0%Q) Hin)
      as (Hiff & _).
    destruct (decide ("eth0" ∈ failed_interfaces
                (consecutive_successes s "eth0" (λ _, 0%Q) 1))) as [|Hn];
      [done|].
    apply Hiff in Hn as [_ Hthr]. vm_compute in Hthr. lia.
  - destruct (consecutive_successes_threshold 2 s "eth0" (λ _, 0%Q) Hin)
      as (Hiff & _).
    apply Hiff. vm_compute. lia.
Defined.

End Hysteresis.

(** ** Mesh manager: what a discovery tick does to the peer table *)

Section PeerTable.
Import NodeDiscovery MeshManager MeshSpec.

Lemma touch_touch (node : PeerNode) t t' : touch (touch node t) t' = touch node t'.
Proof. reflexivity. Qed.

Lemma touch_self (node : PeerNode) : node = touch node (Core.last_seen node).
Proof. by destruct node. Qed.

Lemma update_loop_known clock l : ∀ nodes k id (node : PeerNode),
  nodes !! id = Some node →
  ∃ t, (update_loop nodes l clock k).1 !! id = Some (touch node t).
Proof.
  induction l as [|v l IH]; intros nodes k id node Hid.
  - exists (Core.last_seen node). simpl. by rewrite <- touch_self.
  - simpl. destruct (str_field v "node_id") as [vid|].
    2:{ exists (Core.last_seen node). simpl. by rewrite <- touch_self. }
    destruct (nodes !! vid) as [old|] eqn:Hvid.
    + destruct (decide (vid = id)) as [->|Hne].
      * assert (old = node) as -> by congruence.
        destruct (IH (<[id := touch node (clock k)]> nodes) (S k) id
                     (touch node (clock k))) as [t Ht];
          [apply lookup_insert_eq|].
        exists t. by rewrite Ht, touch_touch.
      * apply IH. by rewrite lookup_insert_ne.
    + assert (Hne : vid ≠ id) by congruence.
      destruct (new_mesh_node v (clock k)) as [new|].
      * apply IH. by rewrite lookup_insert_ne.
      * exists (Core.last_seen node). simpl. by rewrite <- touch_self.
Qed.

(** A peer that is already in the table is never updated from a later
    advertisement: after a discovery tick it is either gone or still has the
    [ip_address], [connections], [bandwidth], [latency] and [data_caps] it
    was first recorded with; only [last_seen] moves. *)
Theorem known_peer_only_touched self responses clock id (node : PeerNode) :
  mesh_nodes self !! id = Some node →
  ∀ node', observable (_run_node_discovery self responses clock) id
           = Some node' →
    ∃ t, node' = touch node t.
Proof.
  intros Hid node'. unfold observable, get_mesh_status, _run_node_discovery.
  cbn [status_mesh_nodes].
  destruct (update_loop_known clock
              (discover_nodes (node_discovery self) responses)
              (mesh_nodes self) 0 id node Hid) as [t Ht].
  destruct (update_loop _ _ _ _) as [nodes' [|]]; simpl in Ht.
  - rewrite cleanup_lookup. cbn [mesh_nodes set_mesh_nodes]. rewrite Ht.
    destruct (is_stale _ _); [done|]. intros [= <-]. by exists t.
  - cbn [mesh_nodes set_mesh_nodes]. rewrite Ht. intros [= <-]. by exists t.
Qed.

Lemma known_peer_only_touched_witness :
  mesh_nodes Examples.two_peers !! "fresh-node"
  = Some (Examples.peer_seen_at "fresh-node" 990)
  ∧ ∃ t, observable (_run_node_discovery Examples.two_peers
                       [Decoded (Examples.readvertised_fresh)]
                       Examples.at_1000) "fresh-node"
         = Some (touch (Examples.peer_seen_at "fresh-node" 990) t).
Proof.
  assert (Hid : mesh_nodes Examples.two_peers !! "fresh-node"
                = Some (Examples.peer_seen_at "fresh-node" 990))
    by (vm_compute; reflexivity).
  split; [exact Hid|].
  destruct (observable (_run_node_discovery Examples.two_peers
                          [Decoded (Examples.readvertised_fresh)]
                          Examples.at_1000) "fresh-node") as [node'|] eqn:E;
    [|vm_compute in E; discriminate E].
  destruct (known_peer_only_touched _ _ _ _ _ Hid node' E) as [t ->].
  by exists t.
Defined.

(** The record [advertise_node] builds, received without its envelope by a
    node that does not know the sender yet, goes through: after the tick the
    status view shows a peer with the sender's [node_id] and [ip_address],
    its interface names, bandwidth, latency and data-cap maps as sent, and
    [last_seen] read from the receiver's clock, provided the clean-up runs
    within 60 seconds of that reading. *)
Theorem flat_record_round_trip self (node : Core.LocalNode) timestamp clock :
  node_id (node_discovery self) ≠ Some (Core.node_id node) →
  mesh_nodes self !! Core.node_id node = None →
  (clock 1%nat - clock 0%nat <= 60)%Q →
  observable (_run_node_discovery self
                [Decoded (advertisement_data node timestamp)] clock)
             (Core.node_id node)
  = Some (Core.mkMeshNode (Core.node_id node) (Core.ip_address node)
            (json_of_names (Core.connections node))
            (json_of_floats (Core.bandwidth node))
            (json_of_floats (Core.latency node))
            (clock 0)
            (json_of_floats (Core.data_caps node))).
Proof.
  intros Hne Hnew Hclock.
  assert (Hd : discover_nodes (node_discovery self)
                 [Decoded (advertisement_data node timestamp)]
               = [advertisement_data node timestamp]).
  { unfold discover_nodes.
    change (match _validate_node_data (node_discovery self)
                    (advertisement_data node timestamp) with
            | Valid => [advertisement_data node timestamp]
            | _ => []
            end = [advertisement_data node timestamp]).
    by rewrite advertisement_data_admissible. }
  unfold observable, get_mesh_status, _run_node_discovery.
  cbn [status_mesh_nodes]. rewrite Hd.
  change (update_loop (mesh_nodes self) [advertisement_data node timestamp]
                      clock 0)
    with (match mesh_nodes self !! Core.node_id node with
          | None =>
              (<[Core.node_id node :=
                   Core.mkMeshNode (Core.node_id node) (Core.ip_address node)
                     (json_of_names (Core.connections node))
                     (json_of_floats (Core.bandwidth node))
                     (json_of_floats (Core.latency node))
                     (clock 0)
                     (json_of_floats (Core.data_caps node))]>
                 (mesh_nodes self), true)
          | Some old =>
              (<[Core.node_id node := touch old (clock 0)]> (mesh_nodes self),
               true)
          end).
  rewrite Hnew. rewrite cleanup_lookup. cbn [mesh_nodes set_mesh_nodes].
  rewrite lookup_insert_eq.
  assert (Hfresh : is_stale (clock 1)
            (Core.mkMeshNode (Core.node_id node) (Core.ip_address node)
               (json_of_names (Core.connections node))
               (json_of_floats (Core.bandwidth node))
               (json_of_floats (Core.latency node))
               (clock 0)
               (json_of_floats (Core.data_caps node))) = false).
  { unfold is_stale, stale_threshold. simpl.
    apply negb_false_iff, Qle_bool_iff, Hclock. }
  simpl length. by rewrite Hfresh.
Qed.

Lemma flat_record_round_trip_witness :
  observable (_run_node_discovery Examples.receiving_manager
                [Decoded (advertisement_data Examples.peer_node 7)]
                Examples.at_1000) "peer-001"
  = Some (Core.mkMeshNode "peer-001" "192.168.1.101"
            (JList [JStr "eth0"]) (JObj [("eth0", JNum 100)])
            (JObj [("eth0", JNum 10)]) 1000 (JObj [("eth0", JNum 0)])).
Proof.
  apply (flat_record_round_trip Examples.receiving_manager Examples.peer_node
                                7 Examples.at_1000).
  - discriminate.
  - reflexivity.
  - discriminate.
Defined.

End PeerTable.

(** ** Metrics collector: measurements, history, report *)

Section Metrics.
Import MetricsCollector MetricsExtra.
Local Open Scope Q_scope.

Lemma inject_length_cons {A} (x : A) l :
  inject_Z (Z.of_nat (length (x :: l)))
  == inject_Z (Z.of_nat (length l)) + 1.
Proof.
  simpl length. rewrite Nat2Z.inj_succ, <- Z.add_1_r, inject_Z_plus.
  reflexivity.
Qed.

Lemma inject_length_pos {A} (x : A) l :
  0 < inject_Z (Z.of_nat (length (x :: l))).
Proof.
  change 0 with (inject_Z 0). rewrite <- Zlt_Qlt. simpl length. lia.
Qed.

Lemma Qsum_upper M l :
  Forall (λ x, x <= M) l → Qsum l <= M * inject_Z (Z.of_nat (length l)).
Proof.
  induction 1 as [|x l HM _ IH].
  - simpl. rewrite Qmult_0_r. apply Qle_refl.
  - rewrite inject_length_cons.
    change (Qsum (x :: l)) with (x + Qsum l).
    assert (E : M * (inject_Z (Z.of_nat (length l)) + 1)
                == M + M * inject_Z (Z.of_nat (length l))) by ring.
    rewrite E. by apply Qplus_le_compat.
Qed.


Lemma mean_upper M x l :
  Forall (λ y, y <= M) (x :: l) →
  Qsum (x :: l) / inject_Z (Z.of_nat (length (x :: l))) <= M.
Proof.
  intros Hall. apply Qle_shift_div_r; [apply inject_length_pos|].
  by apply Qsum_upper.
Qed.




Lemma Qsum_positive x l : Forall (λ y, 0 < y) (x :: l) → 0 < Qsum (x :: l).
Proof.
  revert x. induction l as [|z l IH]; intros x Hall.
  - apply Forall_cons in Hall as [Hx _]. simpl. by rewrite Qplus_0_r.
  - apply Forall_cons in Hall as [Hx Hall].
    change (0 < x + Qsum (z :: l)). rewrite <- (Qplus_0_r 0).
    apply Qplus_lt_le_compat; [done|]. apply Qlt_le_weak. by apply IH.
Qed.

Lemma successful_probes_positive self ping iface :
  Forall (λ y, 0 < y) (successful_probes self ping iface).
Proof.
  apply Forall_forall. intros y Hy. unfold successful_probes in Hy.
  apply list_elem_of_In, filter_In in Hy as [_ Hy].
  apply negb_true_iff in Hy. apply Qnot_le_lt. intros Hle.
  apply Qle_bool_iff in Hle. congruence.
Qed.




(** *** Averages and peaks *)

Lemma max_or_0_attained (f : PerformanceMetrics → Q) x l :
  (∀ s, s ∈ x :: l → f s <= max_or_0 (f <$> x :: l))
  ∧ ∃ s, s ∈ x :: l ∧ max_or_0 (f <$> x :: l) = f s.
Proof.
  split.
  - intros s Hs. rewrite fmap_cons. simpl.
    apply (py_max_by_upper (λ y, y) _ _ (f s)).
    change (f s ∈ f <$> (x :: l)). apply list_elem_of_fmap. by exists s.
  - rewrite fmap_cons. simpl.
    pose proof (py_max_by_elem (λ y : Q, y) (f <$> l) (f x)) as Hin.
    change (py_max_by (λ y : Q, y) (f x) (f <$> l) ∈ f <$> (x :: l)) in Hin.
    apply list_elem_of_fmap in Hin as (s & Heq & Hs). by exists s.
Qed.

Lemma mean_le_max (f : PerformanceMetrics → Q) x l :
  mean_or_0 (f <$> x :: l) <= max_or_0 (f <$> x :: l).
Proof.
  destruct (max_or_0_attained f x l) as [Hub _].
  rewrite fmap_cons at 1. unfold mean_or_0.
  apply mean_upper.
  change (Forall (λ y, y <= max_or_0 (f <$> x :: l)) (f <$> (x :: l))).
  apply Forall_fmap, Forall_forall. intros s Hs. by apply Hub.
Qed.

(** Whenever the history is not empty, the stored peaks and averages
    summarise it: for bandwidth, latency, jitter and packet loss the peak is
    the value of some stored sample and no stored sample exceeds it, and the
    average is at most the peak. *)
Theorem update_averages_and_peaks_summarises m now1 now2 :
  items (history m) ≠ [] →
  let m' := _update_averages_and_peaks m now1 now2 in
  history m' = history m
  ∧ summarises bandwidth_up m' ∧ summarises latency m'
  ∧ summarises jitter m' ∧ summarises packet_loss m'.
Proof.
  intros Hne m'. unfold m', _update_averages_and_peaks.
  destruct (items (history m)) as [|x l] eqn:Hh; [done|].
  split; [done|].
  unfold summarises. simpl. rewrite Hh.
  repeat split;
    first [ apply max_or_0_attained
          | apply (mean_le_max _ x l)
          | idtac ].
Qed.

Lemma update_averages_and_peaks_summarises_witness :
  ∃ m, dict_get (interfaces Examples.one_sample) "eth0" = Some m
       ∧ items (history m) ≠ []
       ∧ summarises packet_loss (_update_averages_and_peaks m 0 0).
Proof.
  eexists. split; [reflexivity|].
  assert (Hne : items (history
                  (mkInterfaceMetrics "eth0" (mkMetrics 100 100 10 1 2 1000)
                     (Deque [mkMetrics 100 100 10 1 2 1000] 100)
                     (mkMetrics 100 100 10 1 2 1000)
                     (mkMetrics 100 100 10 1 2 1000))) ≠ []) by discriminate.
  split; [|exact (proj2 (proj2 (proj2 (proj2
             (update_averages_and_peaks_summarises _ 0 0 Hne)))))].
  discriminate.
Defined.


(** *** The rolling history *)

Lemma deque_append_within {A} (q : deque A) x :
  length (items q) ≤ maxlen q →
  length (items (deque_append q x)) ≤ maxlen q
  ∧ maxlen (deque_append q x) = maxlen q
  ∧ (0 < maxlen q → last (items (deque_append q x)) = Some x)%nat
  ∧ (length (items q) < maxlen q →
     items (deque_append q x) = items q ++ [x])%nat
  ∧ (0 < maxlen q → length (items q) = maxlen q →
     items (deque_append q x) = drop 1 (items q) ++ [x])%nat.
Proof.
  intros Hlen. unfold deque_append.
  destruct (Nat.eqb_spec (maxlen q) 0) as [H0|H0].
  { repeat split; try done; intros; lia. }
  destruct (Nat.ltb_spec (length (items q)) (maxlen q)) as [Hlt|Hge]; simpl.
  - rewrite length_app. simpl. repeat split; try done; try lia.
    intros _. apply last_snoc.
  - repeat split; try done; try lia.
    all: try (rewrite length_app; simpl; destruct (items q); simpl in *; lia).
    all: try (intros _; apply last_snoc).
    all: try (intros _ _; by destruct (items q)).
Qed.

(** Collecting a sample keeps every history within the capacity of its
    deque (100 for a history created by the collector): the sample becomes
    the current one and the newest entry of the history, the oldest entry
    leaves once the history is full, and the other interfaces are left
    alone. *)
Theorem collect_keeps_history_bounded self iface bw lat jit loss clock :
  histories_within_maxlen self →
  let '(self', m) :=
    collect_interface_metrics self iface bw lat jit loss clock in
  let sample := mkMetrics bw bw lat jit loss (clock 0%nat) in
  histories_within_maxlen self'
  ∧ dict_get (interfaces self') iface = Some m
  ∧ current m = sample
  ∧ (0 < maxlen (history m) → last (items (history m)) = Some sample)%nat
  ∧ (dict_get (interfaces self) iface = None →
     maxlen (history m) = history_size self
     ∧ (0 < history_size self → items (history m) = [sample])%nat)
  ∧ ∀ j, j ≠ iface →
      dict_get (interfaces self') j = dict_get (interfaces self) j.
Proof.
  intros Hinv. unfold collect_interface_metrics. cbv zeta.
  set (sample := mkMetrics bw bw lat jit loss (clock 0%nat)).
  set (m0 := match dict_get (interfaces self) iface with
             | Some m => m
             | None => mkInterfaceMetrics iface sample
                         (deque_new (history_size self)) no_metrics no_metrics
             end).
  assert (Hm0 : length (items (history m0)) ≤ maxlen (history m0)).
  { unfold m0. destruct (dict_get (interfaces self) iface) as [m|] eqn:E.
    - by apply (Hinv iface).
    - simpl. lia. }
  destruct (deque_append_within (history m0) sample Hm0)
    as (Hlen & Hmax & Hlast & Hroom & _).
  set (m1 := mkInterfaceMetrics (interface m0) sample
               (deque_append (history m0) sample) (averages m0) (peaks m0)).
  assert (Hupd : history (_update_averages_and_peaks m1 (clock 1%nat)
                                                    (clock 2%nat))
                 = history m1
                 ∧ current (_update_averages_and_peaks m1 (clock 1%nat)
                                                       (clock 2%nat))
                   = sample).
  { unfold _update_averages_and_peaks. by destruct (items (history m1)). }
  destruct Hupd as [Hh Hc]. simpl.
  split.
  { intros j mj. simpl. destruct (decide (j = iface)) as [->|Hne].
    - rewrite dict_get_set_eq. intros [= <-]. rewrite Hh. simpl.
      by rewrite Hmax.
    - rewrite (dict_get_set_ne _ _ _ _ Hne). apply Hinv. }
  split; [apply dict_get_set_eq|]. split; [exact Hc|].
  rewrite Hh. simpl. rewrite Hmax.
  split; [exact Hlast|]. split.
  - intros Hnew. unfold m0 in *. rewrite Hnew in *. simpl in *.
    split; [done|]. intros Hpos. apply Hroom. simpl. lia.
  - intros j Hne. by apply dict_get_set_ne.
Qed.

Lemma collect_keeps_history_bounded_witness :
  histories_within_maxlen __init__
  ∧ histories_within_maxlen Examples.one_sample
  ∧ ∃ m, dict_get (interfaces Examples.one_sample) "eth0" = Some m
         ∧ items (history m) = [mkMetrics 100 100 10 1 2 1000].
Proof.
  assert (H0 : histories_within_maxlen __init__)
    by (intros i m H; discriminate H).
  split; [exact H0|].
  pose proof (collect_keeps_history_bounded __init__ "eth0" 100 10 1 2
                (λ _, 1000%Q) H0) as H.
  unfold Examples.one_sample.
  destruct (collect_interface_metrics __init__ "eth0" 100 10 1 2 (λ _, 1000%Q))
    as [self' m].
  destruct H as (Hinv & Hm & _ & _ & Hnew & _).
  split; [exact Hinv|]. exists m. split; [exact Hm|].
  destruct (Hnew eq_refl) as [_ Hitems]. apply Hitems. simpl. lia.
Defined.

(** *** The report and its recommendations *)

(** [get_performance_report] returns a report exactly when the collector
    has measured no interface yet; that report has no per-interface block
    and carries the recommendations of [_generate_recommendations]. *)
Theorem performance_report_iff_no_interface self now :
  (get_performance_report self now = None ↔ interfaces self ≠ [])
  ∧ (interfaces self = [] →
     get_performance_report self now
     = Some (mkReport now (global_metrics self) []
                      (_generate_recommendations self))).
Proof.
  unfold get_performance_report.
  destruct (interfaces self) as [|[iface metrics] rest] eqn:Hi.
  - simpl. split; [split; [discriminate | done] | done].
  - change (report_loop ((iface, metrics) :: rest) [])
      with (match interface_report metrics with
            | None => None
            | Some r => report_loop rest (dict_set [] iface r)
            end).
    rewrite interface_report_raises. split; [done | discriminate].
Qed.







End Metrics.

(** ** Start-up: from the measurements to the first weights *)

Section Startup.
Import MeshManager.
Local Open Scope Q_scope.

Lemma simple_bandwidth_test_positive iface :
  0 < MetricsCollector._simple_bandwidth_test iface.
Proof.
  unfold MetricsCollector._simple_bandwidth_test.
  destruct (String.prefix "eth" iface); [reflexivity|].
  destruct (_ || _); [reflexivity|].
  destruct (_ || _); reflexivity.
Qed.

Lemma measure_latency_positive self ping iface :
  0 < MetricsCollector.measure_latency self ping iface.
Proof.
  pose proof (successful_probes_positive self ping iface) as Hpos.
  unfold MetricsCollector.measure_latency.
  fold (MetricsExtra.successful_probes self ping iface).
  destruct (MetricsExtra.successful_probes self ping iface) as [|x l];
    [reflexivity|].
  apply Qlt_shift_div_l; [apply inject_length_pos|].
  rewrite Qmult_0_l. by apply Qsum_positive.
Qed.

Lemma measure_interfaces_lookup metrics ping l : ∀ b la dc i,
  let '(b', la', dc') := measure_interfaces metrics ping l (b, la, dc) in
  (i ∈ l →
     dict_get b' i = Some (MetricsCollector.measure_bandwidth metrics i)
     ∧ dict_get la' i
       = Some (MetricsCollector.measure_latency metrics ping i)
     ∧ dict_get dc' i = Some 0)
  ∧ (i ∉ l →
     dict_get b' i = dict_get b i ∧ dict_get la' i = dict_get la i
     ∧ dict_get dc' i = dict_get dc i).
Proof.
  induction l as [|j l IH]; intros b la dc i.
  - simpl. split; [intros H; by apply not_elem_of_nil in H | done].
  - simpl.
    specialize (IH (dict_set b j (MetricsCollector.measure_bandwidth metrics j))
                   (dict_set la j
                      (MetricsCollector.measure_latency metrics ping j))
                   (dict_set dc j 0) i).
    destruct (measure_interfaces metrics ping l _) as [[b' la'] dc'].
    destruct IH as [Hin Hout]. split.
    + intros Hi. destruct (decide (i ∈ l)) as [Hl|Hl]; [by apply Hin|].
      destruct (Hout Hl) as (-> & -> & ->).
      apply elem_of_cons in Hi as [->|Hi]; [|done].
      by rewrite !dict_get_set_eq.
    + intros Hi. apply not_elem_of_cons in Hi as [Hne Hl].
      destruct (Hout Hl) as (-> & -> & ->).
      by rewrite !dict_get_set_ne.
Qed.

Lemma Forall_dict_set {V} (P : string * V → Prop) (d : dict V) k v :
  Forall P d → P (k, v) → Forall P (dict_set d k v).
Proof.
  intros Hd Hkv. induction d as [|[k' v'] d IH]; simpl.
  - by apply Forall_singleton.
  - apply Forall_cons in Hd as [Hhd Htl].
    destruct (String.eqb_spec k' k) as [->|Hne].
    + by apply Forall_cons.
    + apply Forall_cons. split; [done | by apply IH].
Qed.

Lemma initialize_loop_all (P : string * LinkAggregator.ConnInfo → Prop)
    local_node l : ∀ s,
  Forall P (LinkAggregator.active_connections s) →
  (∀ i, i ∈ l → P (i, AggregatorOps.fresh_info local_node i)) →
  Forall P (LinkAggregator.active_connections
              (LinkAggregator.initialize_loop s local_node l)).
Proof.
  induction l as [|j l IH]; intros s Hs Hl; [done|].
  simpl. apply IH.
  - simpl. apply Forall_dict_set; [done|].
    apply (Hl j), list_elem_of_here.
  - intros i Hi. apply Hl. by apply list_elem_of_further.
Qed.

(** Whatever the platform reports at start-up, the node record built by
    [_initialize_local_node] lets a fresh aggregator initialise without a
    division by zero: every measured latency is positive and every
    bandwidth estimate is positive.  Each listed interface is then
    registered with these figures, and it qualifies for weighting exactly
    when its measured latency is below the 1000 ms sentinel. *)
Theorem startup_weights_defined self node_id ip_address connections ping now :
  let self' :=
    _initialize_local_node self node_id ip_address connections ping now in
  ∃ node s',
    local_node self' = Some node
    ∧ Core.connections node = connections
    ∧ LinkAggregator.initialize LinkAggregator.__init__ node
      = LinkAggregator.Returned s'
    ∧ ∀ i, i ∈ connections →
        ∃ c, dict_get (LinkAggregator.active_connections s') i = Some c
             ∧ LinkAggregator.bandwidth c
               = MetricsCollector.measure_bandwidth (metrics_collector self) i
             ∧ LinkAggregator.latency c
               = MetricsCollector.measure_latency (metrics_collector self)
                                                  ping i
             ∧ 0 < LinkAggregator.bandwidth c
             ∧ 0 < LinkAggregator.latency c
             ∧ (AggregatorSpec.Qualifies c ↔ LinkAggregator.latency c < 1000).
Proof.
  intros self'. unfold self', _initialize_local_node.
  pose proof (measure_interfaces_lookup (metrics_collector self) ping
                connections [] [] []) as Hlookup.
  destruct (measure_interfaces (metrics_collector self) ping connections _)
    as [[b la] dc].
  set (node := Core.mkMeshNode node_id ip_address connections b la now dc).
  assert (Hfresh : ∀ i, i ∈ connections →
            LinkAggregator.bandwidth (AggregatorOps.fresh_info node i)
            = MetricsCollector.measure_bandwidth (metrics_collector self) i
            ∧ LinkAggregator.latency (AggregatorOps.fresh_info node i)
              = MetricsCollector.measure_latency (metrics_collector self)
                                                 ping i).
  { intros i Hi. destruct (Hlookup i) as [Hin _].
    destruct (Hin Hi) as (Hb & Hl & _).
    unfold AggregatorOps.fresh_info, get0. simpl. by rewrite Hb, Hl. }
  assert (Hpos : ∀ i, i ∈ connections →
            0 < LinkAggregator.bandwidth (AggregatorOps.fresh_info node i)
            ∧ 0 < LinkAggregator.latency (AggregatorOps.fresh_info node i)).
  { intros i Hi. destruct (Hfresh i Hi) as [-> ->]. split.
    - apply simple_bandwidth_test_positive.
    - apply measure_latency_positive. }
  set (s1 := LinkAggregator.initialize_loop LinkAggregator.__init__ node
               connections).
  assert (Hall : Forall (λ kv, 0 < LinkAggregator.latency kv.2)
                        (LinkAggregator.active_connections s1)).
  { apply initialize_loop_all; [constructor|].
    intros i Hi. by apply Hpos. }
  destruct (LinkAggregator._calculate_weights s1) as [s2|] eqn:E.
  2:{ unfold LinkAggregator._calculate_weights in E.
      destruct (LinkAggregator.weights_loop _ _ _) as [[t w]|] eqn:Eloop;
        [done|].
      apply weights_loop_None in Eloop as (i & c & Hin & _ & Hz).
      rewrite Forall_forall in Hall. specialize (Hall _ Hin). simpl in Hall.
      rewrite Hz in Hall. by apply Qlt_irrefl in Hall. }
  exists node, (LinkAggregator.set_running s2 true).
  split; [done|]. split; [done|]. split.
  { unfold LinkAggregator.initialize. cbv zeta.
    change (LinkAggregator.initialize_loop LinkAggregator.__init__ node
              (Core.connections node)) with s1.
    by rewrite E. }
  intros i Hi.
  destruct (initialize_loop_entries node connections LinkAggregator.__init__ i)
    as [Hin _].
  destruct (Hin Hi) as (Hc & _).
  apply calculate_weights_frame in E as (_ & _ & _ & _ & Hconns).
  exists (AggregatorOps.fresh_info node i). simpl. rewrite Hconns.
  split; [exact Hc|].
  destruct (Hfresh i Hi) as [Hb Hl]. destruct (Hpos i Hi) as [Hbp Hlp].
  split; [exact Hb|]. split; [exact Hl|]. split; [exact Hbp|].
  split; [exact Hlp|].
  unfold AggregatorSpec.Qualifies. split; [tauto|].
  intros Hlt. by repeat split.
Qed.

End Startup.
